(** * alas: the graph-snapshot diff and the file-system cache with traps

    A shallow embedding of
    - [src/cyclic-dependency-graph/diff.js] (module [GraphDiff]) and
    - [file_system/cache.js] (module [FsCache]),
    followed by the properties of the two that the design document states;
    and of
    - [cloneWithoutUnderscoreProps] (module [AstClone]) and
    - [src/postcss-ast-dependencies/postcss-ast-dependencies.js] and
      [compiler/postcss_ast_dependencies.js] (modules
      [PostcssAstDependencies] and [CompilerPostcssAstDependencies]),
    followed by further properties of the code. *)

From stdpp Require Import gmap strings list fin_maps.
From Stdlib Require Import ZArith Lia.
From Stdlib Require DecimalString DecimalNat DecimalFacts.

Set Warnings "-register-all".
Open Scope string_scope.
Open Scope list_scope.

(* ===================================================================== *)
(** ** diff.js *)
(* ===================================================================== *)

Module GraphDiff.

(** The values a snapshot can hold.  Numbers are the integers that fit a
    double exactly; [JList] stands for an Immutable.js collection, compared
    by value. *)
Inductive jsval : Type :=
  | JUndefined
  | JNull
  | JBool (b : bool)
  | JNum (n : Z)
  | JStr (s : string)
  | JList (l : list jsval).

(** Induction that reaches inside collections. *)
Section jsval_nested_ind.
Variable P : jsval → Prop.
Hypothesis HUndefined : P JUndefined.
Hypothesis HNull : P JNull.
Hypothesis HBool : ∀ b, P (JBool b).
Hypothesis HNum : ∀ n, P (JNum n).
Hypothesis HStr : ∀ s, P (JStr s).
Hypothesis HList : ∀ l, Forall P l → P (JList l).

Fixpoint jsval_nested_ind (v : jsval) : P v :=
  match v with
  | JUndefined => HUndefined
  | JNull => HNull
  | JBool b => HBool b
  | JNum n => HNum n
  | JStr s => HStr s
  | JList l =>
      HList l
        ((fix all (l : list jsval) : Forall P l :=
            match l return Forall P l with
            | [] => @List.Forall_nil jsval P
            | x :: l' => @List.Forall_cons jsval P x l' (jsval_nested_ind x) (all l')
            end) l)
  end.
End jsval_nested_ind.

(** JavaScript's ToBoolean: what [fromValue && ...] tests. *)
Definition truthy (v : jsval) : bool :=
  match v with
  | JUndefined | JNull => false
  | JBool b => b
  | JNum n => negb (n =? 0)%Z
  | JStr s => negb (String.eqb s "")
  | JList _ => true
  end.

(** [is] of Immutable.js: value equality, deep through collections. *)
Fixpoint is_ (a b : jsval) {struct a} : bool :=
  match a, b with
  | JUndefined, JUndefined => true
  | JNull, JNull => true
  | JBool x, JBool y => Bool.eqb x y
  | JNum x, JNum y => (x =? y)%Z
  | JStr x, JStr y => String.eqb x y
  | JList xs, JList ys =>
      (fix all2 (xs ys : list jsval) {struct xs} : bool :=
         match xs, ys with
         | [], [] => true
         | x :: xs', y :: ys' => is_ x y && all2 xs' ys'
         | _, _ => false
         end) xs ys
  | _, _ => false
  end.

(** An Immutable.Map with string keys. *)
Abbreviation snapshot := (gmap string jsval).

(** [Diff = Record({from: null, to: null})] *)
Record Diff : Type := mkDiff { from : snapshot; to : snapshot }.

(** [Map.has] and [Map.get]: a missing key reads as [undefined]. *)
Definition has (m : snapshot) (key : string) : bool := bool_decide (is_Some (m !! key)).
Definition get (m : snapshot) (key : string) : jsval := default JUndefined (m !! key).

(** [m.forEach((value, key) => { if (test) out.push(key) })] *)
Definition forEach_push (m : snapshot) (test : jsval → string → bool) : list string :=
  foldr (λ kv out, if test kv.2 kv.1 then kv.1 :: out else out) [] (map_to_list m).

Definition mergeDiffs (diff1 diff2 : Diff) : Diff :=
  mkDiff (from diff1) (to diff2).

Definition getNewNodesFromDiff (diff : Diff) : list string :=
  forEach_push (to diff) (λ _ key, negb (has (from diff) key)).

Definition getPrunedNodesFromDiff (diff : Diff) : list string :=
  forEach_push (from diff) (λ _ key, negb (has (to diff) key)).

Definition getChangedNodes (diff : Diff) : list string :=
  forEach_push (to diff) (λ toValue key,
    let fromValue := get (from diff) key in
    truthy fromValue && negb (is_ toValue fromValue)).

End GraphDiff.

(* ===================================================================== *)
(** ** cache.js *)
(* ===================================================================== *)

Module FsCache.

(** What cache.js reads off an [fs.Stats]: [stat.isFile()] and
    [stat.mtime.getTime()]. *)
Record Stat : Type := mkStat { stat_isFile : bool; stat_mtime : Z }.

(** Modelled from the spec: file.js, the [File] class, is not among the
    sources.  A [File] is the FileRecord of the design: it is identified by
    its path and holds one cell per property; only the cells that cache.js
    fills through [setStat], [setIsFile] and [setModifiedTime] are kept. *)
Record File : Type := mkFile {
  file_path : string;
  file_stat : option Stat;
  file_isFile : option bool;
  file_modifiedTime : option Z }.

(** One entry of [trap.bindings]; an absent field is [undefined]. *)
Record Bindings : Type := mkBindings {
  isFile : option bool;
  modifiedTime : option Z;
  textHash : option string }.

(** A [FileSystemTrap] object. *)
Record Trap : Type := mkTrap {
  bindings : gmap string Bindings;
  boundFiles : gset string;
  triggerOnChange : gset string }.

Inductive Cause : Type := added | changed | removed.

(** The method names handed to [_evaluateFileMethod]. *)
Inductive Method : Type :=
  getIsFile | getStat | getModifiedTime | getBuffer | getText | getTextHash.

(** What the promise of a [File] method settles with. *)
Inductive Value : Type :=
  | VBool (b : bool)
  | VStat (st : Stat)
  | VTime (ms : Z)
  | VBuffer (bytes : list Byte.byte)
  | VText (text : string)
  | VHash (hash : string).

Inductive Outcome : Type :=
  | Resolved (v : Value)
  | Rejected (err : string).

(** The callback a trap method chains on the cache's promise.
    [ThenModifiedTime t (Some h)] is [readModifiedTime]'s callback followed
    by the one [readTextHash] chains behind it. *)
Inductive Then : Type :=
  | ThenNothing
  | ThenIsFile (trap : nat)
  | ThenStat (trap : nat)
  | ThenModifiedTime (trap : nat) (hash : option string)
  | ThenBuffer (trap : nat)
  | ThenText (trap : nat)
  | ThenTextHash (trap : nat).

(** A call of [_evaluateFileMethod] whose file promise has not settled:
    the [file] it closed over, the [path] of the calling method, and what
    runs on the result. *)
Record Query : Type := mkQuery {
  q_file : nat;
  q_path : string;
  q_method : Method;
  q_then : Then }.

(** Modelled from the spec: utils/event_bus.js, the [EventBus] class, is not
    among the sources.  [push] hands its message to the subscribers at once:
    the three incoming buses call the handlers subscribed to them, and what
    is pushed on [trapTriggered] goes to a log.  The log also keeps, in
    order, the other things the cache does that its environment can see. *)
Inductive Obs : Type :=
  | Deleted (path : string) (trap : nat)
      (* [this.trapsByFile[path].delete(trap)] *)
  | Triggered (trap : nat) (path : string) (cause : Cause)
      (* [this.trapTriggered.push({trap, path, cause})] *)
  | Settled (query : nat) (o : Outcome).
      (* the promise of [_evaluateFileMethod] resolves or rejects *)

(** The cache, the objects it points to, and the promises in flight.
    [File]s and traps are objects: they live in a store and are named by
    their address, so that [file !== this.files[file.path]] compares
    addresses.  In [files], [None] is [null] and a missing key is
    [undefined].  A JS [Set] is a list without duplicates, kept in insertion
    order.  A promise in flight is an entry of [pending]: the environment
    decides when it settles and with what (see [settle]). *)
Record State : Type := mkState {
  files : gmap string (option nat);
  trapsByFile : gmap string (list nat);
  fileObjs : gmap nat File;
  nextFile : nat;
  traps : gmap nat Trap;
  nextTrap : nat;
  pending : gmap nat Query;
  nextQuery : nat;
  log : list Obs }.

Definition init : State := mkState ∅ ∅ ∅ 0 ∅ 0 ∅ 0 [].

Definition with_files (f : gmap string (option nat) → gmap string (option nat)) (s : State) : State :=
  mkState (f (files s)) (trapsByFile s) (fileObjs s) (nextFile s)
          (traps s) (nextTrap s) (pending s) (nextQuery s) (log s).
Definition with_trapsByFile (f : gmap string (list nat) → gmap string (list nat)) (s : State) : State :=
  mkState (files s) (f (trapsByFile s)) (fileObjs s) (nextFile s)
          (traps s) (nextTrap s) (pending s) (nextQuery s) (log s).
Definition with_fileObjs (f : gmap nat File → gmap nat File) (s : State) : State :=
  mkState (files s) (trapsByFile s) (f (fileObjs s)) (nextFile s)
          (traps s) (nextTrap s) (pending s) (nextQuery s) (log s).
Definition with_nextFile (n : nat) (s : State) : State :=
  mkState (files s) (trapsByFile s) (fileObjs s) n
          (traps s) (nextTrap s) (pending s) (nextQuery s) (log s).
Definition with_traps (f : gmap nat Trap → gmap nat Trap) (s : State) : State :=
  mkState (files s) (trapsByFile s) (fileObjs s) (nextFile s)
          (f (traps s)) (nextTrap s) (pending s) (nextQuery s) (log s).
Definition with_nextTrap (n : nat) (s : State) : State :=
  mkState (files s) (trapsByFile s) (fileObjs s) (nextFile s)
          (traps s) n (pending s) (nextQuery s) (log s).
Definition with_pending (f : gmap nat Query → gmap nat Query) (s : State) : State :=
  mkState (files s) (trapsByFile s) (fileObjs s) (nextFile s)
          (traps s) (nextTrap s) (f (pending s)) (nextQuery s) (log s).
Definition with_nextQuery (n : nat) (s : State) : State :=
  mkState (files s) (trapsByFile s) (fileObjs s) (nextFile s)
          (traps s) (nextTrap s) (pending s) n (log s).
Definition with_log (f : list Obs → list Obs) (s : State) : State :=
  mkState (files s) (trapsByFile s) (fileObjs s) (nextFile s)
          (traps s) (nextTrap s) (pending s) (nextQuery s) (f (log s)).

(** *** Synchronous code: state, and exceptions that keep the state *)

Inductive Error : Type := TypeError (msg : string).

Inductive Res (A : Type) : Type :=
  | Ok (a : A)
  | Throw (e : Error).
Arguments Ok {A} a.
Arguments Throw {A} e.

Definition M (A : Type) : Type := State → State * Res A.

#[global] Instance M_ret : MRet M := λ A a s, (s, Ok a).
#[global] Instance M_bind : MBind M := λ A B k m s,
  match m s with
  | (s', Ok a) => k a s'
  | (s', Throw e) => (s', Throw e)
  end.

Definition get_state : M State := λ s, (s, Ok s).
Definition modify (f : State → State) : M unit := λ s, (f s, Ok tt).
Definition throw {A} (e : Error) : M A := λ s, (s, Throw e).

(** [for (const x of xs) body(x)], stopping at the first exception. *)
Fixpoint for_of {A} (xs : list A) (body : A → M unit) : M unit :=
  match xs with
  | [] => mret tt
  | x :: xs' => body x ;; for_of xs' body
  end.

(** [for (const x of xs) if (test(x)) out.push(x)] *)
Fixpoint for_of_push {A} (xs : list A) (test : A → M bool) : M (list A) :=
  match xs with
  | [] => mret []
  | x :: xs' =>
      b ← test x;
      out ← for_of_push xs' test;
      mret (if b : bool then x :: out else out)
  end.

(** The own keys of an object, for [for (const k in obj)].  JavaScript visits
    them in insertion order, a [gmap] in its own: the loop of
    [_triggerTraps] that uses them deletes from one set per key, so the
    order shows in the order of the [Deleted] entries only. *)
Definition keys {V} (obj : gmap string V) : list string := (map_to_list obj).*1.

(** [Set.prototype.add] and [Set.prototype.delete] *)
Definition set_add (x : nat) (s : list nat) : list nat :=
  if decide (x ∈ s) then s else s ++ [x].
Definition set_delete (x : nat) (s : list nat) : list nat :=
  filter (λ y, y ≠ x) s.

#[global] Instance Trap_inhabited : Inhabited Trap := populate (mkTrap ∅ ∅ ∅).
#[global] Instance File_inhabited : Inhabited File := populate (mkFile "" None None None).

Definition trap_of (s : State) (t : nat) : Trap := traps s !!! t.

Definition update_trap (t : nat) (f : Trap → Trap) : M unit :=
  modify (λ s, with_traps <[t := f (trap_of s t)]> s).

Definition emit (o : Obs) : M unit := modify (with_log (λ l, l ++ [o])).

(** *** FileSystemCache *)

Definition _bindTrapToFile (trap : nat) (path : string) : M unit :=
  modify (λ s,
    let traps := default [] (trapsByFile s !! path) in
    with_trapsByFile <[path := set_add trap traps]> s).

(** [new File(path, this.fileSystem)], pre-seeded when a [stat] is given;
    returns the new object's address. *)
Definition _createFile (path : string) (stat : option Stat) : M nat := λ s,
  let file :=
    match stat with
    | Some st => mkFile path (Some st) (Some (stat_isFile st)) (Some (stat_mtime st))
    | None => mkFile path None None None
    end in
  let addr := nextFile s in
  (with_files <[path := Some addr]>
     (with_nextFile (S addr) (with_fileObjs <[addr := file]> s)),
   Ok addr).

Definition _removeFile (path : string) : M unit :=
  modify (with_files <[path := None]>).

(** [file.setIsFile(b)] *)
Definition setIsFile (file : nat) (b : bool) : M unit :=
  modify (λ s,
    let f := fileObjs s !!! file in
    with_fileObjs
      <[file := mkFile (file_path f) (file_stat f) (Some b) (file_modifiedTime f)]> s).

(** The body of the first loop of [_triggerTraps], and of the loop inside
    it. *)
Definition detach_from (trap : nat) (path : string) : M unit :=
  s ← get_state;
  match trapsByFile s !! path with
  | None => throw (TypeError "Cannot read property 'delete' of undefined")
  | Some set =>
      modify (with_trapsByFile <[path := set_delete trap set]>) ;;
      emit (Deleted path trap)
  end.

Definition detach (trap : nat) : M unit :=
  s ← get_state;
  for_of (keys (bindings (trap_of s trap))) (detach_from trap).

Definition _triggerTraps (traps : list nat) (path : string) (cause : Cause) : M unit :=
  if bool_decide (length traps = 0) then mret tt
  else
    for_of (rev traps) detach ;;
    for_of (rev traps) (λ trap, emit (Triggered trap path cause)).

(** The three tests of the handlers' loops over [trapsByFile[path]]. *)
Definition added_test (path : string) (trap : nat) : M bool :=
  s ← get_state;
  mret match bindings (trap_of s trap) !! path with
       | Some b => bool_decide (isFile b = Some false)
       | None => false
       end.

Definition changed_test (path : string) (trap : nat) : M bool :=
  s ← get_state;
  mret (if bool_decide (path ∈ triggerOnChange (trap_of s trap)) then true
        else match bindings (trap_of s trap) !! path with
             | Some b => bool_decide (modifiedTime b ≠ None)
                         || bool_decide (textHash b ≠ None)
             | None => false
             end).

Definition removed_test (path : string) (trap : nat) : M bool :=
  s ← get_state;
  match bindings (trap_of s trap) !! path with
  | Some b => mret (bool_decide (isFile b = Some true))
  | None => throw (TypeError "Cannot read property 'isFile' of undefined")
  end.

(** [const traps = this.trapsByFile[path]; if (traps && traps.size) {...}] *)
Definition with_traps_of (path : string) (test : nat → M bool) (cause : Cause) : M unit :=
  s ← get_state;
  match trapsByFile s !! path with
  | Some traps =>
      if bool_decide (traps ≠ []) then
        trapsToTrigger ← for_of_push traps test;
        _triggerTraps trapsToTrigger path cause
      else mret tt
  | None => mret tt
  end.

Definition _handleFileAdded (path : string) (stat : option Stat) : M unit :=
  s ← get_state;
  match files s !! path with
  | Some (Some _) => mret tt
  | _ => _createFile path stat ;; mret tt
  end ;;
  with_traps_of path (added_test path) added.

Definition _handleFileChanged (path : string) (stat : option Stat) : M unit :=
  _removeFile path ;;
  _createFile path stat ;;
  with_traps_of path (changed_test path) changed.

Definition _handleFileRemoved (path : string) : M unit :=
  _removeFile path ;;
  file ← _createFile path None;
  setIsFile file false ;;
  with_traps_of path (removed_test path) removed.

(** [file !== this.files[file.path]]: [true] stands for the promise that
    never settles, [false] for [null]. *)
Definition _blockStaleFilesFromResolving (file : nat) : M bool :=
  s ← get_state;
  mret (bool_decide (files s !! file_path (fileObjs s !!! file) ≠ Some (Some file))).

(** The synchronous part of [_evaluateFileMethod]: find or create the file,
    call its method, and leave the promise in flight with [k] chained on
    it.  Returns the promise's number. *)
Definition _evaluateFileMethod (methodName : Method) (path : string) (k : Then) : M nat :=
  s ← get_state;
  file ← match files s !! path with
         | Some (Some file) => mret file
         | _ => _createFile path None
         end;
  s ← get_state;
  let q := nextQuery s in
  modify (λ s, with_nextQuery (S q)
                 (with_pending <[q := mkQuery file path methodName k]> s)) ;;
  mret q.

Definition createTrap : M nat := λ s,
  let t := nextTrap s in
  (with_nextTrap (S t) (with_traps <[t := mkTrap ∅ ∅ ∅]> s), Ok t).

(** The callback of [rehydrateTrap], for a validator that answered
    [isValid]; the validator itself is not among the sources. *)
Definition rehydrateTrap (dependencies : gmap string Bindings) (isValid : bool) : M (option nat) :=
  if isValid then
    trap ← createTrap;
    for_of (map_to_list dependencies) (λ kv,
      update_trap trap (λ t,
        mkTrap (<[kv.1 := kv.2]> (bindings t)) (boundFiles t) (triggerOnChange t)) ;;
      _bindTrapToFile trap kv.1) ;;
    mret (Some trap)
  else mret None.

(** *** FileSystemTrap *)

Definition _ensureBindingToFile (trap : nat) (path : string) : M unit :=
  s ← get_state;
  if bool_decide (path ∈ boundFiles (trap_of s trap)) then mret tt
  else
    update_trap trap (λ t,
      mkTrap (bindings t) ({[path]} ∪ boundFiles t) (triggerOnChange t)) ;;
    _bindTrapToFile trap path.

(** Returns the entry; [set_binding] below writes through to it. *)
Definition _getFileBindings (trap : nat) (path : string) : M Bindings :=
  s ← get_state;
  match bindings (trap_of s trap) !! path with
  | Some b => mret b
  | None =>
      let b := mkBindings None None None in
      update_trap trap (λ t,
        mkTrap (<[path := b]> (bindings t)) (boundFiles t) (triggerOnChange t)) ;;
      _ensureBindingToFile trap path ;;
      mret b
  end.

(** An assignment to a field of the object [_getFileBindings] returned. *)
Definition set_binding (trap : nat) (path : string) (f : Bindings → Bindings) : M unit :=
  update_trap trap (λ t,
    mkTrap (alter f path (bindings t)) (boundFiles t) (triggerOnChange t)).

Definition set_isFile (v : bool) (b : Bindings) : Bindings :=
  mkBindings (Some v) (modifiedTime b) (textHash b).
Definition set_modifiedTime (v : Z) (b : Bindings) : Bindings :=
  mkBindings (isFile b) (Some v) (textHash b).
Definition set_textHash (v : string) (b : Bindings) : Bindings :=
  mkBindings (isFile b) (modifiedTime b) (Some v).

Definition set_triggerOnChange (trap : nat) (path : string) : M unit :=
  update_trap trap (λ t,
    mkTrap (bindings t) (boundFiles t) ({[path]} ∪ triggerOnChange t)).

(** The part of a content-sensitive trap method that runs at the call. *)
Definition trap_call (trap : nat) (methodName : Method) (path : string) (k : Then) : M nat :=
  _ensureBindingToFile trap path ;;
  set_triggerOnChange trap path ;;
  _evaluateFileMethod methodName path k.

Definition trap_isFile (trap : nat) (path : string) : M nat :=
  _evaluateFileMethod getIsFile path (ThenIsFile trap).
Definition trap_stat (trap : nat) (path : string) : M nat :=
  trap_call trap getStat path (ThenStat trap).
Definition trap_readModifiedTime (trap : nat) (path : string) (hash : option string) : M nat :=
  trap_call trap getModifiedTime path (ThenModifiedTime trap hash).
Definition trap_readBuffer (trap : nat) (path : string) : M nat :=
  trap_call trap getBuffer path (ThenBuffer trap).
Definition trap_readText (trap : nat) (path : string) : M nat :=
  trap_call trap getText path (ThenText trap).
Definition trap_readTextHash (trap : nat) (path : string) : M nat :=
  trap_call trap getTextHash path (ThenTextHash trap).

(** The [.then] callbacks of the trap methods. *)
Definition then_isFile (trap : nat) (path : string) (v : bool) : M unit :=
  b ← _getFileBindings trap path;
  if bool_decide (isFile b = None) then set_binding trap path (set_isFile v)
  else mret tt.

Definition then_stat (trap : nat) (path : string) (stat : Stat) : M unit :=
  b ← _getFileBindings trap path;
  set_binding trap path (set_isFile true) ;;
  if bool_decide (modifiedTime b = None)
  then set_binding trap path (set_modifiedTime (stat_mtime stat))
  else mret tt.

Definition then_readModifiedTime (trap : nat) (path : string) (ms : Z) : M unit :=
  _getFileBindings trap path ;;
  set_binding trap path (set_isFile true) ;;
  set_binding trap path (set_modifiedTime ms).

Definition then_textHash (trap : nat) (path : string) (hash : string) : M unit :=
  b ← _getFileBindings trap path;
  if bool_decide (textHash b = None) then set_binding trap path (set_textHash hash)
  else mret tt.

Definition run_then (k : Then) (path : string) (v : Value) : M unit :=
  match k, v with
  | ThenIsFile t, VBool b => then_isFile t path b
  | ThenStat t, VStat st => then_stat t path st
  | ThenModifiedTime t hash, VTime ms =>
      then_readModifiedTime t path ms ;;
      match hash with
      | Some h => then_textHash t path h
      | None => mret tt
      end
  | ThenBuffer t, VBuffer _ => trap_readModifiedTime t path None ;; mret tt
  | ThenText t, VText _ => trap_readTextHash t path ;; mret tt
  | ThenTextHash t, VHash h => trap_readModifiedTime t path (Some h) ;; mret tt
  | _, _ => mret tt
  end.

(** The type of value each [File] method's promise resolves with. *)
Definition resolves_with (m : Method) (o : Outcome) : bool :=
  match o, m with
  | Rejected _, _ => true
  | Resolved (VBool _), getIsFile
  | Resolved (VStat _), getStat
  | Resolved (VTime _), getModifiedTime
  | Resolved (VBuffer _), getBuffer
  | Resolved (VText _), getText
  | Resolved (VHash _), getTextHash => true
  | _, _ => false
  end.

(** The file promise of query [q] settles with [o]: the [.catch] and
    [.then] handlers of [_evaluateFileMethod] run, and behind them the
    callback of the trap method that made the call. *)
Definition settle (q : nat) (o : Outcome) : M unit :=
  s ← get_state;
  match pending s !! q with
  | Some (mkQuery file path methodName k) =>
      if resolves_with methodName o then
        modify (with_pending (delete q)) ;;
        block ← _blockStaleFilesFromResolving file;
        if block : bool then mret tt
        else
          emit (Settled q o) ;;
          match o with
          | Resolved data => run_then k path data
          | Rejected _ => mret tt
          end
      else mret tt
  | None => mret tt
  end.

(** *** The cache in its environment *)

(** What can happen next: the watcher calls an ingestion entry point, a
    consumer calls a method of the cache or of a trap that [createTrap]
    returned, or a file promise in flight settles. *)

Inductive Label : Type :=
  | onFileAdded (path : string) (stat : option Stat)
  | onFileChanged (path : string) (stat : option Stat)
  | onFileRemoved (path : string)
  | cache_call (methodName : Method) (path : string)
  | do_createTrap
  | do_rehydrateTrap (dependencies : gmap string Bindings) (isValid : bool)
  | trap_method (trap : nat) (methodName : Method) (path : string)
  | do_settle (q : nat) (o : Outcome).

Definition void {A} (m : M A) : M unit := m ;; mret tt.

Definition step_m (l : Label) : M unit :=
  match l with
  | onFileAdded path stat => _handleFileAdded path stat
  | onFileChanged path stat => _handleFileChanged path stat
  | onFileRemoved path => _handleFileRemoved path
  | cache_call m path => void (_evaluateFileMethod m path ThenNothing)
  | do_createTrap => void createTrap
  | do_rehydrateTrap deps isValid => void (rehydrateTrap deps isValid)
  | trap_method t m path =>
      s ← get_state;
      if bool_decide (t < nextTrap s)%nat then
        match m with
        | getIsFile => void (trap_isFile t path)
        | getStat => void (trap_stat t path)
        | getModifiedTime => void (trap_readModifiedTime t path None)
        | getBuffer => void (trap_readBuffer t path)
        | getText => void (trap_readText t path)
        | getTextHash => void (trap_readTextHash t path)
        end
      else mret tt
  | do_settle q o => settle q o
  end.

Definition step (s : State) (l : Label) : State * Res unit := step_m l s.

(** A run goes on after an exception: the state is what the handler left. *)
Definition run (s : State) (ls : list Label) : State :=
  foldl (λ s l, (step s l).1) s ls.

Definition reachable (s : State) : Prop := ∃ ls, s = run init ls.

(** What a step adds to the log. *)
Definition said (s : State) (l : Label) : list Obs :=
  drop (length (log s)) (log (step s l).1).

(** *** Invariants *)

(** What holds of every state the cache can be in. *)
Record wf (s : State) : Prop := mkWf {
  wf_bindings : ∀ t p,
    is_Some (bindings (trap_of s t) !! p) → is_Some (trapsByFile s !! p);
  wf_bound : ∀ t p,
    p ∈ boundFiles (trap_of s t) → is_Some (trapsByFile s !! p);
  wf_nodup : ∀ p l, trapsByFile s !! p = Some l → NoDup l;
  wf_files : ∀ p f,
    files s !! p = Some (Some f) →
    (f < nextFile s)%nat ∧ file_path (fileObjs s !!! f) = p;
  wf_pending : ∀ q qr,
    pending s !! q = Some qr →
    (q < nextQuery s)%nat ∧ (q_file qr < nextFile s)%nat ∧
    file_path (fileObjs s !!! q_file qr) = q_path qr;
  wf_settled : ∀ q o,
    Settled q o ∈ log s → (q < nextQuery s)%nat ∧ pending s !! q = None }.

(** [m] keeps [I], whether it returns or throws. *)
Definition preserves {A} (I : State → Prop) (m : M A) : Prop :=
  ∀ s, I s → I (m s).1.

(** What [_triggerTraps batch] leaves of the set [l] of [path]. *)
Definition detached (s : State) (batch : list nat) (path : string) (l : list nat) : list nat :=
  filter (λ t, ¬ (t ∈ batch ∧ is_Some (bindings (trap_of s t) !! path))) l.

Definition is_Deleted (o : Obs) : Prop :=
  match o with Deleted _ _ => True | _ => False end.

(** [s] with another index and another log. *)
Definition set_index_log (tbf : gmap string (list nat)) (lg : list Obs) (s : State) : State :=
  mkState (files s) tbf (fileObjs s) (nextFile s) (traps s) (nextTrap s)
          (pending s) (nextQuery s) lg.

(** The tests of the three handlers, as functions of the state. *)
Definition added_rule (s : State) (path : string) (t : nat) : bool :=
  match bindings (trap_of s t) !! path with
  | Some b => bool_decide (isFile b = Some false)
  | None => false
  end.

Definition changed_rule (s : State) (path : string) (t : nat) : bool :=
  if bool_decide (path ∈ triggerOnChange (trap_of s t)) then true
  else match bindings (trap_of s t) !! path with
       | Some b => bool_decide (modifiedTime b ≠ None) || bool_decide (textHash b ≠ None)
       | None => false
       end.

Definition removed_rule (s : State) (path : string) (t : nat) : bool :=
  match bindings (trap_of s t) !! path with
  | Some b => bool_decide (isFile b = Some true)
  | None => false
  end.

(** What a handler leaves, when it returns: the state [s1] it reached
    before its loop, with the batch detached and the log extended. *)
Definition fired (s s1 : State) (rule : nat → bool) (path : string) (cause : Cause)
    (r : State * Res unit) : Prop :=
  let batch := filter (λ t, rule t = true) (default [] (trapsByFile s !! path)) in
  ∃ tbf' dels,
    r = (set_index_log tbf'
           (log s ++ dels ++ map (λ t, Triggered t path cause) (rev batch)) s1,
         Ok tt) ∧
    (∀ p, tbf' !! p = detached s batch p <$> trapsByFile s !! p) ∧
    Forall is_Deleted dels.

(** The state [_handleFileRemoved] reaches before its loop. *)
Definition removed_file_state (path : string) (s : State) : State :=
  (setIsFile (nextFile s) false (_createFile path None (_removeFile path s).1).1).1.


(** The parts of the state that the trap objects and the index are not. *)
Definition file_side (s : State) :=
  (files s, fileObjs s, nextFile s, pending s, nextQuery s, log s).

(** The trap objects. *)
Definition trap_side (s : State) := (traps s, nextTrap s).

(** [l] leaves [path] with a record that no path had before. *)
Definition replaces (s : State) (l : Label) (path : string) : Prop :=
  ∃ file, files (step s l).1 !! path = Some (Some file)
          ∧ ∀ p, files s !! p ≠ Some (Some file).

(** The callback that [l] runs, if [l] settles a promise in flight. *)
Definition callback_of (s : State) (l : Label) : option Then :=
  match l with
  | do_settle q _ => q_then <$> pending s !! q
  | _ => None
  end.

(** The entry of trap [t] for [path] exists and satisfies [φ]. *)
Definition holds (t : nat) (path : string) (φ : Bindings → Prop) (s : State) : Prop :=
  ∃ b, bindings (trap_of s t) !! path = Some b ∧ φ b.

(** The promise [q] of query [qr] can no longer settle: its file is not the
    record of its path any more, and nothing was delivered for it. *)
Definition suppressed (q : nat) (qr : Query) (s : State) : Prop :=
  (q < nextQuery s)%nat ∧
  (pending s !! q = Some qr ∨ pending s !! q = None) ∧
  (q_file qr < nextFile s)%nat ∧
  file_path (fileObjs s !!! q_file qr) = q_path qr ∧
  files s !! q_path qr ≠ Some (Some (q_file qr)) ∧
  ∀ o, Settled q o ∉ log s.

(** What a callback may do to an entry that satisfies [φ], so that the
    entry still satisfies [φ] after it: the writes of each callback, with
    the guards the code puts on them. *)
Definition callback_keeps (φ : Bindings → Prop) (k : Then) : Prop :=
  match k with
  | ThenIsFile _ => ∀ b v, φ b → isFile b = None → φ (set_isFile v b)
  | ThenStat _ =>
      (∀ b, φ b → φ (set_isFile true b)) ∧
      (∀ b ms, φ b → modifiedTime b = None → φ (set_modifiedTime ms b))
  | ThenModifiedTime _ _ =>
      (∀ b, φ b → φ (set_isFile true b)) ∧
      (∀ b ms, φ b → φ (set_modifiedTime ms b)) ∧
      (∀ b h, φ b → textHash b = None → φ (set_textHash h b))
  | _ => True
  end.

(** The three ingestion entry points. *)
Definition is_event (l : Label) : Prop :=
  match l with
  | onFileAdded _ _ | onFileChanged _ _ | onFileRemoved _ => True
  | _ => False
  end.

(** The notifications of trap [t] in a piece of the log. *)
Definition notifies (t : nat) (o : Obs) : bool :=
  match o with
  | Triggered t' _ _ => bool_decide (t' = t)
  | _ => false
  end.
Definition notifications (t : nat) (obs : list Obs) : list Obs :=
  filter (λ o, notifies t o = true) obs.

(** Trap [t] has an entry for every path in whose set it is. *)
Definition recorded_everywhere (s : State) (t : nat) : Prop :=
  ∀ p, t ∈ default [] (trapsByFile s !! p) → is_Some (bindings (trap_of s t) !! p).

(** Trap [t] is in no set. *)
Definition detached_everywhere (s : State) (t : nat) : Prop :=
  ∀ p, t ∉ default [] (trapsByFile s !! p).

(** *** Sample runs *)

Definition mtime5 : Stat := mkStat true 5.
Definition mtime9 : Stat := mkStat true 9.

(** A trap that saw no file at ["a"], after ["a"] changed. *)
Definition saw_absent : State :=
  run init [do_createTrap; trap_method 0 getIsFile "a";
            do_settle 0 (Resolved (VBool false));
            onFileChanged "a" (Some mtime5)].

(** A trap whose [stat("a")] has not come back. *)
Definition stat_in_flight : State :=
  run init [do_createTrap; trap_method 0 getStat "a"].

(** Trap 0 saw a file at ["a"]; the [stat("a")] of trap 1 has not come
    back. *)
Definition seen_and_in_flight : State :=
  run init [do_createTrap; do_createTrap;
            trap_method 0 getIsFile "a"; do_settle 0 (Resolved (VBool true));
            trap_method 1 getStat "a"].

(** A trap that has the [stat] of ["a"] and waits for the [stat] of ["b"]. *)
Definition one_bound_one_in_flight : State :=
  run init [do_createTrap;
            trap_method 0 getStat "a"; do_settle 0 (Resolved (VStat mtime5));
            trap_method 0 getStat "b"].

(** Traps 0 and 1 have the [stat] of ["a"], in this order; trap 0 waits for
    the [stat] of ["b"]. *)
Definition two_traps : State :=
  run init [do_createTrap; do_createTrap;
            trap_method 0 getStat "a"; trap_method 1 getStat "a";
            do_settle 0 (Resolved (VStat mtime5));
            do_settle 1 (Resolved (VStat mtime5));
            trap_method 0 getStat "b"].

(** A [readBuffer("a")] on the cache that has not come back. *)
Definition buffer_in_flight : State :=
  run init [cache_call getBuffer "a"].

End FsCache.

(* ===================================================================== *)
(** ** cache.js: what the further properties are stated with *)
(* ===================================================================== *)

Module FsCacheMore.
Import FsCache.

(** What an event stores for its path. *)
Definition seeded (path : string) (stat : option Stat) : File :=
  match stat with
  | Some st => mkFile path (Some st) (Some (stat_isFile st)) (Some (stat_mtime st))
  | None => mkFile path None None None
  end.

(** A trap that saw a file at ["a"]. *)
Definition saw_file : State :=
  run init [do_createTrap; trap_method 0 getIsFile "a";
            do_settle 0 (Resolved (VBool true))].

(** The callback that a method of a trap chains on the promise of the
    cache. *)
Definition then_of (trap : nat) (methodName : Method) : Then :=
  match methodName with
  | getIsFile => ThenIsFile trap
  | getStat => ThenStat trap
  | getModifiedTime => ThenModifiedTime trap None
  | getBuffer => ThenBuffer trap
  | getText => ThenText trap
  | getTextHash => ThenTextHash trap
  end.

(** The entry of a trap for a path, as [_getFileBindings] returns it: an
    empty one when the trap has none. *)
Definition entry_of (s : State) (trap : nat) (path : string) : Bindings :=
  default (mkBindings None None None) (bindings (trap_of s trap) !! path).

End FsCacheMore.

(* ===================================================================== *)
(** ** diff.js: cloneWithoutUnderscoreProps *)
(* ===================================================================== *)

Module AstClone.

(** The values of a syntax tree.  Numbers are the integers that fit a
    double exactly.  An object is the list of its own enumerable
    properties, in the order in which JavaScript enumerates them. *)
Inductive ast : Type :=
  | NUndefined
  | NNull
  | NBool (b : bool)
  | NNum (n : Z)
  | NStr (s : string)
  | NArr (items : list ast)
  | NObj (props : list (string * ast)).

(** Induction that reaches inside arrays and objects. *)
Section ast_nested_ind.
Variable P : ast → Prop.
Hypothesis HUndefined : P NUndefined.
Hypothesis HNull : P NNull.
Hypothesis HBool : ∀ b, P (NBool b).
Hypothesis HNum : ∀ n, P (NNum n).
Hypothesis HStr : ∀ s, P (NStr s).
Hypothesis HArr : ∀ l, Forall P l → P (NArr l).
Hypothesis HObj : ∀ props, Forall (λ kv, P kv.2) props → P (NObj props).

Fixpoint ast_nested_ind (v : ast) : P v :=
  match v with
  | NUndefined => HUndefined
  | NNull => HNull
  | NBool b => HBool b
  | NNum n => HNum n
  | NStr s => HStr s
  | NArr l =>
      HArr l
        ((fix all (l : list ast) : Forall P l :=
            match l return Forall P l with
            | [] => @List.Forall_nil ast P
            | x :: l' => @List.Forall_cons ast P x l' (ast_nested_ind x) (all l')
            end) l)
  | NObj props =>
      HObj props
        ((fix all (l : list (string * ast)) : Forall (λ kv, P kv.2) l :=
            match l return Forall (λ kv, P kv.2) l with
            | [] => @List.Forall_nil _ (λ kv, P kv.2)
            | kv :: l' =>
                @List.Forall_cons _ (λ kv, P kv.2) kv l'
                  (ast_nested_ind kv.2) (all l')
            end) props)
  end.
End ast_nested_ind.

(** lodash's [isArray], [isObject] and [startsWith]. *)
Definition isArray (v : ast) : bool :=
  match v with NArr _ => true | _ => false end.
Definition isObject (v : ast) : bool :=
  match v with NArr _ | NObj _ => true | _ => false end.
Definition startsWith (s target : string) : bool := String.prefix target s.

(** [obj[key]] and [obj[key] = value] on an object. *)
Fixpoint prop_get (key : string) (props : list (string * ast)) : option ast :=
  match props with
  | [] => None
  | (k, v) :: props' => if String.eqb k key then Some v else prop_get key props'
  end.
Fixpoint prop_set (key : string) (value : ast) (props : list (string * ast))
    : list (string * ast) :=
  match props with
  | [] => [(key, value)]
  | (k, v) :: props' =>
      if String.eqb k key then (k, value) :: props'
      else (k, v) :: prop_set key value props'
  end.

(** The key under which an index is stored: its decimal numeral. *)
Definition index_key (i : nat) : string := DecimalString.NilZero.string_of_uint (Nat.to_uint i).

(** lodash's [isLength]. *)
Definition MAX_SAFE_INTEGER : Z := 9007199254740991.
Definition isLength (v : option ast) : option nat :=
  match v with
  | Some (NNum n) =>
      if (0 <=? n)%Z && (n <=? MAX_SAFE_INTEGER)%Z then Some (Z.to_nat n) else None
  | _ => None
  end.

(** The characters of a string, as [forEach] sees them. *)
Fixpoint chars (s : string) : list ast :=
  match s with
  | EmptyString => []
  | String c s' => NStr (String c EmptyString) :: chars s'
  end.

(** [accumulator[key] = value] in the callback, for a key that does not
    start with an underscore. *)
Definition assign (acc : list (string * ast)) (key : string) (value : ast)
    : list (string * ast) :=
  if negb (startsWith key "_") then prop_set key value acc else acc.

(** What lodash's [forEach] hands to its callback, in order, as (key,
    value) pairs: the elements of an array under their indices; of an
    object that has a [length] that [isLength] accepts, the properties
    under the indices below that length; the own properties of any other
    object; the characters of a string; nothing of the other values. *)
Definition forEach_entries (v : ast) : list (string * ast) :=
  match v with
  | NArr items => imap (λ i x, (index_key i, x)) items
  | NObj props =>
      match isLength (prop_get "length" props) with
      | Some len =>
          (λ i, (index_key i, default NUndefined (prop_get (index_key i) props)))
            <$> seq 0 len
      | None => props
      end
  | NStr s => imap (λ i x, (index_key i, x)) (chars s)
  | _ => []
  end.

(** The accumulator as a value: an array accumulator holds what was
    assigned to its indices, an object accumulator its properties. *)
Definition finish (array : bool) (acc : list (string * ast)) : ast :=
  if array then NArr acc.*2 else NObj acc.

(** [cloneWithoutUnderscoreProps].  The recursion is on the structure of
    the node: the values are cloned where the callback would clone them,
    and [forEach] then runs over the result;
    [cloneWithoutUnderscoreProps_eq] shows that this is the function as
    the source writes it. *)
Fixpoint cloneWithoutUnderscoreProps (node : ast) : ast :=
  let value v := if isObject v then cloneWithoutUnderscoreProps v else v in
  match node with
  | NArr items => NArr (map value items)
  | NObj props =>
      NObj (foldl (λ acc kv, assign acc kv.1 kv.2) []
              (forEach_entries (NObj (map (λ kv, (kv.1, value kv.2)) props))))
  | _ =>
      NObj (foldl (λ acc kv, assign acc kv.1 kv.2) [] (forEach_entries node))
  end.

(** What the callback stores for a value. *)
Definition cloned_value (v : ast) : ast :=
  if isObject v then cloneWithoutUnderscoreProps v else v.

(** No property, at any depth, has a name that starts with an underscore. *)
Fixpoint clean (v : ast) : bool :=
  match v with
  | NArr items => forallb clean items
  | NObj props => forallb (λ kv, negb (startsWith kv.1 "_") && clean kv.2) props
  | _ => true
  end.

(** An object as JavaScript has it: no two properties of one name. *)
Fixpoint distinct_keys (v : ast) : Prop :=
  match v with
  | NArr items => foldr (λ x P, distinct_keys x ∧ P) True items
  | NObj props =>
      NoDup props.*1 ∧ foldr (λ kv P, distinct_keys kv.2 ∧ P) True props
  | _ => True
  end.

(** A tree that the function has nothing to do on: objects as JavaScript
    has them, none with a [length] that [isLength] accepts, and no
    property whose name starts with an underscore. *)
Fixpoint plain (v : ast) : Prop :=
  match v with
  | NArr items => foldr (λ x P, plain x ∧ P) True items
  | NObj props =>
      NoDup props.*1 ∧ isLength (prop_get "length" props) = None ∧
      foldr (λ kv P, (startsWith kv.1 "_" = false ∧ plain kv.2) ∧ P) True props
  | _ => True
  end.

End AstClone.

(* ===================================================================== *)
(** ** postcss-ast-dependencies.js and compiler/postcss_ast_dependencies.js *)
(* ===================================================================== *)

Module JsString.

(** A JavaScript string as the list of its code units, for the strings
    whose code units are below 256. *)
Abbreviation jsstring := (list Ascii.ascii).

(** A string literal. *)
Definition str (s : string) : jsstring := String.list_ascii_of_string s.

(** The two quotes. *)
Definition quote : Ascii.ascii := Ascii.ascii_of_nat 39.
Definition dquote : Ascii.ascii := Ascii.ascii_of_nat 34.

(** WhiteSpace and LineTerminator, below 256: tab, line feed, vertical
    tab, form feed, carriage return, space and no-break space. *)
Definition isWhiteSpace (c : Ascii.ascii) : bool :=
  let n := Ascii.nat_of_ascii c in
  ((n =? 9) || (n =? 10) || (n =? 11) || (n =? 12) || (n =? 13) || (n =? 32)
   || (n =? 160))%nat.

(** [String.prototype.trim] *)
Fixpoint trimStart (s : jsstring) : jsstring :=
  match s with
  | c :: s' => if isWhiteSpace c then trimStart s' else s
  | [] => []
  end.
Definition trimEnd (s : jsstring) : jsstring := reverse (trimStart (reverse s)).
Definition trim (s : jsstring) : jsstring := trimEnd (trimStart s).

(** [String.prototype.startsWith], and lodash's [startsWith]. *)
Fixpoint startsWith (s target : jsstring) {struct target} : bool :=
  match target, s with
  | [], _ => true
  | t :: target', c :: s' => Ascii.eqb c t && startsWith s' target'
  | _ :: _, [] => false
  end.

(** [String.prototype.slice]: a negative bound counts from the end, and
    both bounds are clamped to the string. *)
Definition slice (s : jsstring) (start : Z) (end_ : option Z) : jsstring :=
  let len := Z.of_nat (length s) in
  let clamp k := if (k <? 0)%Z then Z.max (len + k) 0 else Z.min k len in
  let from := clamp start in
  let to := match end_ with Some e => clamp e | None => len end in
  take (Z.to_nat (to - from)) (drop (Z.to_nat from) s).

(** [String.prototype.indexOf], for a token of one code unit: the first
    index at which it stands, [-1] when it stands nowhere. *)
Fixpoint indexOf (s : jsstring) (token : Ascii.ascii) : Z :=
  match s with
  | [] => -1
  | c :: s' =>
      if Ascii.eqb c token then 0
      else let i := indexOf s' token in if (i <? 0)%Z then -1 else 1 + i
  end.

(** [RegExp.prototype.test] for a pattern that is one literal: whether the
    literal stands somewhere in the string. *)
Fixpoint includes (s literal : jsstring) : bool :=
  startsWith s literal ||
  match s with
  | [] => false
  | _ :: s' => includes s' literal
  end.

End JsString.

Module Postcss.
Import JsString.

(** An at-rule of postcss: [name] and [params] are what stands after the
    [@] and after the name. *)
Record AtRule : Type := mkAtRule { name : jsstring; params : jsstring }.

(** A declaration of postcss. *)
Record Declaration : Type := mkDeclaration { prop : jsstring; value : jsstring }.

(** The nodes of a postcss tree.  An at-rule without a body has no
    children. *)
Inductive css : Type :=
  | CAtRule (rule : AtRule) (nodes : list css)
  | CRule (selector : jsstring) (nodes : list css)
  | CDecl (decl : Declaration)
  | CComment (text : jsstring).

(** [rule.error(message)]: the error object, of which the message is
    kept. *)
Inductive CssSyntaxError : Type := mkCssSyntaxError (message : jsstring).

(** A call that returns or throws. *)
Inductive Result (A : Type) : Type :=
  | Returns (a : A)
  | Throws (err : CssSyntaxError).
Arguments Returns {A} a.
Arguments Throws {A} err.

(** [container.walk(callback)] of postcss, for a callback that returns
    nothing: the callback sees every node below the container, a node
    before its children and the children in order; [state] is what the
    callback closes over.  An exception of the callback ends the walk. *)
Fixpoint walk_node {S} (callback : S → css → Result S) (child : css) (state : S)
    : Result S :=
  match callback state child with
  | Throws err => Throws err
  | Returns state' =>
      match child with
      | CAtRule _ nodes | CRule _ nodes =>
          (fix each (nodes : list css) (state : S) : Result S :=
             match nodes with
             | [] => Returns state
             | child' :: nodes' =>
                 match walk_node callback child' state with
                 | Throws err => Throws err
                 | Returns state' => each nodes' state'
                 end
             end) nodes state'
      | _ => Returns state'
      end
  end.

Fixpoint walk {S} (callback : S → css → Result S) (nodes : list css) (state : S)
    : Result S :=
  match nodes with
  | [] => Returns state
  | child :: nodes' =>
      match walk_node callback child state with
      | Throws err => Throws err
      | Returns state' => walk callback nodes' state'
      end
  end.

(** [container.walkAtRules(name, callback)] and
    [container.walkDecls(callback)] of postcss. *)
Definition walkAtRules {S} (name_ : jsstring) (callback : S → AtRule → Result S)
    (ast : list css) (state : S) : Result S :=
  walk (λ state child,
          match child with
          | CAtRule rule _ =>
              if bool_decide (name rule = name_) then callback state rule
              else Returns state
          | _ => Returns state
          end) ast state.

Definition walkDecls {S} (callback : S → Declaration → Result S)
    (ast : list css) (state : S) : Result S :=
  walk (λ state child,
          match child with
          | CDecl decl => callback state decl
          | _ => Returns state
          end) ast state.

(** An entry of the list of dependencies. *)
Record Dependency : Type := mkDependency { source : jsstring }.

(** Induction that reaches inside the children. *)
Section css_nested_ind.
Variable P : css → Prop.
Hypothesis HAtRule : ∀ rule nodes, Forall P nodes → P (CAtRule rule nodes).
Hypothesis HRule : ∀ selector nodes, Forall P nodes → P (CRule selector nodes).
Hypothesis HDecl : ∀ decl, P (CDecl decl).
Hypothesis HComment : ∀ text, P (CComment text).

Fixpoint css_nested_ind (node : css) : P node :=
  let all :=
    fix all (l : list css) : Forall P l :=
      match l return Forall P l with
      | [] => @List.Forall_nil css P
      | x :: l' => @List.Forall_cons css P x l' (css_nested_ind x) (all l')
      end in
  match node with
  | CAtRule rule nodes => HAtRule rule nodes (all nodes)
  | CRule selector nodes => HRule selector nodes (all nodes)
  | CDecl decl => HDecl decl
  | CComment text => HComment text
  end.
End css_nested_ind.

(** The nodes below a container in the order of a walk: a node before
    its children, the children in order. *)
Fixpoint in_walk_order (node : css) : list css :=
  node ::
  match node with
  | CAtRule _ nodes | CRule _ nodes => flat_map in_walk_order nodes
  | _ => []
  end.

(** The at-rules of a name, and the declarations, in the order of a
    walk. *)
Definition at_rules (name_ : jsstring) (ast : list css) : list AtRule :=
  omap (λ node, match node with
                | CAtRule rule _ =>
                    if bool_decide (name rule = name_) then Some rule else None
                | _ => None
                end) (flat_map in_walk_order ast).

Definition declarations (ast : list css) : list Declaration :=
  omap (λ node, match node with CDecl decl => Some decl | _ => None end)
    (flat_map in_walk_order ast).

(** A callback run on the elements of a list in order, as long as it does
    not throw. *)
Fixpoint each {S A} (callback : S → A → Result S) (l : list A) (state : S)
    : Result S :=
  match l with
  | [] => Returns state
  | x :: l' =>
      match callback state x with
      | Throws err => Throws err
      | Returns state' => each callback l' state'
      end
  end.

End Postcss.

Module PostcssAstDependencies.
Import JsString Postcss.

Definition throwMalformedImport {A} : Result A :=
  Throws (mkCssSyntaxError (str "Malformed @import cannot resolve identifier")).

Definition getDependencyIdentifierFromImportRule (rule : AtRule) : Result jsstring :=
  let params := trim (params rule) in
  if negb (startsWith params (str "url(")) &&
     negb (startsWith params [quote]) &&
     negb (startsWith params [dquote])
  then throwMalformedImport
  else
    let text :=
      if startsWith params (str "url(")
      then slice params (Z.of_nat (length (str "url("))) None
      else params in
    let closingToken :=
      if bool_decide (head text = Some quote) then Some quote
      else if bool_decide (head text = Some dquote) then Some dquote
      else None in
    match closingToken with
    | None => throwMalformedImport
    | Some closingToken =>
        let identifierWithTrailing := slice text 1 None in
        let identifierEnd := indexOf identifierWithTrailing closingToken in
        let identifier := slice identifierWithTrailing 0 (Some identifierEnd) in
        (* Empty identifiers are a pain to debug *)
        if bool_decide (trim identifier = []) then throwMalformedImport
        else Returns identifier
    end.

(** [addDependency] and [accumulateDependencyIdentifiers], on the list
    they close over. *)
Definition addDependency (dependencies : list Dependency) (source_ : jsstring)
    : list Dependency :=
  if existsb (λ dep, bool_decide (source dep = source_)) dependencies
  then dependencies
  else dependencies ++ [mkDependency source_].

Definition accumulateDependencyIdentifiers (dependencies : list Dependency)
    (rule : AtRule) : Result (list Dependency) :=
  match getDependencyIdentifierFromImportRule rule with
  | Returns identifier => Returns (addDependency dependencies identifier)
  | Throws err => Throws err
  end.

(** What the promise that [postcssAstDependencies] returns settles with. *)
Inductive Settled : Type :=
  | Resolved (dependencies : list Dependency)
  | Rejected (err : CssSyntaxError).

Definition postcssAstDependencies (ast : list css) : Settled :=
  match walkAtRules (str "import") accumulateDependencyIdentifiers ast [] with
  | Returns dependencies => Resolved dependencies
  | Throws err => Rejected err
  end.

(** What [getDependencyIdentifierFromImportRule] makes of the text that
    stands behind the optional [url(]: the properties below compare the
    function with it. *)
Definition identifier_in (text : jsstring) : Result jsstring :=
  match text with
  | q :: body =>
      if bool_decide (q = quote ∨ q = dquote) then
        let identifier := slice body 0 (Some (indexOf body q)) in
        if bool_decide (trim identifier = []) then throwMalformedImport
        else Returns identifier
      else throwMalformedImport
  | [] => throwMalformedImport
  end.

(** The text behind the optional [url(]. *)
Definition behind_url (params : jsstring) : jsstring :=
  if startsWith params (str "url(") then drop 4 params else params.

(** Sample rules: [@import url("fineprint.css") print],
    [@import 'custom.css'], [@import 'theme.css] and
    [@import url(test.css)]. *)
Definition import_fineprint : AtRule :=
  mkAtRule (str "import")
    (str "url(" ++ dquote :: str "fineprint.css" ++ dquote :: str ") print").
Definition import_custom : AtRule := mkAtRule (str "import") (str "'custom.css'").
Definition import_unclosed : AtRule := mkAtRule (str "import") (str "'theme.css").
Definition import_unquoted : AtRule := mkAtRule (str "import") (str "url(test.css)").

End PostcssAstDependencies.

Module CompilerPostcssAstDependencies.
Import JsString Postcss.

(** A node of css-selector-tokenizer: one of type ['url'], which has a
    [url]; one of another type that has [nodes]; one of another type that
    has none. *)
Inductive vnode : Type :=
  | VUrl (url : jsstring)
  | VNested (nodes : list vnode)
  | VItem.

Definition throwMalformedImport {A} : Result A :=
  Throws (mkCssSyntaxError (str "Malformed @import cannot resolve identifier")).

(** [!x === s]: the negation is applied first, to [x], and the boolean it
    gives is compared with the string; a boolean is never [===] a
    string. *)
Definition not_ (x : option Ascii.ascii) : bool := negb (bool_decide (is_Some x)).
Definition strict_equal_boolean_string (b : bool) (s : jsstring) : bool := false.

Definition getDependencyIdentifierFromImportRule (rule : AtRule) : Result jsstring :=
  let params := trim (params rule) in
  if negb (startsWith params (str "url(")) &&
     strict_equal_boolean_string (not_ (head params)) [quote] &&
     strict_equal_boolean_string (not_ (head params)) [dquote]
  then throwMalformedImport
  else
    let text :=
      if startsWith params (str "url(")
      then slice params (Z.of_nat (length (str "url("))) None
      else params in
    let closingToken :=
      if bool_decide (head text = Some quote) then Some quote
      else if bool_decide (head text = Some dquote) then Some dquote
      else None in
    match closingToken with
    | None => throwMalformedImport
    | Some closingToken =>
        let identifierWithTrailing := slice text 1 None in
        let identifierEnd := indexOf identifierWithTrailing closingToken in
        let identifier := slice identifierWithTrailing 0 (Some identifierEnd) in
        (* Empty identifiers are a pain to debug *)
        if bool_decide (trim identifier = []) then throwMalformedImport
        else Returns identifier
    end.

(** [findUrlsInNode(node, accum)], returning the array it pushes to. *)
Fixpoint findUrlsInNode (node : vnode) (accum : list jsstring) : list jsstring :=
  match node with
  | VUrl url => accum ++ [url]
  | VNested nodes =>
      (fix loop (nodes : list vnode) (accum : list jsstring) : list jsstring :=
         match nodes with
         | [] => accum
         | node' :: nodes' => loop nodes' (findUrlsInNode node' accum)
         end) nodes accum
  | VItem => accum
  end.

(** The urls below a node, in the order in which [findUrlsInNode] meets
    them. *)
Fixpoint urls_in (node : vnode) : list jsstring :=
  match node with
  | VUrl url => [url]
  | VNested nodes => flat_map urls_in nodes
  | VItem => []
  end.

(** Induction that reaches inside the children. *)
Section vnode_nested_ind.
Variable P : vnode → Prop.
Hypothesis HUrl : ∀ url, P (VUrl url).
Hypothesis HNested : ∀ nodes, Forall P nodes → P (VNested nodes).
Hypothesis HItem : P VItem.

Fixpoint vnode_nested_ind (node : vnode) : P node :=
  match node with
  | VUrl url => HUrl url
  | VNested nodes =>
      HNested nodes
        ((fix all (l : list vnode) : Forall P l :=
            match l return Forall P l with
            | [] => @List.Forall_nil vnode P
            | x :: l' => @List.Forall_cons vnode P x l' (vnode_nested_ind x) (all l')
            end) nodes)
  | VItem => HItem
  end.
End vnode_nested_ind.

Section with_tokenizer.
(** [cssSelectorTokenizer.parseValues] *)
Variable parseValues : jsstring → vnode.

Definition getDependencyIdentifiersFromDeclarationValue (string : jsstring)
    : list jsstring :=
  let node := parseValues string in
  findUrlsInNode node [].

Definition addDependency (dependencies : list Dependency) (source_ : jsstring)
    : list Dependency :=
  if existsb (λ dep, bool_decide (source dep = source_)) dependencies
  then dependencies
  else dependencies ++ [mkDependency source_].

Definition accumulateDependencyIdentifiers (dependencies : list Dependency)
    (rule : AtRule) : Result (list Dependency) :=
  match getDependencyIdentifierFromImportRule rule with
  | Returns identifier => Returns (addDependency dependencies identifier)
  | Throws err => Throws err
  end.

Definition postcssAstDependencies (ast : list css) : Result (list Dependency) :=
  match walkAtRules (str "import") accumulateDependencyIdentifiers ast [] with
  | Throws err => Throws err
  | Returns dependencies =>
      walkDecls (λ dependencies decl,
                   let value := value decl in
                   if includes value (str "url(") then
                     let identifiers :=
                       getDependencyIdentifiersFromDeclarationValue value in
                     Returns (foldl addDependency dependencies identifiers)
                   else Returns dependencies) ast dependencies
  end.
End with_tokenizer.

End CompilerPostcssAstDependencies.

(* ===================================================================== *)
(** ** Properties of diff.js *)
(* ===================================================================== *)

Section GraphDiffFacts.
Import GraphDiff.

(** [is] is equality of values, collections included. *)
Lemma is_eq (a b : jsval) : is_ a b = true ↔ a = b.
Proof.
  revert b. induction a as [| |x|x|x|xs IH] using jsval_nested_ind;
    intros [| |y|y|y|ys]; simpl; try (split; [discriminate|congruence]);
    try (split; reflexivity).
  - rewrite Bool.eqb_true_iff. split; congruence.
  - rewrite Z.eqb_eq. split; congruence.
  - rewrite String.eqb_eq. split; congruence.
  - revert ys. induction IH as [|x xs Hx _ IHxs]; intros [|y ys];
      try (split; [discriminate|congruence]); [split; reflexivity|].
    rewrite andb_true_iff, Hx, IHxs. split.
    + intros [-> [= ->]]. reflexivity.
    + intros [= -> ->]. split; reflexivity.
Qed.

Lemma is_neq (a b : jsval) : is_ a b = false ↔ a ≠ b.
Proof.
  rewrite <- is_eq. destruct (is_ a b); split; congruence.
Qed.

Lemma elem_of_forEach_push (m : snapshot) test key :
  key ∈ forEach_push m test ↔ ∃ v, m !! key = Some v ∧ test v key = true.
Proof.
  unfold forEach_push.
  assert (∀ l : list (string * jsval),
    key ∈ foldr (λ kv out, if test kv.2 kv.1 then kv.1 :: out else out) [] l
    ↔ ∃ v, (key, v) ∈ l ∧ test v key = true) as Hl.
  { induction l as [|[k v] l IH]; simpl.
    - split; [intros H; inversion H | intros (v & H & _); inversion H].
    - destruct (test v k) eqn:Hkv.
      + rewrite elem_of_cons, IH. split.
        * intros [->|(v' & Hin & Ht)]; [exists v | exists v'];
            rewrite elem_of_cons; auto.
        * intros (v' & Hin & Ht). apply elem_of_cons in Hin as [[= -> ->]|Hin]; eauto.
      + rewrite IH. split.
        * intros (v' & Hin & Ht). exists v'. rewrite elem_of_cons. auto.
        * intros (v' & Hin & Ht). apply elem_of_cons in Hin as [[= -> ->]|Hin];
            [congruence | eauto]. }
  rewrite Hl. setoid_rewrite elem_of_map_to_list. reflexivity.
Qed.

(** What the three functions return, as sets of keys. *)
Lemma elem_of_getNewNodesFromDiff (d : Diff) key :
  key ∈ getNewNodesFromDiff d ↔ is_Some (to d !! key) ∧ from d !! key = None.
Proof.
  unfold getNewNodesFromDiff, has. rewrite elem_of_forEach_push. split.
  - intros (v & Hv & H).
    apply negb_true_iff, bool_decide_eq_false, eq_None_not_Some in H. eauto.
  - intros [[v Hv] H]. exists v. split; [done|].
    apply negb_true_iff, bool_decide_eq_false, eq_None_not_Some, H.
Qed.

Lemma elem_of_getPrunedNodesFromDiff (d : Diff) key :
  key ∈ getPrunedNodesFromDiff d ↔ is_Some (from d !! key) ∧ to d !! key = None.
Proof.
  unfold getPrunedNodesFromDiff, has. rewrite elem_of_forEach_push. split.
  - intros (v & Hv & H).
    apply negb_true_iff, bool_decide_eq_false, eq_None_not_Some in H. eauto.
  - intros [[v Hv] H]. exists v. split; [done|].
    apply negb_true_iff, bool_decide_eq_false, eq_None_not_Some, H.
Qed.

Lemma elem_of_getChangedNodes (d : Diff) key :
  key ∈ getChangedNodes d ↔
  ∃ toValue fromValue,
    to d !! key = Some toValue ∧ from d !! key = Some fromValue ∧
    truthy fromValue = true ∧ toValue ≠ fromValue.
Proof.
  unfold getChangedNodes, get. rewrite elem_of_forEach_push. split.
  - intros (tv & Hto & H). apply andb_true_iff in H as [Htr Hne].
    apply negb_true_iff, is_neq in Hne.
    destruct (from d !! key) as [fv|]; simpl in *; [|discriminate].
    exists tv, fv. auto.
  - intros (tv & fv & Hto & Hfrom & Htr & Hne). exists tv. split; [done|].
    rewrite Hfrom. simpl. rewrite Htr. simpl. apply negb_true_iff, is_neq, Hne.
Qed.

(** A key that [from] does not have is never reported as changed. *)
Lemma getChangedNodes_absent_from (d : Diff) key :
  from d !! key = None → key ∉ getChangedNodes d.
Proof.
  intros Hfrom. rewrite elem_of_getChangedNodes.
  intros (tv & fv & _ & Hfv & _). congruence.
Qed.

(** C8 (fails on the code): [getChangedNodes] tests [fromValue] for
    truthiness where the other two functions test [from.has(key)].  With
    [from = {a: 0}] and [to = {a: 1}] the key [a] is in both snapshots with
    values that differ, and [getChangedNodes] returns the empty list. *)
Theorem getChangedNodes_falsy_fromValue :
  let d := mkDiff {["a" := JNum 0]} {["a" := JNum 1]} in
  from d !! "a" = Some (JNum 0) ∧ to d !! "a" = Some (JNum 1) ∧
  is_ (JNum 1) (JNum 0) = false ∧
  getChangedNodes d = [].
Proof. vm_compute. repeat split. Qed.

(** C9: [mergeDiffs d1 d2] is the diff from [d1.from] to [d2.to]; merging
    is associative; and a key that neither [d1.from] nor [d2.to] has (so a
    node added after [d1.from] and removed before [d2.to]) is in none of
    the merged diff's new, pruned and changed nodes. *)
Theorem mergeDiffs_from_to_assoc_lossy :
  (∀ d1 d2, mergeDiffs d1 d2 = mkDiff (from d1) (to d2)) ∧
  (∀ d1 d2 d3,
     mergeDiffs (mergeDiffs d1 d2) d3 = mergeDiffs d1 (mergeDiffs d2 d3)) ∧
  (∀ d1 d2 key,
     from d1 !! key = None → is_Some (to d1 !! key) →
     is_Some (from d2 !! key) → to d2 !! key = None →
     (key ∉ getNewNodesFromDiff (mergeDiffs d1 d2)) ∧
     (key ∉ getPrunedNodesFromDiff (mergeDiffs d1 d2)) ∧
     (key ∉ getChangedNodes (mergeDiffs d1 d2))).
Proof.
  split; [reflexivity|]. split; [reflexivity|].
  intros d1 d2 key Hfrom _ _ Hto.
  rewrite elem_of_getNewNodesFromDiff, elem_of_getPrunedNodesFromDiff,
    elem_of_getChangedNodes.
  simpl. rewrite Hfrom, Hto. repeat split.
  - intros [[? [=]] _].
  - intros [[? [=]] _].
  - intros (? & ? & [=] & _).
Qed.

(** The design's example: [{a:1} → {a:1,b:2}] merged with
    [{a:1,b:2} → {a:5}] hides [b]. *)
Lemma mergeDiffs_from_to_assoc_lossy_witness :
  let d1 := mkDiff {["a" := JNum 1]} (<["b" := JNum 2]> {["a" := JNum 1]}) in
  let d2 := mkDiff (<["b" := JNum 2]> {["a" := JNum 1]}) {["a" := JNum 5]} in
  ("b" ∉ getNewNodesFromDiff (mergeDiffs d1 d2)) ∧
  ("b" ∉ getPrunedNodesFromDiff (mergeDiffs d1 d2)) ∧
  ("b" ∉ getChangedNodes (mergeDiffs d1 d2)).
Proof.
  intros d1 d2.
  apply (proj2 (proj2 mergeDiffs_from_to_assoc_lossy) d1 d2 "b").
  - reflexivity.
  - exists (JNum 2). reflexivity.
  - exists (JNum 2). reflexivity.
  - reflexivity.
Defined.

Example merged_example_nodes :
  let d1 := mkDiff {["a" := JNum 1]} (<["b" := JNum 2]> {["a" := JNum 1]}) in
  let d2 := mkDiff (<["b" := JNum 2]> {["a" := JNum 1]}) {["a" := JNum 5]} in
  getNewNodesFromDiff d1 = ["b"] ∧ getChangedNodes d2 = ["a"] ∧
  getPrunedNodesFromDiff d2 = ["b"] ∧
  getNewNodesFromDiff (mergeDiffs d1 d2) = [] ∧
  getPrunedNodesFromDiff (mergeDiffs d1 d2) = [] ∧
  getChangedNodes (mergeDiffs d1 d2) = ["a"].
Proof. vm_compute. repeat split. Qed.

End GraphDiffFacts.

(* ===================================================================== *)
(** ** Properties of cache.js *)
(* ===================================================================== *)

Section FsCacheFacts.
Import FsCache.

Lemma preserves_bind {A B} I (m : M A) (k : A → M B) :
  preserves I m → (∀ a, preserves I (k a)) → preserves I (m ≫= k).
Proof.
  intros Hm Hk s Hs. specialize (Hm s Hs).
  unfold mbind, M_bind. destruct (m s) as [s' [a|e]]; simpl in *; [|done].
  by apply Hk.
Qed.

Lemma preserves_ret {A} I (a : A) : preserves I (mret a).
Proof. intros s Hs. exact Hs. Qed.

Lemma preserves_get_state I : preserves I get_state.
Proof. intros s Hs. exact Hs. Qed.

Lemma preserves_throw {A} I e : preserves I (throw (A:=A) e).
Proof. intros s Hs. exact Hs. Qed.

Lemma preserves_for_of {A} I (xs : list A) body :
  (∀ x, preserves I (body x)) → preserves I (for_of xs body).
Proof.
  intros Hb. induction xs as [|x xs IH]; simpl.
  - apply preserves_ret.
  - apply preserves_bind; auto.
Qed.

Lemma preserves_for_of_push {A} I (xs : list A) test :
  (∀ x, preserves I (test x)) → preserves I (for_of_push xs test).
Proof.
  intros Hb. induction xs as [|x xs IH]; simpl.
  - apply preserves_ret.
  - apply preserves_bind; [auto|]. intros b.
    apply preserves_bind; [auto|]. intros out. apply preserves_ret.
Qed.

Lemma preserves_void {A} I (m : M A) : preserves I m → preserves I (void m).
Proof. intros H. apply preserves_bind; [done|]. intros a. apply preserves_ret. Qed.

Lemma trap_of_insert s t t' T :
  (<[t := T]> (traps s) : gmap nat Trap) !!! t'
  = if decide (t = t') then T else trap_of s t'.
Proof.
  unfold trap_of. destruct (decide (t = t')) as [->|].
  - by rewrite lookup_total_insert_eq.
  - by rewrite lookup_total_insert_ne.
Qed.

Lemma traps_insert_eq (m : gmap nat Trap) t T : <[t := T]> m !!! t = T.
Proof. apply lookup_total_insert_eq. Qed.

Lemma trap_of_init t : trap_of init t = mkTrap ∅ ∅ ∅.
Proof. unfold trap_of, lookup_total, map_lookup_total. simpl. by rewrite lookup_empty. Qed.

Lemma elem_of_rev {A} (x : A) l : x ∈ rev l ↔ x ∈ l.
Proof. rewrite !list_elem_of_In. symmetry. apply in_rev. Qed.

Lemma NoDup_rev_stdpp {A} (l : list A) : NoDup l → NoDup (rev l).
Proof. rewrite !NoDup_ListNoDup. apply List.NoDup_rev. Qed.

Lemma NoDup_set_add x l : NoDup l → NoDup (set_add x l).
Proof.
  intros Hl. unfold set_add. destruct (decide (x ∈ l)); [done|].
  apply NoDup_app. split; [done|]. split; [|apply NoDup_singleton].
  intros y Hy Hy'. apply list_elem_of_singleton in Hy'. by subst.
Qed.

Lemma NoDup_set_delete x l : NoDup l → NoDup (set_delete x l).
Proof. apply NoDup_filter. Qed.

Lemma elem_of_set_add x y l : y ∈ set_add x l ↔ y = x ∨ y ∈ l.
Proof.
  unfold set_add. destruct (decide (x ∈ l)).
  - split; [auto|]. intros [->|]; done.
  - rewrite elem_of_app, list_elem_of_singleton. tauto.
Qed.


(** **** The invariant is kept *)

Lemma preserves_createFile path stat : preserves wf (_createFile path stat).
Proof.
  intros s [H1 H2 H3 H4 H5 H6]. unfold _createFile.
  constructor; simpl; try assumption.
  - intros p f Hp. destruct (decide (path = p)) as [->|Hne].
    + rewrite lookup_insert_eq in Hp. injection Hp as <-.
      rewrite lookup_total_insert_eq. split; [lia|]. by destruct stat.
    + rewrite lookup_insert_ne in Hp by done. apply H4 in Hp as [Hlt Hpath].
      rewrite lookup_total_insert_ne by lia. split; [lia|done].
  - intros q qr Hq. apply H5 in Hq as (? & ? & ?).
    rewrite lookup_total_insert_ne by lia. repeat split; [done|lia|done].
Qed.

Lemma preserves_removeFile path : preserves wf (_removeFile path).
Proof.
  intros s [H1 H2 H3 H4 H5 H6]. unfold _removeFile, modify.
  constructor; simpl; try assumption.
  intros p f Hp. destruct (decide (path = p)) as [->|Hne].
  - by rewrite lookup_insert_eq in Hp.
  - rewrite lookup_insert_ne in Hp by done. by apply H4.
Qed.

Lemma file_path_setIsFile (objs : gmap nat File) file b f :
  file_path
    ((<[file := mkFile (file_path (objs !!! file)) (file_stat (objs !!! file))
                       (Some b) (file_modifiedTime (objs !!! file))]> objs) !!! f)
  = file_path (objs !!! f).
Proof.
  destruct (decide (file = f)) as [->|Hne].
  - by rewrite lookup_total_insert_eq.
  - by rewrite lookup_total_insert_ne.
Qed.

Lemma preserves_setIsFile file b : preserves wf (setIsFile file b).
Proof.
  intros s [H1 H2 H3 H4 H5 H6]. unfold setIsFile, modify.
  constructor; simpl; try assumption.
  - intros p f Hp. rewrite file_path_setIsFile. by apply H4.
  - intros q qr Hq. rewrite file_path_setIsFile. by apply H5.
Qed.

Lemma preserves_bindTrapToFile trap path : preserves wf (_bindTrapToFile trap path).
Proof.
  intros s [H1 H2 H3 H4 H5 H6]. unfold _bindTrapToFile, modify.
  constructor; simpl; try assumption.
  - intros t p Hp. rewrite lookup_insert. case_decide; [by eexists|]. by eapply H1.
  - intros t p Hp. rewrite lookup_insert. case_decide; [by eexists|]. by eapply H2.
  - intros p l. rewrite lookup_insert. case_decide as Hp.
    + intros [= <-]. apply NoDup_set_add.
      destruct (trapsByFile s !! path) eqn:E; simpl; [by eapply H3|constructor].
    + apply H3.
Qed.

Lemma preserves_emit o :
  (∀ q out, o ≠ Settled q out) → preserves wf (emit o).
Proof.
  intros Ho s [H1 H2 H3 H4 H5 H6]. unfold emit, modify.
  constructor; simpl; try assumption.
  intros q out Hin. apply elem_of_app in Hin as [Hin|Hin]; [by eapply H6|].
  apply list_elem_of_singleton in Hin. by destruct (Ho q out).
Qed.

Lemma preserves_detach_from trap p : preserves wf (detach_from trap p).
Proof.
  intros s Hs. unfold detach_from, mbind, M_bind, get_state.
  destruct (trapsByFile s !! p) as [set|] eqn:E; [|done].
  apply (preserves_emit (Deleted p trap)); [done|].
  destruct Hs as [H1 H2 H3 H4 H5 H6]. constructor; simpl; try assumption.
  - intros t p' Hp. rewrite lookup_insert. case_decide; [by eexists|]. by eapply H1.
  - intros t p' Hp. rewrite lookup_insert. case_decide; [by eexists|]. by eapply H2.
  - intros p' l. rewrite lookup_insert. case_decide as Hp.
    + intros [= <-]. apply NoDup_set_delete. by eapply H3.
    + apply H3.
Qed.

Lemma preserves_triggerTraps batch path cause :
  preserves wf (_triggerTraps batch path cause).
Proof.
  unfold _triggerTraps. case_bool_decide; [apply preserves_ret|].
  apply preserves_bind.
  - apply preserves_for_of. intros trap. apply preserves_bind; [apply preserves_get_state|].
    intros s0. apply preserves_for_of. intros p. apply preserves_detach_from.
  - intros ?. apply preserves_for_of. intros trap. by apply preserves_emit.
Qed.

Lemma preserves_with_traps_of path test cause :
  (∀ t, preserves wf (test t)) → preserves wf (with_traps_of path test cause).
Proof.
  intros Ht. unfold with_traps_of.
  apply preserves_bind; [apply preserves_get_state|]. intros s0.
  destruct (trapsByFile s0 !! path); [|apply preserves_ret].
  case_bool_decide; [|apply preserves_ret].
  apply preserves_bind; [by apply preserves_for_of_push|].
  intros batch. apply preserves_triggerTraps.
Qed.

Lemma preserves_added_test I path t : preserves I (added_test path t).
Proof. by intros s Hs. Qed.

Lemma preserves_changed_test I path t : preserves I (changed_test path t).
Proof. by intros s Hs. Qed.

Lemma preserves_removed_test I path t : preserves I (removed_test path t).
Proof.
  intros s Hs. unfold removed_test, mbind, M_bind, get_state.
  by destruct (bindings (trap_of s t) !! path).
Qed.

Lemma preserves_handleFileAdded path stat : preserves wf (_handleFileAdded path stat).
Proof.
  unfold _handleFileAdded.
  apply preserves_bind; [apply preserves_get_state|]. intros s0.
  apply preserves_bind; [|intros ?; apply preserves_with_traps_of, preserves_added_test].
  destruct (files s0 !! path) as [[f|]|]; try apply preserves_ret;
    (apply preserves_bind; [apply preserves_createFile|intros ?; apply preserves_ret]).
Qed.

Lemma preserves_handleFileChanged path stat : preserves wf (_handleFileChanged path stat).
Proof.
  unfold _handleFileChanged.
  apply preserves_bind; [apply preserves_removeFile|]. intros ?.
  apply preserves_bind; [apply preserves_createFile|]. intros ?.
  apply preserves_with_traps_of, preserves_changed_test.
Qed.

Lemma preserves_handleFileRemoved path : preserves wf (_handleFileRemoved path).
Proof.
  unfold _handleFileRemoved.
  apply preserves_bind; [apply preserves_removeFile|]. intros ?.
  apply preserves_bind; [apply preserves_createFile|]. intros file.
  apply preserves_bind; [apply preserves_setIsFile|]. intros ?.
  apply preserves_with_traps_of, preserves_removed_test.
Qed.

(** Writing a trap object and the index at once. *)
Lemma wf_write_trap s t T' tbf' :
  wf s →
  (∀ p, is_Some (trapsByFile s !! p) → is_Some (tbf' !! p)) →
  (∀ p l, tbf' !! p = Some l → NoDup l) →
  (∀ p, is_Some (bindings T' !! p) → is_Some (tbf' !! p)) →
  (∀ p, p ∈ boundFiles T' → is_Some (tbf' !! p)) →
  wf (mkState (files s) tbf' (fileObjs s) (nextFile s) (<[t := T']> (traps s))
        (nextTrap s) (pending s) (nextQuery s) (log s)).
Proof.
  intros [H1 H2 H3 H4 H5 H6] Hdom Hnd Hb Hbf.
  constructor; simpl; try assumption.
  - intros t' p. unfold trap_of. simpl. rewrite trap_of_insert.
    case_decide; [apply Hb|]. intros Hp. by eapply Hdom, H1.
  - intros t' p. unfold trap_of. simpl. rewrite trap_of_insert.
    case_decide; [apply Hbf|]. intros Hp. by eapply Hdom, H2.
Qed.

Ltac norm_state :=
  cbv [with_files with_trapsByFile with_fileObjs with_nextFile with_traps
       with_nextTrap with_pending with_nextQuery with_log

       update_trap modify _bindTrapToFile emit];
  simpl.

Lemma preserves_ensureBindingToFile trap path :
  preserves wf (_ensureBindingToFile trap path).
Proof.
  intros s Hs. unfold _ensureBindingToFile, mbind, M_bind, get_state.
  case_bool_decide as Hb; [done|]. norm_state.
  apply wf_write_trap; [done|..]; simpl.
  - intros p Hp. rewrite lookup_insert. case_decide; [by eexists|done].
  - intros p l. rewrite lookup_insert. case_decide.
    + intros [= <-]. apply NoDup_set_add.
      destruct (trapsByFile s !! path) eqn:E; simpl; [|constructor].
      by eapply (wf_nodup _ Hs).
    + apply (wf_nodup _ Hs).
  - intros p Hp. rewrite lookup_insert. case_decide; [by eexists|].
    by eapply (wf_bindings _ Hs).
  - intros p Hp. rewrite lookup_insert. case_decide; [by eexists|].
    apply elem_of_union in Hp as [Hp|Hp]; [by apply elem_of_singleton in Hp|].
    by eapply (wf_bound _ Hs).
Qed.

Lemma wf_same_index s t T' :
  wf s →
  (∀ p, is_Some (bindings T' !! p) → is_Some (trapsByFile s !! p)) →
  (∀ p, p ∈ boundFiles T' → is_Some (trapsByFile s !! p)) →
  wf (with_traps <[t := T']> s).
Proof.
  intros Hs Hb Hbf. apply (wf_write_trap s t T' (trapsByFile s)); try done.
  apply (wf_nodup _ Hs).
Qed.

Lemma preserves_set_triggerOnChange trap path :
  preserves wf (set_triggerOnChange trap path).
Proof.
  intros s Hs. unfold set_triggerOnChange, update_trap, modify. simpl.
  apply wf_same_index; [done|..]; simpl.
  - intros p. apply (wf_bindings _ Hs).
  - intros p. apply (wf_bound _ Hs).
Qed.

Lemma preserves_set_binding trap path f :
  preserves wf (set_binding trap path f).
Proof.
  intros s Hs. unfold set_binding, update_trap, modify. simpl.
  apply wf_same_index; [done|..]; simpl.
  - intros p Hp. apply (wf_bindings _ Hs trap).
    rewrite lookup_alter in Hp. case_decide; [subst|done].
    by apply fmap_is_Some in Hp.
  - intros p. apply (wf_bound _ Hs).
Qed.

Lemma preserves_getFileBindings trap path :
  preserves wf (_getFileBindings trap path).
Proof.
  intros s Hs. unfold _getFileBindings, mbind, M_bind, get_state.
  destruct (bindings (trap_of s trap) !! path) eqn:E; [done|].
  unfold _ensureBindingToFile, mbind, M_bind, get_state. norm_state.
  case_bool_decide as Hb; unfold trap_of in Hb; simpl in Hb;
    rewrite traps_insert_eq in Hb; simpl in Hb; norm_state.
  - apply wf_same_index; [done|..]; simpl.
    + intros p. rewrite lookup_insert. case_decide; [subst|apply (wf_bindings _ Hs)].
      intros _. by eapply (wf_bound _ Hs).
    + intros p. apply (wf_bound _ Hs).
  - unfold trap_of. simpl. rewrite traps_insert_eq, insert_insert_eq. simpl.
    apply wf_write_trap; [done|..]; simpl.
    + intros p Hp. rewrite lookup_insert. case_decide; [by eexists|done].
    + intros p l. rewrite lookup_insert. case_decide.
      * intros [= <-]. apply NoDup_set_add.
        destruct (trapsByFile s !! path) eqn:E'; simpl; [|constructor].
        by eapply (wf_nodup _ Hs).
      * apply (wf_nodup _ Hs).
    + intros p Hp. rewrite lookup_insert. case_decide; [by eexists|].
      rewrite lookup_insert_ne in Hp by done. by eapply (wf_bindings _ Hs).
    + intros p Hp. rewrite lookup_insert. case_decide; [by eexists|].
      apply elem_of_union in Hp as [Hp|Hp]; [by apply elem_of_singleton in Hp|].
      by eapply (wf_bound _ Hs).
Qed.

Lemma preserves_createTrap : preserves wf createTrap.
Proof.
  intros s [H1 H2 H3 H4 H5 H6]. unfold createTrap.
  constructor; simpl; try assumption.
  - intros t p. unfold trap_of. simpl. rewrite trap_of_insert.
    case_decide; [|apply H1]. simpl. rewrite lookup_empty. by intros [? ?].
  - intros t p. unfold trap_of. simpl. rewrite trap_of_insert.
    case_decide; [|apply H2]. simpl. set_solver.
Qed.

Lemma preserves_rehydrateTrap deps isValid :
  preserves wf (rehydrateTrap deps isValid).
Proof.
  unfold rehydrateTrap. destruct isValid; [|apply preserves_ret].
  apply preserves_bind; [apply preserves_createTrap|]. intros trap.
  apply preserves_bind; [|intros ?; apply preserves_ret].
  apply preserves_for_of. intros [p b] s Hs.
  unfold mbind, M_bind. norm_state.
  apply wf_write_trap; [done|..]; simpl.
  - intros p' Hp. rewrite lookup_insert. case_decide; [by eexists|done].
  - intros p' l. rewrite lookup_insert. case_decide.
    + intros [= <-]. apply NoDup_set_add.
      destruct (trapsByFile s !! p) eqn:E'; simpl; [|constructor].
      by eapply (wf_nodup _ Hs).
    + apply (wf_nodup _ Hs).
  - intros p' Hp. rewrite lookup_insert. case_decide; [by eexists|].
    rewrite lookup_insert_ne in Hp by done. by eapply (wf_bindings _ Hs).
  - intros p' Hp. rewrite lookup_insert. case_decide; [by eexists|].
    by eapply (wf_bound _ Hs).
Qed.

Lemma preserves_evaluateFileMethod m path k :
  preserves wf (_evaluateFileMethod m path k).
Proof.
  assert (∀ s file, wf s → (file < nextFile s)%nat →
            file_path (fileObjs s !!! file) = path →
            wf (with_nextQuery (S (nextQuery s))
                 (with_pending <[nextQuery s := mkQuery file path m k]> s))) as Hadd.
  { intros s file [H1 H2 H3 H4 H5 H6] Hlt Hpath.
    constructor; simpl; try assumption.
    - intros q qr. rewrite lookup_insert. case_decide.
      + intros [= <-]. simpl. subst. repeat split; [lia|done].
      + intros Hq. apply H5 in Hq as (? & ? & ?). repeat split; [lia|done..].
    - intros q o Hq. apply H6 in Hq as [? ?]. split; [lia|].
      rewrite lookup_insert_ne by lia. done. }
  intros s Hs. unfold _evaluateFileMethod, mbind, M_bind, get_state, modify.
  destruct (files s !! path) as [[file|]|] eqn:E; simpl.
  - destruct (wf_files _ Hs _ _ E) as [? ?]. by apply Hadd.
  - apply (Hadd (_createFile path None s).1 (nextFile s)).
    + by apply preserves_createFile.
    + simpl. lia.
    + simpl. by rewrite lookup_total_insert_eq.
  - apply (Hadd (_createFile path None s).1 (nextFile s)).
    + by apply preserves_createFile.
    + simpl. lia.
    + simpl. by rewrite lookup_total_insert_eq.
Qed.

Lemma preserves_trap_call trap m path k : preserves wf (trap_call trap m path k).
Proof.
  unfold trap_call.
  apply preserves_bind; [apply preserves_ensureBindingToFile|]. intros ?.
  apply preserves_bind; [apply preserves_set_triggerOnChange|]. intros ?.
  apply preserves_evaluateFileMethod.
Qed.

Lemma preserves_run_then k path v : preserves wf (run_then k path v).
Proof.
  assert (∀ t h, preserves wf (then_textHash t path h)) as Hh.
  { intros t h. apply preserves_bind; [apply preserves_getFileBindings|]. intros b.
    case_bool_decide; [apply preserves_set_binding|apply preserves_ret]. }
  destruct k, v; simpl; try exact (preserves_ret _ _).
  - apply preserves_bind; [apply preserves_getFileBindings|]. intros b'.
    case_bool_decide; [apply preserves_set_binding|apply preserves_ret].
  - apply preserves_bind; [apply preserves_getFileBindings|]. intros b'.
    apply preserves_bind; [apply preserves_set_binding|]. intros ?.
    case_bool_decide; [apply preserves_set_binding|apply preserves_ret].
  - apply preserves_bind.
    + apply preserves_bind; [apply preserves_getFileBindings|]. intros ?.
      apply preserves_bind; [apply preserves_set_binding|]. intros ?.
      apply preserves_set_binding.
    + intros ?. destruct hash; [apply Hh|apply preserves_ret].
  - apply preserves_void, preserves_trap_call.
  - apply preserves_void, preserves_trap_call.
  - apply preserves_void, preserves_trap_call.
Qed.

Lemma preserves_settle q o : preserves wf (settle q o).
Proof.
  intros s Hs. unfold settle, mbind at 1, M_bind at 1, get_state.
  destruct (pending s !! q) as [[file path m k]|] eqn:E; [|done].
  destruct (resolves_with m o); [|done].
  assert (wf (with_pending (delete q) s)) as Hs1.
  { destruct Hs as [H1 H2 H3 H4 H5 H6]. constructor; simpl; try assumption.
    - intros q' qr Hq. apply lookup_delete_Some in Hq as [_ Hq]. by apply H5.
    - intros q' o' Hin. apply H6 in Hin as [? Hn]. split; [done|].
      by apply lookup_delete_None; right. }
  unfold mbind, M_bind, modify, _blockStaleFilesFromResolving, get_state. simpl.
  case_bool_decide; [done|]. simpl.
  assert (wf (with_log (λ l, l ++ [Settled q o]) (with_pending (delete q) s))) as Hs2.
  { destruct Hs1 as [H1 H2 H3 H4 H5 H6]. constructor; simpl in *; try assumption.
    intros q' o' Hin. apply elem_of_app in Hin as [Hin|Hin]; [by eapply H6|].
    apply list_elem_of_singleton in Hin. injection Hin as -> ->.
    split; [|apply lookup_delete_eq]. by apply (wf_pending _ Hs) in E as [? _]. }
  destruct o; [|done]. by apply preserves_run_then.
Qed.

Lemma preserves_step l : preserves wf (step_m l).
Proof.
  destruct l as [p st|p st|p|m p| |deps v|t m p|q o]; simpl.
  - apply preserves_handleFileAdded.
  - apply preserves_handleFileChanged.
  - apply preserves_handleFileRemoved.
  - apply preserves_void, preserves_evaluateFileMethod.
  - apply preserves_void, preserves_createTrap.
  - apply preserves_void, preserves_rehydrateTrap.
  - apply preserves_bind; [apply preserves_get_state|]. intros s0.
    case_bool_decide; [|apply preserves_ret].
    destruct m;
      [ exact (preserves_void _ _ (preserves_evaluateFileMethod _ _ _))
      | exact (preserves_void _ _ (preserves_trap_call _ _ _ _)).. ].
  - apply preserves_settle.
Qed.

Lemma wf_init : wf init.
Proof.
  constructor.
  - intros t p. rewrite trap_of_init. simpl. rewrite lookup_empty. by intros [? [=]].
  - intros t p. rewrite trap_of_init. simpl. set_solver.
  - intros p l. simpl. rewrite lookup_empty. by intros [=].
  - intros p f. simpl. rewrite lookup_empty. by intros [=].
  - intros q qr. simpl. rewrite lookup_empty. by intros [=].
  - intros q o H. inversion H.
Qed.

Lemma wf_run s ls : wf s → wf (run s ls).
Proof.
  revert s. induction ls as [|l ls IH]; intros s Hs; simpl; [done|].
  apply IH. by apply preserves_step.
Qed.

Lemma reachable_wf s : reachable s → wf s.
Proof. intros [ls ->]. apply wf_run, wf_init. Qed.

Lemma reachable_run s ls : reachable s → reachable (run s ls).
Proof.
  intros [ls0 ->]. exists (ls0 ++ ls). unfold run. by rewrite foldl_app.
Qed.

(** **** What [_triggerTraps] does *)

Lemma elem_of_keys {V} (m : gmap string V) p : p ∈ keys m ↔ is_Some (m !! p).
Proof.
  unfold keys. rewrite list_elem_of_fmap. split.
  - intros ([k v] & -> & Hkv). apply elem_of_map_to_list in Hkv. by eexists.
  - intros [v Hv]. exists (p, v). split; [done|]. by apply elem_of_map_to_list.
Qed.

Lemma state_eta s : set_index_log (trapsByFile s) (log s) s = s.
Proof. by destruct s. Qed.

Lemma detach_from_eq trap path set s :
  trapsByFile s !! path = Some set →
  detach_from trap path s
  = (set_index_log (<[path := set_delete trap set]> (trapsByFile s))
       (log s ++ [Deleted path trap]) s, Ok tt).
Proof. intros H. unfold detach_from, mbind, M_bind, get_state. by rewrite H. Qed.

(** The inner loop: one trap is deleted from the set of every key. *)
Lemma detach_keys_spec trap ks s :
  (∀ p, p ∈ ks → is_Some (trapsByFile s !! p)) →
  ∃ tbf',
    for_of ks (detach_from trap) s
    = (set_index_log tbf' (log s ++ map (λ p, Deleted p trap) ks) s, Ok tt) ∧
    ∀ p, tbf' !! p
         = (if decide (p ∈ ks) then set_delete trap else id) <$> trapsByFile s !! p.
Proof.
  revert s. induction ks as [|k ks IH]; intros s Hks.
  - exists (trapsByFile s). simpl. rewrite app_nil_r, state_eta. split; [done|].
    intros p. destruct (decide (p ∈ [])) as [H|_]; [by apply not_elem_of_nil in H|].
    by rewrite option_fmap_id.
  - destruct (Hks k) as [set Hset]; [apply elem_of_cons; auto|].
    cbn [for_of]. unfold mbind, M_bind. rewrite (detach_from_eq _ _ _ _ Hset).
    destruct (IH (set_index_log (<[k := set_delete trap set]> (trapsByFile s))
                    (log s ++ [Deleted k trap]) s)) as (tbf' & Heq & Htbf).
    { intros p Hp. simpl. rewrite lookup_insert. case_decide; [by eexists|].
      apply Hks, elem_of_cons. auto. }
    rewrite Heq. exists tbf'. split.
    + unfold set_index_log. simpl. by rewrite <- app_assoc.
    + intros p. rewrite Htbf. simpl. rewrite lookup_insert.
      destruct (decide (k = p)) as [->|Hne].
      * rewrite Hset. simpl.
        destruct (decide (p ∈ p :: ks)) as [_|Hn]; [|by destruct Hn; left].
        f_equal. case_decide; [|done].
        unfold set_delete. rewrite list_filter_filter. apply list_filter_iff. tauto.
      * destruct (decide (p ∈ ks)) as [Hin|Hnin].
        -- destruct (decide (p ∈ k :: ks)) as [_|Hn]; [done|]. by destruct Hn; right.
        -- destruct (decide (p ∈ k :: ks)) as [Hn|_]; [|done].
           apply elem_of_cons in Hn as [->|?]; done.
Qed.

Lemma detached_nil s p l : detached s [] p l = l.
Proof.
  unfold detached. induction l as [|x l IH]; [done|].
  rewrite filter_cons_True; [by rewrite IH|].
  intros [H _]. by apply not_elem_of_nil in H.
Qed.

Lemma elem_of_detached s batch p l t :
  t ∈ detached s batch p l
  ↔ t ∈ l ∧ ¬ (t ∈ batch ∧ is_Some (bindings (trap_of s t) !! p)).
Proof. unfold detached. rewrite list_elem_of_filter. tauto. Qed.

(** The first loop of [_triggerTraps]. *)
Lemma detach_all_spec ts s :
  (∀ t p, t ∈ ts → is_Some (bindings (trap_of s t) !! p)
           → is_Some (trapsByFile s !! p)) →
  ∃ tbf' dels,
    for_of ts detach s = (set_index_log tbf' (log s ++ dels) s, Ok tt) ∧
    (∀ p, tbf' !! p = detached s ts p <$> trapsByFile s !! p) ∧
    Forall is_Deleted dels.
Proof.
  revert s. induction ts as [|t ts IH]; intros s Hts.
  - exists (trapsByFile s), []. simpl. rewrite app_nil_r, state_eta. split; [done|].
    split; [|constructor]. intros p.
    destruct (trapsByFile s !! p); simpl; [|done]. by rewrite detached_nil.
  - cbn [for_of]. unfold mbind, M_bind, detach at 1. unfold mbind, M_bind, get_state.
    destruct (detach_keys_spec t (keys (bindings (trap_of s t))) s)
      as (tbf1 & Heq1 & Htbf1).
    { intros p Hp. apply elem_of_keys in Hp. eapply Hts; [|done].
      apply elem_of_cons. auto. }
    rewrite Heq1.
    destruct (IH (set_index_log tbf1
                    (log s ++ map (λ p, Deleted p t) (keys (bindings (trap_of s t))))
                    s)) as (tbf' & dels & Heq & Htbf & Hdels).
    { intros t' p Ht' Hp. simpl. rewrite Htbf1. apply fmap_is_Some.
      eapply Hts; [|done]. apply elem_of_cons. auto. }
    rewrite Heq.
    exists tbf', (map (λ p, Deleted p t) (keys (bindings (trap_of s t))) ++ dels).
    split; [|split].
    + unfold set_index_log. simpl. by rewrite <- app_assoc.
    + intros p. rewrite Htbf. simpl. rewrite Htbf1.
      destruct (trapsByFile s !! p) as [l|]; simpl; [|done]. f_equal.
      unfold detached, trap_of. simpl.
      destruct (decide (p ∈ keys (bindings (traps s !!! t)))) as [Hin|Hnin].
      * unfold set_delete. rewrite list_filter_filter. apply list_filter_iff.
        intros x. rewrite elem_of_cons. apply elem_of_keys in Hin. split.
        -- intros [H1 H2] [[->|Hx] Hb]; [done|]. by apply H1.
        -- intros H. split.
           ++ intros [Hx Hb]. apply H. auto.
           ++ intros ->. apply H. auto.
      * simpl. apply list_filter_iff. intros x. rewrite elem_of_cons.
        rewrite elem_of_keys in Hnin. split.
        -- intros H1 [[->|Hx] Hb]; [done|]. by apply H1.
        -- intros H [Hx Hb]. apply H. auto.
    + apply Forall_app. split; [|done]. apply Forall_forall.
      intros o Ho. apply list_elem_of_fmap in Ho as (p & -> & _). exact I.
Qed.

Lemma emit_all_spec {A} (xs : list A) (f : A → Obs) s :
  for_of xs (λ x, emit (f x)) s = (with_log (λ l, l ++ map f xs) s, Ok tt).
Proof.
  revert s. induction xs as [|x xs IH]; intros s; simpl.
  - unfold with_log. rewrite app_nil_r. by destruct s.
  - unfold mbind, M_bind, emit at 1, modify. rewrite IH.
    unfold with_log. simpl. by rewrite <- app_assoc.
Qed.

Lemma triggerTraps_spec batch path cause s :
  (∀ t p, t ∈ batch → is_Some (bindings (trap_of s t) !! p)
           → is_Some (trapsByFile s !! p)) →
  ∃ tbf' dels,
    _triggerTraps batch path cause s
    = (set_index_log tbf'
         (log s ++ dels ++ map (λ t, Triggered t path cause) (rev batch)) s,
       Ok tt) ∧
    (∀ p, tbf' !! p = detached s batch p <$> trapsByFile s !! p) ∧
    Forall is_Deleted dels.
Proof.
  intros Hb. unfold _triggerTraps. case_bool_decide as Hlen.
  - apply length_zero_iff_nil in Hlen as ->. exists (trapsByFile s), [].
    simpl. rewrite app_nil_r, state_eta. split; [done|]. split; [|constructor].
    intros p. destruct (trapsByFile s !! p); simpl; [|done]. by rewrite detached_nil.
  - destruct (detach_all_spec (rev batch) s) as (tbf' & dels & Hrun & Htbf & Hdels).
    { intros t p Ht. apply Hb. by apply elem_of_rev. }
    exists tbf', dels. unfold mbind, M_bind. rewrite Hrun, emit_all_spec.
    split; [|split; [|done]].
    + unfold with_log, set_index_log. simpl. by rewrite <- app_assoc.
    + intros p. rewrite Htbf. destruct (trapsByFile s !! p); simpl; [|done].
      f_equal. unfold detached. apply list_filter_iff. intros x.
      by rewrite elem_of_rev.
Qed.

(** **** What the handlers trigger *)

Lemma for_of_push_pure (ts : list nat) test (f : nat → bool) s :
  (∀ t, t ∈ ts → test t s = (s, Ok (f t))) →
  for_of_push ts test s = (s, Ok (filter (λ t, f t = true) ts)).
Proof.
  induction ts as [|t ts IH]; intros Hf; [done|].
  cbn [for_of_push]. unfold mbind, M_bind.
  rewrite Hf by apply list_elem_of_here.
  rewrite IH by (intros t' Ht'; by apply Hf, list_elem_of_further).
  simpl. destruct (f t) eqn:E.
  - by rewrite filter_cons_True.
  - rewrite filter_cons_False; [done|]. by rewrite E.
Qed.

(** A handler's loop and [_triggerTraps], when no test throws: the batch is
    the traps of the path that pass the test, in the order of the set. *)
Lemma with_traps_of_spec path test (f : nat → bool) cause s :
  (∀ t, t ∈ default [] (trapsByFile s !! path) → test t s = (s, Ok (f t))) →
  (∀ t p, is_Some (bindings (trap_of s t) !! p) → is_Some (trapsByFile s !! p)) →
  let batch := filter (λ t, f t = true) (default [] (trapsByFile s !! path)) in
  ∃ tbf' dels,
    with_traps_of path test cause s
    = (set_index_log tbf'
         (log s ++ dels ++ map (λ t, Triggered t path cause) (rev batch)) s,
       Ok tt) ∧
    (∀ p, tbf' !! p = detached s batch p <$> trapsByFile s !! p) ∧
    Forall is_Deleted dels.
Proof.
  intros Hf Hwf batch.
  assert (∃ tbf' dels,
    (s, Ok tt : Res unit)
    = (set_index_log tbf' (log s ++ dels ++ map (λ t, Triggered t path cause) (rev [])) s,
       Ok tt) ∧
    (∀ p, tbf' !! p = detached s [] p <$> trapsByFile s !! p) ∧
    Forall is_Deleted dels) as Hnone.
  { exists (trapsByFile s), []. simpl. rewrite app_nil_r, state_eta.
    split; [done|]. split; [|constructor]. intros p.
    destruct (trapsByFile s !! p); simpl; [|done]. by rewrite detached_nil. }
  unfold with_traps_of, mbind at 1, M_bind at 1, get_state.
  subst batch. destruct (trapsByFile s !! path) as [l|] eqn:E; simpl in *; [|done].
  case_bool_decide as Hl.
  - unfold mbind, M_bind. rewrite (for_of_push_pure _ _ f) by done.
    apply triggerTraps_spec. intros t p _. apply Hwf.
  - assert (l = []) as -> by (by destruct l; [|destruct Hl]). done.
Qed.

Lemma handleFileChanged_eq path stat s :
  _handleFileChanged path stat s
  = with_traps_of path (changed_test path) changed
      (_createFile path stat (_removeFile path s).1).1.
Proof. reflexivity. Qed.

Lemma handleFileChanged_spec path stat s :
  wf s →
  fired s (_createFile path stat (_removeFile path s).1).1
    (changed_rule s path) path changed (_handleFileChanged path stat s).
Proof.
  intros Hs. rewrite handleFileChanged_eq.
  apply (with_traps_of_spec path (changed_test path)
           (changed_rule (_createFile path stat (_removeFile path s).1).1 path)
           changed (_createFile path stat (_removeFile path s).1).1); [done|].
  apply (wf_bindings _ Hs).
Qed.

Lemma handleFileAdded_eq path stat s :
  _handleFileAdded path stat s
  = with_traps_of path (added_test path) added
      (match files s !! path with
       | Some (Some _) => s
       | _ => (_createFile path stat s).1
       end).
Proof.
  unfold _handleFileAdded, mbind at 1, M_bind at 1, get_state.
  unfold mbind at 1, M_bind at 1. by destruct (files s !! path) as [[file|]|].
Qed.

Lemma handleFileAdded_spec path stat s :
  wf s →
  fired s (match files s !! path with
           | Some (Some _) => s
           | _ => (_createFile path stat s).1
           end)
    (added_rule s path) path added (_handleFileAdded path stat s).
Proof.
  intros Hs. rewrite handleFileAdded_eq.
  destruct (files s !! path) as [[file|]|] eqn:E.
  - apply (with_traps_of_spec path (added_test path) (added_rule s path)); [done|].
    apply (wf_bindings _ Hs).
  - apply (with_traps_of_spec path (added_test path)
             (added_rule (_createFile path stat s).1 path)
             added (_createFile path stat s).1); [done|apply (wf_bindings _ Hs)].
  - apply (with_traps_of_spec path (added_test path)
             (added_rule (_createFile path stat s).1 path)
             added (_createFile path stat s).1); [done|apply (wf_bindings _ Hs)].
Qed.

Lemma handleFileRemoved_eq path s :
  _handleFileRemoved path s
  = with_traps_of path (removed_test path) removed (removed_file_state path s).
Proof. reflexivity. Qed.

Lemma handleFileRemoved_spec path s :
  wf s →
  (∀ t, t ∈ default [] (trapsByFile s !! path)
        → is_Some (bindings (trap_of s t) !! path)) →
  fired s (removed_file_state path s)
    (removed_rule s path) path removed (_handleFileRemoved path s).
Proof.
  intros Hs Hall. rewrite handleFileRemoved_eq.
  apply (with_traps_of_spec path (removed_test path)
              (removed_rule (removed_file_state path s) path)
              removed (removed_file_state path s)).
  - intros t Ht. simpl in Ht. apply Hall in Ht as [b Hb].
    unfold removed_test, removed_rule, mbind, M_bind, get_state.
    unfold trap_of in *. simpl. by rewrite Hb.
  - apply (wf_bindings _ Hs).
Qed.

(** The removed handler throws as soon as its loop meets a trap without an
    entry for the path; nothing is triggered. *)
Lemma for_of_push_removed_throws path ts s :
  (∃ t, t ∈ ts ∧ bindings (trap_of s t) !! path = None) →
  for_of_push ts (removed_test path) s
  = (s, Throw (TypeError "Cannot read property 'isFile' of undefined")).
Proof.
  induction ts as [|t ts IH]; intros (t' & Ht' & Hnone).
  - by apply not_elem_of_nil in Ht'.
  - cbn [for_of_push]. unfold mbind at 1, M_bind at 1.
    unfold removed_test at 1, mbind at 1, M_bind at 1, get_state.
    destruct (bindings (trap_of s t) !! path) as [b|] eqn:E; [|done].
    simpl. unfold mbind, M_bind. rewrite IH; [done|].
    apply elem_of_cons in Ht' as [->|Ht']; [congruence|eauto].
Qed.

Lemma handleFileRemoved_throws path s :
  (∃ t, t ∈ default [] (trapsByFile s !! path)
        ∧ bindings (trap_of s t) !! path = None) →
  _handleFileRemoved path s
  = (removed_file_state path s,
     Throw (TypeError "Cannot read property 'isFile' of undefined")).
Proof.
  intros (t & Ht & Hnone). rewrite handleFileRemoved_eq.
  unfold with_traps_of, mbind at 1, M_bind at 1, get_state.
  change (trapsByFile (removed_file_state path s)) with (trapsByFile s).
  destruct (trapsByFile s !! path) as [l|] eqn:E; simpl in Ht;
    [|by apply not_elem_of_nil in Ht].
  rewrite bool_decide_true by (intros ->; by apply not_elem_of_nil in Ht).
  unfold mbind, M_bind. rewrite for_of_push_removed_throws; [done|].
  exists t. split; [done|]. exact Hnone.
Qed.

Lemma not_Triggered_Deleted dels t p c :
  Forall is_Deleted dels → Triggered t p c ∉ dels.
Proof.
  intros Hd Hin. rewrite Forall_forall in Hd. by apply Hd in Hin.
Qed.

(** What a handler that returned has said: the notifications of its batch,
    and before them deletions only. *)
Lemma fired_said s s1 rule path cause l :
  fired s s1 rule path cause (step s l) →
  (step s l).2 = Ok tt ∧
  ∀ t p c,
    Triggered t p c ∈ said s l
    ↔ p = path ∧ c = cause ∧ t ∈ default [] (trapsByFile s !! path) ∧ rule t = true.
Proof.
  intros (tbf' & dels & Heq & _ & Hdels). unfold said. rewrite Heq. simpl.
  split; [done|]. intros t p c. rewrite drop_app_length, elem_of_app. split.
  - intros [Hin|Hin]; [by apply not_Triggered_Deleted in Hin|].
    apply list_elem_of_fmap in Hin as (t' & [= -> -> ->] & Hin).
    apply elem_of_rev, list_elem_of_filter in Hin. tauto.
  - intros (-> & -> & Hin & Hr). right. apply list_elem_of_fmap. exists t.
    split; [done|]. apply elem_of_rev, list_elem_of_filter. tauto.
Qed.

(** C4: when [path] changes, a trap in the set of [path] is triggered if and
    only if it asked for [triggerOnChange] on [path] or its entry for [path]
    holds a [modifiedTime] or a [textHash]; a trap that holds an [isFile]
    alone is not. *)
Theorem onFileChanged_fires_iff s path stat t :
  reachable s →
  t ∈ default [] (trapsByFile s !! path) →
  (step s (onFileChanged path stat)).2 = Ok tt ∧
  ((∃ p c, Triggered t p c ∈ said s (onFileChanged path stat))
   ↔ path ∈ triggerOnChange (trap_of s t)
     ∨ ∃ b, bindings (trap_of s t) !! path = Some b
            ∧ (modifiedTime b ≠ None ∨ textHash b ≠ None)) ∧
  (path ∉ triggerOnChange (trap_of s t) →
   (∃ v, bindings (trap_of s t) !! path = Some (mkBindings (Some v) None None)) →
   ∀ p c, Triggered t p c ∉ said s (onFileChanged path stat)).
Proof.
  intros Hs Ht. apply reachable_wf in Hs.
  destruct (fired_said _ _ _ _ _ (onFileChanged path stat)
              (handleFileChanged_spec path stat s Hs)) as [Hok Hsaid].
  assert (changed_rule s path t = true
          ↔ path ∈ triggerOnChange (trap_of s t)
            ∨ ∃ b, bindings (trap_of s t) !! path = Some b
                   ∧ (modifiedTime b ≠ None ∨ textHash b ≠ None)) as Hrule.
  { unfold changed_rule. case_bool_decide as Htr; [split; auto|].
    destruct (bindings (trap_of s t) !! path) as [b|].
    - rewrite orb_true_iff, !bool_decide_eq_true. split.
      + intros H. right. by exists b.
      + intros [?|(b' & [= <-] & H)]; [by destruct Htr|done].
    - split; [done|]. intros [?|(b' & [=] & _)]. by destruct Htr. }
  split; [done|]. split.
  - rewrite <- Hrule. split.
    + intros (p & c & Hin). apply Hsaid in Hin. tauto.
    + intros Hr. exists path, changed. apply Hsaid. tauto.
  - intros Htr (v & Hb) p c Hin. apply Hsaid in Hin as (_ & _ & _ & Hr).
    apply Hrule in Hr as [?|(b & Hb' & Hor)]; [done|].
    rewrite Hb in Hb'. injection Hb' as <-. simpl in Hor. by destruct Hor.
Qed.

(** The rule of [onFileAdded], for every trap in the set of the path. *)
Lemma onFileAdded_fires_iff s path stat t :
  reachable s →
  t ∈ default [] (trapsByFile s !! path) →
  (step s (onFileAdded path stat)).2 = Ok tt ∧
  ((∃ p c, Triggered t p c ∈ said s (onFileAdded path stat))
   ↔ ∃ b, bindings (trap_of s t) !! path = Some b ∧ isFile b = Some false).
Proof.
  intros Hs Ht. apply reachable_wf in Hs.
  destruct (fired_said _ _ _ _ _ (onFileAdded path stat)
              (handleFileAdded_spec path stat s Hs)) as [Hok Hsaid].
  split; [done|]. split.
  - intros (p & c & Hin). apply Hsaid in Hin as (_ & _ & _ & Hr).
    unfold added_rule in Hr. destruct (bindings (trap_of s t) !! path) as [b|]; [|done].
    exists b. split; [done|]. by apply bool_decide_eq_true in Hr.
  - intros (b & Hb & Hf). exists path, added. apply Hsaid.
    repeat split; [done|]. unfold added_rule. rewrite Hb.
    by apply bool_decide_eq_true.
Qed.

(** The rule of [onFileRemoved], when every trap in the set of the path has
    an entry for the path. *)
Lemma onFileRemoved_fires_iff_when_recorded s path t :
  reachable s →
  (∀ t', t' ∈ default [] (trapsByFile s !! path)
         → is_Some (bindings (trap_of s t') !! path)) →
  t ∈ default [] (trapsByFile s !! path) →
  (step s (onFileRemoved path)).2 = Ok tt ∧
  ((∃ p c, Triggered t p c ∈ said s (onFileRemoved path))
   ↔ ∃ b, bindings (trap_of s t) !! path = Some b ∧ isFile b = Some true).
Proof.
  intros Hs Hall Ht. apply reachable_wf in Hs.
  destruct (fired_said _ _ _ _ _ (onFileRemoved path)
              (handleFileRemoved_spec path s Hs Hall)) as [Hok Hsaid].
  split; [done|]. split.
  - intros (p & c & Hin). apply Hsaid in Hin as (_ & _ & _ & Hr).
    unfold removed_rule in Hr. destruct (bindings (trap_of s t) !! path) as [b|]; [|done].
    exists b. split; [done|]. by apply bool_decide_eq_true in Hr.
  - intros (b & Hb & Hf). exists path, removed. apply Hsaid.
    repeat split; [done|]. unfold removed_rule. rewrite Hb.
    by apply bool_decide_eq_true.
Qed.

(** The order in which a handler that returned has worked: it has deleted
    every trap of its batch from the set of every path the trap has an
    entry for, and only then notified, last bound first.  The sets keep the
    order in which the traps were added. *)
Lemma fired_detach_then_notify s s1 rule path cause l :
  fired s s1 rule path cause (step s l) →
  let batch := filter (λ t, rule t = true) (default [] (trapsByFile s !! path)) in
  ∃ dels,
    said s l = dels ++ map (λ t, Triggered t path cause) (rev batch) ∧
    Forall is_Deleted dels ∧
    ∀ t p, t ∈ batch → is_Some (bindings (trap_of s t) !! p) →
           t ∉ default [] (trapsByFile (step s l).1 !! p).
Proof.
  intros (tbf' & dels & Heq & Htbf & Hdels) batch. exists dels.
  unfold said. rewrite Heq. simpl. rewrite drop_app_length.
  split; [done|]. split; [done|]. intros t p Ht Hb. rewrite Htbf.
  destruct (trapsByFile s !! p) as [l'|]; simpl; [|apply not_elem_of_nil].
  rewrite elem_of_detached. intros [_ Hn]. by apply Hn.
Qed.

Lemma onFileChanged_detach_then_notify s path stat :
  reachable s →
  let batch := filter (λ t, changed_rule s path t = true)
                 (default [] (trapsByFile s !! path)) in
  ∃ dels,
    said s (onFileChanged path stat)
    = dels ++ map (λ t, Triggered t path changed) (rev batch) ∧
    Forall is_Deleted dels ∧
    ∀ t p, t ∈ batch → is_Some (bindings (trap_of s t) !! p) →
           t ∉ default [] (trapsByFile (step s (onFileChanged path stat)).1 !! p).
Proof.
  intros Hs. apply reachable_wf in Hs.
  apply (fired_detach_then_notify _ _ _ _ _ (onFileChanged path stat)
           (handleFileChanged_spec path stat s Hs)).
Qed.

Lemma onFileAdded_detach_then_notify s path stat :
  reachable s →
  let batch := filter (λ t, added_rule s path t = true)
                 (default [] (trapsByFile s !! path)) in
  ∃ dels,
    said s (onFileAdded path stat)
    = dels ++ map (λ t, Triggered t path added) (rev batch) ∧
    Forall is_Deleted dels ∧
    ∀ t p, t ∈ batch → is_Some (bindings (trap_of s t) !! p) →
           t ∉ default [] (trapsByFile (step s (onFileAdded path stat)).1 !! p).
Proof.
  intros Hs. apply reachable_wf in Hs.
  apply (fired_detach_then_notify _ _ _ _ _ (onFileAdded path stat)
           (handleFileAdded_spec path stat s Hs)).
Qed.

(** **** A trap with an entry for every path it is bound to fires once *)

(** What an ingestion event does, whether its handler returns or throws:
    the trap objects stay as they are, a batch of traps of the path is
    detached and notified. *)
Lemma event_effect s l :
  wf s → is_event l →
  ∃ path cause batch dels,
    trap_side (step s l).1 = trap_side s ∧
    log (step s l).1
    = log s ++ dels ++ map (λ t, Triggered t path cause) (rev batch) ∧
    Forall is_Deleted dels ∧
    NoDup batch ∧
    (∀ t, t ∈ batch → t ∈ default [] (trapsByFile s !! path)) ∧
    ∀ p, default [] (trapsByFile (step s l).1 !! p)
         = detached s batch p (default [] (trapsByFile s !! p)).
Proof.
  intros Hs Hl.
  assert (∀ s1 rule path cause,
    trap_side s1 = trap_side s →
    fired s s1 rule path cause (step s l) →
    ∃ path cause batch dels,
      trap_side (step s l).1 = trap_side s ∧
      log (step s l).1
      = log s ++ dels ++ map (λ t, Triggered t path cause) (rev batch) ∧
      Forall is_Deleted dels ∧
      NoDup batch ∧
      (∀ t, t ∈ batch → t ∈ default [] (trapsByFile s !! path)) ∧
      ∀ p, default [] (trapsByFile (step s l).1 !! p)
           = detached s batch p (default [] (trapsByFile s !! p))) as Hfired.
  { intros s1 rule path cause Hside (tbf' & dels & Heq & Htbf & Hdels).
    exists path, cause,
      (filter (λ t, rule t = true) (default [] (trapsByFile s !! path))), dels.
    rewrite Heq. simpl. repeat split; try done.
    - apply NoDup_filter. destruct (trapsByFile s !! path) as [l'|] eqn:E; simpl.
      + by apply (wf_nodup _ Hs) in E.
      + constructor.
    - intros t Ht. by apply list_elem_of_filter in Ht as [_ ?].
    - intros p. rewrite Htbf. by destruct (trapsByFile s !! p). }
  destruct l as [path stat|path stat|path| | | | | ]; try done.
  - eapply Hfired; [|apply (handleFileAdded_spec path stat s Hs)].
    by destruct (files s !! path) as [[?|]|].
  - eapply Hfired; [|apply (handleFileChanged_spec path stat s Hs)]. done.
  - destruct (decide (Forall (λ t, is_Some (bindings (trap_of s t) !! path))
                        (default [] (trapsByFile s !! path)))) as [Hall|Hnot].
    + rewrite Forall_forall in Hall.
      eapply Hfired; [|apply (handleFileRemoved_spec path s Hs Hall)]. done.
    + apply not_Forall_Exists, Exists_exists in Hnot as (t & Ht & Hnone);
        [|intros t; apply _].
      apply eq_None_not_Some in Hnone.
      exists path, removed, [], []. unfold step, step_m.
      rewrite handleFileRemoved_throws by eauto. simpl.
      rewrite app_nil_r. repeat split; try done; [constructor|..].
      * intros t' Ht'. by apply not_elem_of_nil in Ht'.
      * intros p. by rewrite detached_nil.
Qed.

Lemma notifications_app t xs ys :
  notifications t (xs ++ ys) = notifications t xs ++ notifications t ys.
Proof. apply filter_app. Qed.

Lemma notifications_Deleted t dels :
  Forall is_Deleted dels → notifications t dels = [].
Proof.
  induction 1 as [|o dels Ho _ IH]; [done|].
  unfold notifications. rewrite filter_cons_False; [done|].
  by destruct o.
Qed.

Lemma notifications_batch t path cause batch :
  NoDup batch →
  length (notifications t (map (λ t', Triggered t' path cause) batch))
  = if decide (t ∈ batch) then 1 else 0.
Proof.
  induction 1 as [|x batch Hx Hnd IH]; simpl.
  - destruct (decide (t ∈ [])) as [H|_]; [by apply not_elem_of_nil in H|done].
  - unfold notifications in *. destruct (decide (x = t)) as [->|Hne].
    + rewrite filter_cons_True by (simpl; by apply bool_decide_eq_true).
      simpl. rewrite IH.
      destruct (decide (t ∈ batch)) as [H|_]; [done|].
      destruct (decide (t ∈ t :: batch)) as [_|H]; [done|].
      destruct H. apply list_elem_of_here.
    + rewrite filter_cons_False
        by (simpl; rewrite bool_decide_eq_true; congruence).
      rewrite IH. destruct (decide (t ∈ batch)) as [Hin|Hnin].
      * destruct (decide (t ∈ x :: batch)) as [_|H]; [done|].
        destruct H. by apply list_elem_of_further.
      * destruct (decide (t ∈ x :: batch)) as [H|_]; [|done].
        apply elem_of_cons in H as [->|?]; done.
Qed.

Lemma said_run s l ls :
  (∃ out, log (step s l).1 = log s ++ out) →
  (∃ rest, log (run (step s l).1 ls) = log (step s l).1 ++ rest) →
  drop (length (log s)) (log (run s (l :: ls)))
  = said s l ++ drop (length (log (step s l).1)) (log (run (step s l).1 ls)).
Proof.
  intros [out Hout] [rest Hrest]. unfold said. simpl.
  rewrite Hrest, Hout.
  rewrite (drop_app_length (log s ++ out) rest), (drop_app_length (log s) out).
  by rewrite <- app_assoc, drop_app_length.
Qed.

Lemma run_log_grows s ls :
  wf s → Forall is_event ls → ∃ rest, log (run s ls) = log s ++ rest.
Proof.
  intros Hs Hls. revert s Hs.
  induction Hls as [|l ls Hl _ IH]; intros s Hs; simpl.
  - exists []. by rewrite app_nil_r.
  - destruct (event_effect s l Hs Hl)
      as (path & cause & batch & dels & _ & Hlog & _).
    destruct (IH (step s l).1) as [rest Hrest]; [by apply preserves_step|].
    rewrite Hrest, Hlog, <- app_assoc. by eexists.
Qed.

(** A trap that is in no set is never notified again by ingestion events. *)
Lemma detached_never_notified s t ls :
  wf s → detached_everywhere s t → Forall is_event ls →
  notifications t (drop (length (log s)) (log (run s ls))) = [].
Proof.
  intros Hs Hgone Hls. revert s Hs Hgone.
  induction Hls as [|l ls Hl Hls IH]; intros s Hs Hgone.
  - simpl. by rewrite drop_all.
  - destruct (event_effect s l Hs Hl)
      as (path & cause & batch & dels & Hside & Hlog & Hdels & Hnd & Hsub & Htbf).
    pose proof (preserves_step l s Hs) as Hs'.
    rewrite said_run; [|by eexists|by apply run_log_grows].
    rewrite notifications_app, IH; [|done|].
    + rewrite app_nil_r. unfold said. rewrite Hlog, drop_app_length.
      rewrite notifications_app, (notifications_Deleted _ _ Hdels). simpl.
      apply length_zero_iff_nil.
      rewrite notifications_batch by (by apply NoDup_rev_stdpp).
      destruct (decide (t ∈ rev batch)) as [Hin|_]; [|done].
      rewrite elem_of_rev in Hin. by apply Hsub, Hgone in Hin.
    + intros p. rewrite Htbf.
      intros [Hin _]%elem_of_detached. by apply Hgone in Hin.
Qed.

(** What C2 asks for holds for a trap that has an entry for every path in
    whose set it is: whatever ingestion events follow, it is notified at
    most once. *)
Lemma recorded_trap_fires_at_most_once s t ls :
  reachable s → recorded_everywhere s t → Forall is_event ls →
  (length (notifications t (drop (length (log s)) (log (run s ls)))) ≤ 1)%nat.
Proof.
  intros Hs Hrec Hls. apply reachable_wf in Hs. revert s Hs Hrec.
  induction Hls as [|l ls Hl Hls IH]; intros s Hs Hrec.
  - simpl. rewrite drop_all. simpl. lia.
  - destruct (event_effect s l Hs Hl)
      as (path & cause & batch & dels & Hside & Hlog & Hdels & Hnd & Hsub & Htbf).
    pose proof (preserves_step l s Hs) as Hs'.
    assert (∀ t', trap_of (step s l).1 t' = trap_of s t') as Htrap.
    { intros t'. unfold trap_of. by injection Hside as -> _. }
    rewrite said_run; [|by eexists|by apply run_log_grows].
    rewrite notifications_app, length_app.
    set (rest := notifications t
                   (drop (length (log (step s l).1)) (log (run (step s l).1 ls)))).
    assert (detached_everywhere (step s l).1 t → rest = []) as Hrest0.
    { intros Hgone. by apply detached_never_notified. }
    assert (recorded_everywhere (step s l).1 t → (length rest ≤ 1)%nat) as Hrest1.
    { intros Hrec'. by apply IH. }
    clearbody rest. unfold said. rewrite Hlog, drop_app_length.
    rewrite notifications_app, (notifications_Deleted _ _ Hdels). simpl.
    rewrite notifications_batch by (by apply NoDup_rev_stdpp).
    destruct (decide (t ∈ rev batch)) as [Hin|Hnin].
    + rewrite elem_of_rev in Hin. rewrite Hrest0; [simpl; lia|].
      intros p. rewrite Htbf.
      intros [Hp Hn]%elem_of_detached. apply Hn. split; [done|]. by apply Hrec.
    + simpl. apply Hrest1.
      intros p. rewrite Htbf, Htrap.
      intros [Hp _]%elem_of_detached. by apply Hrec.
Qed.

(** **** Frames: what an operation does not touch *)

Ltac pres_step :=
  first
    [ apply preserves_ret
    | apply preserves_get_state
    | apply preserves_throw
    | apply preserves_void
    | apply preserves_for_of; intros ?
    | apply preserves_for_of_push; intros ?
    | apply preserves_bind; [|intros ?]
    | match goal with
      | |- preserves _ (match ?x with _ => _ end) => destruct x
      end ].

Ltac pres := repeat pres_step.

Section file_side_frame.
Variable x : gmap string (option nat) * gmap nat File * nat
             * gmap nat Query * nat * list Obs.
Let I := λ s, file_side s = x.

Lemma frame_ensureBindingToFile t p : preserves I (_ensureBindingToFile t p).
Proof. unfold _ensureBindingToFile. pres. Qed.
Lemma frame_getFileBindings t p : preserves I (_getFileBindings t p).
Proof. unfold _getFileBindings. pres; try apply frame_ensureBindingToFile. Qed.
Lemma frame_createTrap : preserves I createTrap.
Proof. by intros s Hs. Qed.
Lemma frame_rehydrateTrap deps v : preserves I (rehydrateTrap deps v).
Proof. unfold rehydrateTrap. pres; try apply frame_createTrap. Qed.
Lemma frame_then_isFile t p v : preserves I (then_isFile t p v).
Proof. unfold then_isFile. pres; try apply frame_getFileBindings. Qed.
Lemma frame_then_stat t p v : preserves I (then_stat t p v).
Proof. unfold then_stat. pres; try apply frame_getFileBindings. Qed.
Lemma frame_then_readModifiedTime t p v : preserves I (then_readModifiedTime t p v).
Proof. unfold then_readModifiedTime. pres; try apply frame_getFileBindings. Qed.
Lemma frame_then_textHash t p v : preserves I (then_textHash t p v).
Proof. unfold then_textHash. pres; try apply frame_getFileBindings. Qed.
End file_side_frame.

(** A property of the file side is kept by what leaves the file side. *)
Lemma preserves_file_side {A} (J : State → Prop) (m : M A) :
  (∀ s s', file_side s = file_side s' → J s → J s') →
  (∀ x, preserves (λ s, file_side s = x) m) →
  preserves J m.
Proof.
  intros HJ Hm s Hs. apply (HJ s); [|done]. symmetry. by apply (Hm (file_side s)).
Qed.

Section trap_side_frame.
Variable x : gmap nat Trap * nat.
Let I := λ s, trap_side s = x.

Lemma tframe_createFile p st : preserves I (_createFile p st).
Proof. by intros s Hs. Qed.
Lemma tframe_triggerTraps batch p c : preserves I (_triggerTraps batch p c).
Proof. unfold _triggerTraps, detach, detach_from. pres. Qed.
Lemma tframe_removed_test p t : preserves I (removed_test p t).
Proof. apply preserves_removed_test. Qed.

Ltac tframe :=
  pres;
  try first [ apply tframe_createFile | apply tframe_triggerTraps
            | apply tframe_removed_test ].

Lemma tframe_handleFileAdded p st : preserves I (_handleFileAdded p st).
Proof. unfold _handleFileAdded. tframe. Qed.
Lemma tframe_handleFileChanged p st : preserves I (_handleFileChanged p st).
Proof. unfold _handleFileChanged. tframe. Qed.
Lemma tframe_handleFileRemoved p : preserves I (_handleFileRemoved p).
Proof. unfold _handleFileRemoved. tframe. Qed.
Lemma tframe_evaluateFileMethod m p k : preserves I (_evaluateFileMethod m p k).
Proof. unfold _evaluateFileMethod. tframe. Qed.
End trap_side_frame.

Lemma preserves_trap_side {A} (J : State → Prop) (m : M A) :
  (∀ s s', trap_side s = trap_side s' → J s → J s') →
  (∀ x, preserves (λ s, trap_side s = x) m) →
  preserves J m.
Proof.
  intros HJ Hm s Hs. apply (HJ s); [|done]. symmetry. by apply (Hm (trap_side s)).
Qed.

(** **** The staleness barrier *)

Section barrier.
Variables (q : nat) (qr : Query).
Let K := suppressed q qr.

Lemma K_file_side s s' : file_side s = file_side s' → K s → K s'.
Proof.
  unfold file_side, K, suppressed. intros [= Hf Ho Hn Hp Hq Hl].
  by rewrite Hf, Ho, Hn, Hp, Hq, Hl.
Qed.

Lemma K_createFile p st : preserves K (_createFile p st).
Proof.
  intros s (Hq & Hp & Hlt & Hpath & Hfile & Hlog). unfold _createFile.
  repeat split; simpl; try done.
  - lia.
  - rewrite lookup_total_insert_ne by lia. done.
  - rewrite lookup_insert. case_decide; [|done]. intros [= Heq]. lia.
Qed.

Lemma K_removeFile p : preserves K (_removeFile p).
Proof.
  intros s (Hq & Hp & Hlt & Hpath & Hfile & Hlog). unfold _removeFile, modify.
  repeat split; simpl; try done.
  rewrite lookup_insert. by case_decide.
Qed.

Lemma K_setIsFile f b : preserves K (setIsFile f b).
Proof.
  intros s (Hq & Hp & Hlt & Hpath & Hfile & Hlog). unfold setIsFile, modify.
  repeat split; simpl; try done. by rewrite file_path_setIsFile.
Qed.

Lemma K_emit o : (∀ out, o ≠ Settled q out) → preserves K (emit o).
Proof.
  intros Ho s (Hq & Hp & Hlt & Hpath & Hfile & Hlog). unfold emit, modify.
  repeat split; simpl; try done.
  intros out [Hin|Hin]%elem_of_app; [by eapply Hlog|].
  apply list_elem_of_singleton in Hin. by eapply Ho.
Qed.

Lemma K_modify_index f : preserves K (modify (with_trapsByFile f)).
Proof. by intros s Hs. Qed.

Lemma K_detach_from t p : preserves K (detach_from t p).
Proof.
  unfold detach_from. apply preserves_bind; [apply preserves_get_state|].
  intros s0. destruct (trapsByFile s0 !! p); [|apply preserves_throw].
  apply preserves_bind; [apply K_modify_index|]. intros ?. by apply K_emit.
Qed.

Lemma K_triggerTraps batch p c : preserves K (_triggerTraps batch p c).
Proof.
  unfold _triggerTraps. case_bool_decide; [apply preserves_ret|].
  apply preserves_bind.
  - apply preserves_for_of. intros t. apply preserves_bind; [apply preserves_get_state|].
    intros s0. apply preserves_for_of. intros p'. apply K_detach_from.
  - intros ?. apply preserves_for_of. intros t. by apply K_emit.
Qed.

Lemma K_with_traps_of p test c :
  (∀ t, preserves K (test t)) → preserves K (with_traps_of p test c).
Proof.
  intros Ht. unfold with_traps_of.
  apply preserves_bind; [apply preserves_get_state|]. intros s0.
  destruct (trapsByFile s0 !! p); [|apply preserves_ret].
  case_bool_decide; [|apply preserves_ret].
  apply preserves_bind; [by apply preserves_for_of_push|].
  intros batch. apply K_triggerTraps.
Qed.

Lemma K_handleFileAdded p st : preserves K (_handleFileAdded p st).
Proof.
  unfold _handleFileAdded.
  apply preserves_bind; [apply preserves_get_state|]. intros s0.
  apply preserves_bind;
    [|intros ?; apply K_with_traps_of; intros t; apply preserves_added_test].
  destruct (files s0 !! p) as [[f|]|]; try apply preserves_ret;
    (apply preserves_bind; [apply K_createFile|intros ?; apply preserves_ret]).
Qed.

Lemma K_handleFileChanged p st : preserves K (_handleFileChanged p st).
Proof.
  unfold _handleFileChanged.
  apply preserves_bind; [apply K_removeFile|]. intros ?.
  apply preserves_bind; [apply K_createFile|]. intros ?.
  apply K_with_traps_of. intros t. apply preserves_changed_test.
Qed.

Lemma K_handleFileRemoved p : preserves K (_handleFileRemoved p).
Proof.
  unfold _handleFileRemoved.
  apply preserves_bind; [apply K_removeFile|]. intros ?.
  apply preserves_bind; [apply K_createFile|]. intros file.
  apply preserves_bind; [apply K_setIsFile|]. intros ?.
  apply K_with_traps_of. intros t. apply preserves_removed_test.
Qed.

Lemma K_evaluateFileMethod m p k : preserves K (_evaluateFileMethod m p k).
Proof.
  assert (∀ s file, K s →
            K (with_nextQuery (S (nextQuery s))
                 (with_pending <[nextQuery s := mkQuery file p m k]> s))) as Hadd.
  { intros s file (Hq & Hp & Hlt & Hpath & Hfile & Hlog).
    repeat split; simpl; try done; [lia|].
    rewrite lookup_insert_ne by lia. done. }
  intros s Hs. unfold _evaluateFileMethod, mbind, M_bind, get_state, modify.
  destruct (files s !! p) as [[file|]|] eqn:E; simpl.
  - by apply Hadd.
  - apply (Hadd (_createFile p None s).1). by apply K_createFile.
  - apply (Hadd (_createFile p None s).1). by apply K_createFile.
Qed.

Lemma K_trap_only {A} (m : M A) :
  (∀ x, preserves (λ s, file_side s = x) m) → preserves K m.
Proof. apply preserves_file_side, K_file_side. Qed.

Lemma K_trap_call t m p k : preserves K (trap_call t m p k).
Proof.
  unfold trap_call.
  apply preserves_bind;
    [apply K_trap_only; intros x; apply frame_ensureBindingToFile|]. intros ?.
  apply preserves_bind; [by intros s Hs|]. intros ?.
  apply K_evaluateFileMethod.
Qed.

Lemma K_run_then k p v : preserves K (run_then k p v).
Proof.
  destruct k, v; simpl; try apply preserves_ret;
    try (apply preserves_void, K_trap_call).
  - apply K_trap_only. intros x. apply frame_then_isFile.
  - apply K_trap_only. intros x. apply frame_then_stat.
  - apply preserves_bind;
      [apply K_trap_only; intros x; apply frame_then_readModifiedTime|].
    intros ?. destruct hash; [|apply preserves_ret].
    apply K_trap_only. intros x. apply frame_then_textHash.
Qed.

Lemma K_settle q' o : preserves K (settle q' o).
Proof.
  intros s Hs. unfold settle, mbind at 1, M_bind at 1, get_state.
  destruct (pending s !! q') as [[file path m k]|] eqn:E; [|done].
  destruct (resolves_with m o); [|done].
  destruct Hs as (Hq & Hp & Hlt & Hpath & Hfile & Hlog).
  assert (K (with_pending (delete q') s)) as Hs1.
  { repeat split; simpl; try done.
    destruct (decide (q' = q)) as [->|Hne].
    - right. apply lookup_delete_eq.
    - by rewrite lookup_delete_ne. }
  unfold mbind, M_bind, modify, _blockStaleFilesFromResolving, get_state. simpl.
  case_bool_decide as Hstale; [done|]. simpl.
  destruct (decide (q' = q)) as [->|Hne].
  - destruct Hp as [Hp|Hp]; [|congruence].
    rewrite Hp in E. injection E as E. subst qr. simpl in *.
    rewrite Hpath in Hstale. by destruct Hstale.
  - assert (K (with_log (λ l, l ++ [Settled q' o]) (with_pending (delete q') s)))
      as Hs2.
    { apply (K_emit (Settled q' o)); [congruence|done]. }
    destruct o; [|done]. by apply K_run_then.
Qed.

Lemma K_step l : preserves K (step_m l).
Proof.
  destruct l as [p st|p st|p|m p| |deps v|t m p|q' o]; simpl.
  - apply K_handleFileAdded.
  - apply K_handleFileChanged.
  - apply K_handleFileRemoved.
  - apply preserves_void, K_evaluateFileMethod.
  - apply K_trap_only. intros x. apply preserves_void, frame_createTrap.
  - apply K_trap_only. intros x. apply preserves_void, frame_rehydrateTrap.
  - apply preserves_bind; [apply preserves_get_state|]. intros s0.
    case_bool_decide; [|apply preserves_ret].
    destruct m;
      [ exact (preserves_void _ _ (K_evaluateFileMethod _ _ _))
      | exact (preserves_void _ _ (K_trap_call _ _ _ _)).. ].
  - apply K_settle.
Qed.

Lemma K_run s ls : K s → K (run s ls).
Proof.
  revert s. induction ls as [|l ls IH]; intros s Hs; simpl; [done|].
  apply IH. by apply K_step.
Qed.
End barrier.

(** What an ingestion handler leaves of the files. *)
Lemma with_traps_of_files F path test c :
  (∀ t, preserves (λ s, (files s, fileObjs s, nextFile s) = F) (test t)) →
  preserves (λ s, (files s, fileObjs s, nextFile s) = F) (with_traps_of path test c).
Proof.
  intros Ht. unfold with_traps_of, _triggerTraps, detach, detach_from.
  pres; try apply Ht.
Qed.

Lemma with_traps_of_files_eq path test c s :
  (∀ t F, preserves (λ s, (files s, fileObjs s, nextFile s) = F) (test t)) →
  files (with_traps_of path test c s).1 = files s
  ∧ fileObjs (with_traps_of path test c s).1 = fileObjs s
  ∧ nextFile (with_traps_of path test c s).1 = nextFile s.
Proof.
  intros Ht.
  pose proof (with_traps_of_files (files s, fileObjs s, nextFile s) path test c
                (λ t, Ht t _) s eq_refl) as H.
  by injection H.
Qed.

Lemma handleFileChanged_files path stat s :
  let s' := (_handleFileChanged path stat s).1 in
  files s' = <[path := Some (nextFile s)]> (<[path := None]> (files s))
  ∧ file_path (fileObjs s' !!! nextFile s) = path
  ∧ (∀ f, f ≠ nextFile s → fileObjs s' !!! f = fileObjs s !!! f).
Proof.
  intros s'. subst s'. rewrite handleFileChanged_eq.
  destruct (with_traps_of_files_eq path (changed_test path) changed
              (_createFile path stat (_removeFile path s).1).1) as (-> & -> & _).
  { intros t F. apply preserves_changed_test. }
  simpl. split; [done|]. split.
  - rewrite lookup_total_insert_eq. by destruct stat.
  - intros f Hf. by rewrite lookup_total_insert_ne.
Qed.

Lemma handleFileRemoved_files path s :
  let s' := (_handleFileRemoved path s).1 in
  files s' = <[path := Some (nextFile s)]> (<[path := None]> (files s))
  ∧ file_path (fileObjs s' !!! nextFile s) = path
  ∧ (∀ f, f ≠ nextFile s → fileObjs s' !!! f = fileObjs s !!! f).
Proof.
  intros s'. subst s'. rewrite handleFileRemoved_eq.
  destruct (with_traps_of_files_eq path (removed_test path) removed
              (removed_file_state path s)) as (-> & -> & _).
  { intros t F. apply preserves_removed_test. }
  simpl. split; [done|]. split.
  - by rewrite !lookup_total_insert_eq.
  - intros f Hf. by rewrite !lookup_total_insert_ne.
Qed.

Lemma handleFileAdded_files path stat s :
  files (_handleFileAdded path stat s).1
  = match files s !! path with
    | Some (Some _) => files s
    | _ => <[path := Some (nextFile s)]> (files s)
    end.
Proof.
  rewrite handleFileAdded_eq.
  match goal with |- files (with_traps_of _ _ _ ?s1).1 = _ =>
    destruct (with_traps_of_files_eq path (added_test path) added s1) as (-> & _)
  end.
  { intros t F. apply preserves_added_test. }
  by destruct (files s !! path) as [[?|]|].
Qed.

(** C7: once the record of a path is replaced, by [onFileChanged] or by
    [onFileRemoved], a promise that was in flight on the old record never
    settles: whatever happens next, and whatever its file promise settles
    with, neither a value nor an error is delivered for it. *)
Theorem staleness_barrier s q qr ev ls :
  reachable s →
  pending s !! q = Some qr →
  (∃ stat, ev = onFileChanged (q_path qr) stat) ∨ ev = onFileRemoved (q_path qr) →
  ∀ o, Settled q o ∉ log (run s (ev :: ls)).
Proof.
  intros Hs Hq Hev. apply reachable_wf in Hs.
  destruct (wf_pending _ Hs _ _ Hq) as (Hlt & Hfile & Hpath).
  assert (suppressed q qr (step s ev).1) as HK.
  { assert (∀ o, Settled q o ∉ log s) as Hlog.
    { intros o Hin. apply (wf_settled _ Hs) in Hin as [_ Hn]. congruence. }
    assert (suppressed q qr (_createFile (q_path qr) None (_removeFile (q_path qr) s).1).1
            ∧ ∀ stat, suppressed q qr
                  (_createFile (q_path qr) stat (_removeFile (q_path qr) s).1).1)
      as [HK0 HK1].
    { assert (∀ stat, suppressed q qr
                (_createFile (q_path qr) stat (_removeFile (q_path qr) s).1).1) as H.
      { intros stat. repeat split; simpl; try done; try lia; [auto| |].
        - rewrite lookup_total_insert_ne by lia. done.
        - rewrite lookup_insert_eq. intros [= Heq]. lia. }
      split; [apply H|exact H]. }
    destruct Hev as [[stat ->]| ->]; unfold step, step_m.
    - rewrite handleFileChanged_eq. apply K_with_traps_of; [|apply HK1].
      intros t. apply preserves_changed_test.
    - rewrite handleFileRemoved_eq. apply K_with_traps_of.
      + intros t. apply preserves_removed_test.
      + by apply K_setIsFile. }
  intros o. simpl. apply (K_run q qr _ ls HK).
Qed.

(** C6 (as the code has it): [onFileChanged] and [onFileRemoved] always
    leave the path with a record that no path had before, and the record the
    path had is stale from then on; [onFileAdded] does so only when the path
    has no record (never seen, or [null]), and otherwise leaves the record
    of the path in place. *)
Theorem ingestion_replaces_record s path stat :
  reachable s →
  replaces s (onFileChanged path stat) path ∧
  replaces s (onFileRemoved path) path ∧
  match files s !! path with
  | Some (Some file) =>
      files (step s (onFileAdded path stat)).1 !! path = Some (Some file)
  | _ => replaces s (onFileAdded path stat) path
  end ∧
  ∀ file l,
    files s !! path = Some (Some file) →
    l = onFileChanged path stat ∨ l = onFileRemoved path →
    (_blockStaleFilesFromResolving file (step s l).1).2 = Ok true.
Proof.
  intros Hs. apply reachable_wf in Hs.
  assert (∀ p, files s !! p ≠ Some (Some (nextFile s))) as Hfresh.
  { intros p Hp. apply (wf_files _ Hs) in Hp as [Hlt _]. lia. }
  destruct (handleFileChanged_files path stat s) as (Hc & Hcp & Hco).
  destruct (handleFileRemoved_files path s) as (Hr & Hrp & Hro).
  split; [|split; [|split]].
  - exists (nextFile s). split; [|done]. unfold step, step_m.
    rewrite Hc. apply lookup_insert_eq.
  - exists (nextFile s). split; [|done]. unfold step, step_m.
    rewrite Hr. apply lookup_insert_eq.
  - unfold replaces, step, step_m. rewrite handleFileAdded_files.
    destruct (files s !! path) as [[file|]|] eqn:E; [done|..];
      (exists (nextFile s); split; [apply lookup_insert_eq|done]).
  - intros file l Hfile Hl. destruct (wf_files _ Hs _ _ Hfile) as [Hlt Hpath].
    unfold _blockStaleFilesFromResolving, mbind, M_bind, get_state. simpl.
    f_equal. apply bool_decide_eq_true.
    destruct Hl as [-> | ->]; unfold step, step_m.
    + rewrite Hc, Hco, Hpath by lia. rewrite lookup_insert_eq. intros [= Heq]. lia.
    + rewrite Hr, Hro, Hpath by lia. rewrite lookup_insert_eq. intros [= Heq]. lia.
Qed.

(** **** What the callbacks do to an entry *)

Lemma bind_at {A B} (I : State → Prop) (m : M A) (k : A → M B) s :
  I (m s).1 → (∀ a, preserves I (k a)) → I ((m ≫= k) s).1.
Proof.
  intros Hm Hk. unfold mbind, M_bind.
  destruct (m s) as [s' [a|e]]; simpl in *; [|done]. by apply Hk.
Qed.

Section entry.
Variables (t : nat) (p : string) (φ : Bindings → Prop).
Let H := λ s, (t < nextTrap s)%nat ∧ holds t p φ s.

Lemma H_trap_side s s' : trap_side s = trap_side s' → H s → H s'.
Proof.
  unfold trap_side, H, holds, trap_of. intros [= Ht Hn]. by rewrite Ht, Hn.
Qed.

Lemma H_file_only {A} (m : M A) :
  (∀ x, preserves (λ s, trap_side s = x) m) → preserves H m.
Proof. apply preserves_trap_side, H_trap_side. Qed.

(** Writing a trap object. *)
Lemma H_update_trap_at s t' f :
  H s →
  (t' = t → ∀ b, bindings (trap_of s t) !! p = Some b → φ b →
     ∃ b', bindings (f (trap_of s t)) !! p = Some b' ∧ φ b') →
  H (update_trap t' f s).1.
Proof.
  intros [Hlt (b & Hb & Hφ)] Hf. split; [done|].
  unfold holds, update_trap, modify, trap_of. simpl. rewrite trap_of_insert.
  case_decide as Ht; [subst t'|by exists b]. by apply (Hf eq_refl b).
Qed.

Lemma H_update_other t' f :
  (∀ T, bindings (f T) !! p = bindings T !! p) → preserves H (update_trap t' f).
Proof.
  intros Hf s Hs. apply H_update_trap_at; [done|].
  intros _ b Hb Hφ. exists b. by rewrite Hf.
Qed.

Lemma H_ensureBindingToFile t' p' : preserves H (_ensureBindingToFile t' p').
Proof.
  unfold _ensureBindingToFile.
  apply preserves_bind; [apply preserves_get_state|]. intros s0.
  case_bool_decide; [apply preserves_ret|].
  apply preserves_bind; [by apply H_update_other|]. intros ?.
  intros s Hs. exact Hs.
Qed.

Lemma H_set_triggerOnChange t' p' : preserves H (set_triggerOnChange t' p').
Proof. by apply H_update_other. Qed.

(** [_getFileBindings] returns the entry that the trap then has. *)
Lemma getFileBindings_spec s t' p' :
  H s →
  ∃ s1 b', _getFileBindings t' p' s = (s1, Ok b') ∧ H s1
           ∧ bindings (trap_of s1 t') !! p' = Some b'.
Proof.
  intros Hs. unfold _getFileBindings, mbind at 1, M_bind at 1, get_state.
  destruct (bindings (trap_of s t') !! p') as [b'|] eqn:E; [by exists s, b'|].
  set (f := λ T, mkTrap (<[p' := mkBindings None None None]> (bindings T))
                        (boundFiles T) (triggerOnChange T)).
  assert (H (update_trap t' f s).1) as Hs1.
  { apply H_update_trap_at; [done|]. intros -> b Hb Hφ. exists b. simpl.
    rewrite lookup_insert_ne; [done|]. intros ->. congruence. }
  assert (bindings (trap_of (update_trap t' f s).1 t') !! p'
          = Some (mkBindings None None None)) as Hb1.
  { unfold update_trap, modify, trap_of. simpl. rewrite traps_insert_eq.
    simpl. apply lookup_insert_eq. }
  unfold mbind at 1, M_bind at 1.
  change (update_trap t' f s) with ((update_trap t' f s).1, Ok tt : Res unit).
  cbn beta iota. unfold mbind at 1, M_bind at 1.
  pose proof (H_ensureBindingToFile t' p' _ Hs1) as Hs2.
  assert (bindings (trap_of (_ensureBindingToFile t' p' (update_trap t' f s).1).1 t')
          = bindings (trap_of (update_trap t' f s).1 t')) as Hb2.
  { unfold _ensureBindingToFile, mbind, M_bind, get_state.
    case_bool_decide; [done|]. unfold update_trap at 1, modify, trap_of at 1.
    simpl. by rewrite traps_insert_eq. }
  destruct (_ensureBindingToFile t' p' (update_trap t' f s).1) as [s2 [[]|e]] eqn:E2.
  - exists s2, (mkBindings None None None). simpl in *. by rewrite Hb2.
  - exfalso. revert E2. unfold _ensureBindingToFile, mbind, M_bind, get_state.
    by case_bool_decide.
Qed.

(** An assignment to a field of the entry. *)
Lemma H_set_binding_at s t' p' g :
  H s →
  (t' = t → p' = p → ∀ b, bindings (trap_of s t) !! p = Some b → φ b → φ (g b)) →
  H (set_binding t' p' g s).1.
Proof.
  intros Hs Hg. apply H_update_trap_at; [done|]. intros -> b Hb Hφ. simpl.
  rewrite lookup_alter. case_decide; [subst p'|by exists b].
  rewrite Hb. exists (g b). split; [done|]. by apply Hg.
Qed.

Lemma entry_set_binding s t' p' g b :
  bindings (trap_of s t') !! p' = Some b →
  bindings (trap_of (set_binding t' p' g s).1 t') !! p' = Some (g b).
Proof.
  intros Hb. unfold set_binding, update_trap, modify, trap_of. simpl.
  rewrite traps_insert_eq. simpl. fold (trap_of s t').
  by rewrite lookup_alter, decide_True, Hb.
Qed.

Lemma H_then_isFile t' p' v :
  callback_keeps φ (ThenIsFile t') → preserves H (then_isFile t' p' v).
Proof.
  intros Hk s Hs. unfold then_isFile, mbind, M_bind.
  destruct (getFileBindings_spec s t' p' Hs) as (s1 & b' & -> & Hs1 & Hb').
  case_bool_decide as Hg; [|done].
  apply H_set_binding_at; [done|]. intros -> -> b Hb Hφ.
  rewrite Hb in Hb'. injection Hb' as ->. by apply Hk.
Qed.

Lemma set_binding_eq s t' p' g :
  set_binding t' p' g s = ((set_binding t' p' g s).1, Ok tt).
Proof. reflexivity. Qed.

Lemma H_then_stat t' p' st :
  callback_keeps φ (ThenStat t') → preserves H (then_stat t' p' st).
Proof.
  intros [Hk1 Hk2] s Hs. unfold then_stat, mbind, M_bind.
  destruct (getFileBindings_spec s t' p' Hs) as (s1 & b' & -> & Hs1 & Hb').
  rewrite set_binding_eq.
  assert (H (set_binding t' p' (set_isFile true) s1).1) as Hs2.
  { apply H_set_binding_at; [done|]. intros -> -> b Hb Hφ. by apply Hk1. }
  pose proof (entry_set_binding s1 t' p' (set_isFile true) b' Hb') as Hb2.
  case_bool_decide as Hg; [|done].
  apply H_set_binding_at; [done|]. intros -> -> b Hb Hφ.
  rewrite Hb in Hb2. injection Hb2 as ->. by apply Hk2.
Qed.

Lemma H_then_readModifiedTime t' p' ms h :
  callback_keeps φ (ThenModifiedTime t' h) →
  preserves H (then_readModifiedTime t' p' ms).
Proof.
  intros (Hk1 & Hk2 & _) s Hs. unfold then_readModifiedTime, mbind, M_bind.
  destruct (getFileBindings_spec s t' p' Hs) as (s1 & b' & -> & Hs1 & Hb').
  rewrite set_binding_eq.
  apply H_set_binding_at.
  - apply H_set_binding_at; [done|]. intros -> -> b Hb Hφ. by apply Hk1.
  - intros -> -> b Hb Hφ. by apply Hk2.
Qed.

Lemma H_then_textHash t' p' hash h :
  callback_keeps φ (ThenModifiedTime t' h) → preserves H (then_textHash t' p' hash).
Proof.
  intros (_ & _ & Hk) s Hs. unfold then_textHash, mbind, M_bind.
  destruct (getFileBindings_spec s t' p' Hs) as (s1 & b' & -> & Hs1 & Hb').
  case_bool_decide as Hg; [|done].
  apply H_set_binding_at; [done|]. intros -> -> b Hb Hφ.
  rewrite Hb in Hb'. injection Hb' as ->. by apply Hk.
Qed.

Lemma H_evaluateFileMethod m p' k : preserves H (_evaluateFileMethod m p' k).
Proof. apply H_file_only. intros x. apply tframe_evaluateFileMethod. Qed.

Lemma H_trap_call t' m p' k : preserves H (trap_call t' m p' k).
Proof.
  unfold trap_call.
  apply preserves_bind; [apply H_ensureBindingToFile|]. intros ?.
  apply preserves_bind; [apply H_set_triggerOnChange|]. intros ?.
  apply H_evaluateFileMethod.
Qed.

Lemma H_run_then k p' v : callback_keeps φ k → preserves H (run_then k p' v).
Proof.
  intros Hk. destruct k, v; simpl; try apply preserves_ret;
    try (apply preserves_void, H_trap_call).
  - by apply H_then_isFile.
  - by apply H_then_stat.
  - apply preserves_bind; [by eapply H_then_readModifiedTime|]. intros ?.
    destruct hash; [|apply preserves_ret]. by eapply H_then_textHash.
Qed.

Lemma H_settle s q o :
  (∀ k, callback_of s (do_settle q o) = Some k → callback_keeps φ k) →
  H s → H (settle q o s).1.
Proof.
  intros Hk Hs. unfold settle, mbind at 1, M_bind at 1, get_state.
  simpl in Hk. destruct (pending s !! q) as [[file path m k]|] eqn:E; [|done].
  destruct (resolves_with m o); [|done].
  unfold mbind, M_bind, modify, _blockStaleFilesFromResolving, get_state. simpl.
  case_bool_decide; [done|]. simpl. destruct o; [|done].
  apply H_run_then; [by apply Hk|done].
Qed.

Lemma H_createTrap : preserves H createTrap.
Proof.
  intros s [Hlt (b & Hb & Hφ)]. unfold createTrap. split; simpl; [lia|].
  exists b. split; [|done]. unfold trap_of. simpl.
  rewrite trap_of_insert, decide_False by lia. done.
Qed.

Lemma H_rehydrateTrap deps v : preserves H (rehydrateTrap deps v).
Proof.
  intros s Hs. unfold rehydrateTrap. destruct v; [|done].
  unfold mbind at 1, M_bind at 1.
  change (createTrap s) with ((createTrap s).1, Ok (nextTrap s) : Res nat).
  cbn beta iota. apply bind_at; [|intros ?; apply preserves_ret].
  assert (t ≠ nextTrap s) as Hne by (destruct Hs; lia).
  apply preserves_for_of; [|by apply H_createTrap]. intros [p' b'].
  apply preserves_bind; [|intros ?; by intros s' Hs'].
  intros s' Hs'. apply H_update_trap_at; [done|]. intros Heq. by destruct Hne.
Qed.

(** One step keeps the entry, if the callback it runs does. *)
Lemma H_step s l :
  (∀ k, callback_of s l = Some k → callback_keeps φ k) →
  H s → H (step s l).1.
Proof.
  intros Hk Hs. unfold step.
  destruct l as [p' st|p' st|p'|m p'| |deps v|t' m p'|q o]; simpl.
  - clear Hk. revert s Hs. apply H_file_only. intros x. apply tframe_handleFileAdded.
  - clear Hk. revert s Hs. apply H_file_only. intros x. apply tframe_handleFileChanged.
  - clear Hk. revert s Hs. apply H_file_only. intros x. apply tframe_handleFileRemoved.
  - by apply (preserves_void _ _ (H_evaluateFileMethod m p' ThenNothing)).
  - by apply (preserves_void _ _ H_createTrap).
  - by apply (preserves_void _ _ (H_rehydrateTrap deps v)).
  - unfold mbind at 1, M_bind at 1, get_state.
    case_bool_decide; [|done].
    destruct m;
      [ by apply (preserves_void _ _ (H_evaluateFileMethod _ _ _))
      | by apply (preserves_void _ _ (H_trap_call _ _ _ _)).. ].
  - by apply H_settle.
Qed.

Lemma H_run s ls : (∀ k, callback_keeps φ k) → H s → H (run s ls).
Proof.
  intros Hk. revert s. induction ls as [|l ls IH]; intros s Hs; simpl; [done|].
  apply IH. apply H_step; [|done]. intros k _. apply Hk.
Qed.
End entry.

(** C1 (as the code has it): an entry of a trap keeps a recorded [textHash]
    whatever happens next; it keeps a recorded [isFile] or has it replaced
    by [true]; a recorded [isFile] is kept by every step that does not run
    the callback of [stat] or of [readModifiedTime]; and a recorded
    [modifiedTime] is kept by every step that does not run the callback of
    [readModifiedTime]. *)
Theorem bindings_first_write_wins s t p b :
  (t < nextTrap s)%nat →
  bindings (trap_of s t) !! p = Some b →
  (∀ ls,
     holds t p (λ b', (∀ h, textHash b = Some h → textHash b' = Some h) ∧
                      (∀ v, isFile b = Some v →
                            isFile b' = Some v ∨ isFile b' = Some true))
       (run s ls)) ∧
  (∀ l,
     (∀ t', callback_of s l ≠ Some (ThenStat t')) →
     (∀ t' h, callback_of s l ≠ Some (ThenModifiedTime t' h)) →
     holds t p (λ b', ∀ v, isFile b = Some v → isFile b' = Some v) (step s l).1) ∧
  (∀ l,
     (∀ t' h, callback_of s l ≠ Some (ThenModifiedTime t' h)) →
     holds t p (λ b', ∀ ms, modifiedTime b = Some ms → modifiedTime b' = Some ms)
       (step s l).1).
Proof.
  intros Hlt Hb. split; [|split].
  - intros ls. apply H_run.
    + intros [ | | | | | | ]; simpl; try done.
      * intros b' v [Hh Hf] Hnone. split; [done|].
        intros v' Hv'. apply Hf in Hv'. rewrite Hnone in Hv'. by destruct Hv'.
      * split.
        -- intros b' [Hh Hf]. split; [done|]. simpl. auto.
        -- intros b' ms [Hh Hf] _. done.
      * split; [|split].
        -- intros b' [Hh Hf]. split; [done|]. simpl. auto.
        -- intros b' ms [Hh Hf]. done.
        -- intros b' h [Hh Hf] Hnone. split; [|done].
           intros h' Hh'. apply Hh in Hh'. congruence.
    + split; [done|]. exists b. split; [done|]. auto.
  - intros l Hstat Hmt. apply H_step.
    + intros [ | | | | | | ] Hk; simpl; try done.
      * intros b' v Hf Hnone v' Hv'. apply Hf in Hv'. congruence.
      * by destruct (Hstat trap).
      * by destruct (Hmt trap hash).
    + split; [done|]. by exists b.
  - intros l Hmt. apply H_step.
    + intros [ | | | | | | ] Hk; simpl; try done.
      * split; [done|]. intros b' ms Hf Hnone ms' Hms'. apply Hf in Hms'. congruence.
      * by destruct (Hmt trap hash).
    + split; [done|]. by exists b.
Qed.

Lemma bindings_first_write_wins_witness :
  (∀ ls,
     holds 0 "a" (λ b', (∀ h, None = Some h → textHash b' = Some h) ∧
                        (∀ v, Some false = Some v →
                              isFile b' = Some v ∨ isFile b' = Some true))
       (run saw_absent ls)) ∧
  (∀ l,
     (∀ t', callback_of saw_absent l ≠ Some (ThenStat t')) →
     (∀ t' h, callback_of saw_absent l ≠ Some (ThenModifiedTime t' h)) →
     holds 0 "a" (λ b', ∀ v, Some false = Some v → isFile b' = Some v)
       (step saw_absent l).1) ∧
  (∀ l,
     (∀ t' h, callback_of saw_absent l ≠ Some (ThenModifiedTime t' h)) →
     holds 0 "a" (λ b', ∀ ms, None = Some ms → modifiedTime b' = Some ms)
       (step saw_absent l).1).
Proof.
  apply (bindings_first_write_wins saw_absent 0 "a"
           (mkBindings (Some false) None None)).
  - vm_compute. lia.
  - vm_compute. reflexivity.
Defined.

(** C1 fails on the code: the trap recorded [isFile = false] for ["a"] and
    has not been triggered ([onFileChanged] does not trigger a trap that
    holds an [isFile] alone); its next query, [readModifiedTime], records
    [isFile = true] over it. *)
Lemma readModifiedTime_overwrites_isFile :
  let s' := run saw_absent [trap_method 0 getModifiedTime "a";
                            do_settle 1 (Resolved (VTime 5))] in
  isFile <$> bindings (trap_of saw_absent 0) !! "a" = Some (Some false) ∧
  isFile <$> bindings (trap_of s' 0) !! "a" = Some (Some true) ∧
  (∀ p c, Triggered 0 p c ∉ log s').
Proof.
  vm_compute. split; [done|]. split; [done|].
  intros p c Hin. repeat (apply elem_of_cons in Hin as [Hin|Hin]; [discriminate|]).
  by apply not_elem_of_nil in Hin.
Qed.

(** **** The code at the inputs where it leaves the design *)

(** C10 (fails on the code): a trap is in the set of ["a"] as soon as its
    [stat("a")] is called, and has no entry for ["a"] before the answer
    comes; [onFileRemoved("a")] then throws where it reads
    [trap.bindings[path].isFile]. *)
Theorem onFileRemoved_throws_in_flight :
  reachable stat_in_flight ∧
  trapsByFile stat_in_flight !! "a" = Some [0] ∧
  bindings (trap_of stat_in_flight 0) !! "a" = None ∧
  (step stat_in_flight (onFileRemoved "a")).2
  = Throw (TypeError "Cannot read property 'isFile' of undefined").
Proof.
  split; [by eexists|]. vm_compute. repeat split.
Qed.

(** C5 (fails on the code): trap 0 is in the set of ["a"] and recorded
    [isFile = true]; trap 1 is in the set too, without an entry yet.
    [onFileRemoved("a")] throws on trap 1 and triggers nothing, trap 0
    included. *)
Theorem onFileRemoved_misses_recorded_file :
  reachable seen_and_in_flight ∧
  trapsByFile seen_and_in_flight !! "a" = Some [0; 1] ∧
  isFile <$> bindings (trap_of seen_and_in_flight 0) !! "a" = Some (Some true) ∧
  (step seen_and_in_flight (onFileRemoved "a")).2
  = Throw (TypeError "Cannot read property 'isFile' of undefined") ∧
  said seen_and_in_flight (onFileRemoved "a") = [].
Proof.
  split; [by eexists|]. vm_compute. repeat split.
Qed.

(** C2 (fails on the code): [_triggerTraps] deletes a trap from the sets of
    the paths in [trap.bindings], not from the sets of the paths in
    [trap.boundFiles].  A trap that has the [stat] of ["a"] and waits for
    the [stat] of ["b"] is triggered when ["a"] changes, stays in the set of
    ["b"], and is triggered again when ["b"] changes. *)
Theorem trap_triggered_twice :
  let s1 := (step one_bound_one_in_flight (onFileChanged "a" (Some mtime9))).1 in
  let s2 := (step s1 (onFileChanged "b" (Some mtime9))).1 in
  reachable one_bound_one_in_flight ∧
  said one_bound_one_in_flight (onFileChanged "a" (Some mtime9))
  = [Deleted "a" 0; Triggered 0 "a" changed] ∧
  trapsByFile s1 !! "b" = Some [0] ∧
  said s1 (onFileChanged "b" (Some mtime9))
  = [Deleted "a" 0; Triggered 0 "b" changed] ∧
  trapsByFile s2 !! "b" = Some [0].
Proof.
  split; [by eexists|]. vm_compute. repeat split.
Qed.

(** C3 (fails on the code, by the same defect): both traps are deleted from
    the set of ["a"] before the first notification, and trap 1, bound last,
    is notified first; but trap 0 is not deleted from the set of ["b"], to
    which it is bound: neither before the notifications nor after. *)
Theorem notified_trap_left_bound :
  let s1 := (step two_traps (onFileChanged "a" (Some mtime9))).1 in
  reachable two_traps ∧
  trapsByFile two_traps !! "a" = Some [0; 1] ∧
  "b" ∈ boundFiles (trap_of two_traps 0) ∧
  said two_traps (onFileChanged "a" (Some mtime9))
  = [Deleted "a" 1; Deleted "a" 0;
     Triggered 1 "a" changed; Triggered 0 "a" changed] ∧
  trapsByFile s1 !! "a" = Some [] ∧
  trapsByFile s1 !! "b" = Some [0].
Proof.
  split; [by eexists|]. split; [by vm_compute|]. split; [by vm_compute|].
  vm_compute. repeat split.
Qed.

(** **** Witnesses *)

Lemma onFileChanged_fires_iff_witness :
  (step two_traps (onFileChanged "a" None)).2 = Ok tt ∧
  ((∃ p c, Triggered 1 p c ∈ said two_traps (onFileChanged "a" None))
   ↔ "a" ∈ triggerOnChange (trap_of two_traps 1)
     ∨ ∃ b, bindings (trap_of two_traps 1) !! "a" = Some b
            ∧ (modifiedTime b ≠ None ∨ textHash b ≠ None)) ∧
  ("a" ∉ triggerOnChange (trap_of two_traps 1) →
   (∃ v, bindings (trap_of two_traps 1) !! "a"
         = Some (mkBindings (Some v) None None)) →
   ∀ p c, Triggered 1 p c ∉ said two_traps (onFileChanged "a" None)).
Proof.
  apply (onFileChanged_fires_iff two_traps "a" None 1).
  - by eexists.
  - vm_compute. apply elem_of_cons. right. apply elem_of_cons. by left.
Defined.

Lemma ingestion_replaces_record_witness :
  replaces buffer_in_flight (onFileChanged "a" None) "a" ∧
  replaces buffer_in_flight (onFileRemoved "a") "a" ∧
  match files buffer_in_flight !! "a" with
  | Some (Some file) =>
      files (step buffer_in_flight (onFileAdded "a" None)).1 !! "a"
      = Some (Some file)
  | _ => replaces buffer_in_flight (onFileAdded "a" None) "a"
  end ∧
  ∀ file l,
    files buffer_in_flight !! "a" = Some (Some file) →
    l = onFileChanged "a" None ∨ l = onFileRemoved "a" →
    (_blockStaleFilesFromResolving file (step buffer_in_flight l).1).2 = Ok true.
Proof.
  apply (ingestion_replaces_record buffer_in_flight "a" None). by eexists.
Defined.

Lemma staleness_barrier_witness :
  (Settled 0 (Resolved (VBuffer []))
   ∉ log (run buffer_in_flight
            [onFileRemoved "a"; do_settle 0 (Resolved (VBuffer []))])) ∧
  (Settled 0 (Rejected "EIO")
   ∉ log (run buffer_in_flight
            [onFileChanged "a" None; do_settle 0 (Rejected "EIO")])).
Proof.
  split.
  - apply (staleness_barrier buffer_in_flight 0
             (mkQuery 0 "a" getBuffer ThenNothing) (onFileRemoved "a")
             [do_settle 0 (Resolved (VBuffer []))]).
    + by eexists.
    + vm_compute. reflexivity.
    + right. reflexivity.
  - apply (staleness_barrier buffer_in_flight 0
             (mkQuery 0 "a" getBuffer ThenNothing) (onFileChanged "a" None)
             [do_settle 0 (Rejected "EIO")]).
    + by eexists.
    + vm_compute. reflexivity.
    + left. by exists None.
Defined.

(** Without the event, the same promise settles. *)
Example settles_when_not_replaced :
  log (run buffer_in_flight [do_settle 0 (Resolved (VBuffer []))])
  = [Settled 0 (Resolved (VBuffer []))].
Proof. vm_compute. reflexivity. Qed.

(** C6 fails on the code: ["a"] has a record, and [onFileAdded("a")] leaves
    it where it is. *)
Lemma onFileAdded_keeps_record :
  files buffer_in_flight !! "a" = Some (Some 0) ∧
  files (step buffer_in_flight (onFileAdded "a" (Some mtime5))).1 !! "a"
  = Some (Some 0) ∧
  ¬ replaces buffer_in_flight (onFileAdded "a" (Some mtime5)) "a".
Proof.
  assert (files (step buffer_in_flight (onFileAdded "a" (Some mtime5))).1 !! "a"
          = Some (Some 0)) as H by (by vm_compute).
  split; [by vm_compute|]. split; [done|].
  intros (file & Hfile & Hfresh). rewrite H in Hfile. injection Hfile as <-.
  by apply (Hfresh "a").
Qed.

End FsCacheFacts.

(* ===================================================================== *)
(** ** More of cache.js *)
(* ===================================================================== *)

Section FsCacheMoreFacts.
Import FsCache FsCacheMore.

(** [onFileAdded] and [onFileChanged] never throw.  [onFileRemoved] returns
    exactly when every trap in the set of the path has an entry for the
    path; otherwise it throws a [TypeError] and notifies nobody. *)
Theorem ingestion_throws_iff s path stat :
  reachable s →
  (step s (onFileAdded path stat)).2 = Ok tt ∧
  (step s (onFileChanged path stat)).2 = Ok tt ∧
  ((step s (onFileRemoved path)).2 = Ok tt
   ↔ ∀ t, t ∈ default [] (trapsByFile s !! path)
          → is_Some (bindings (trap_of s t) !! path)) ∧
  ((step s (onFileRemoved path)).2 = Ok tt
   ∨ ((step s (onFileRemoved path)).2
      = Throw (TypeError "Cannot read property 'isFile' of undefined")
      ∧ said s (onFileRemoved path) = [])).
Proof.
  intros Hs. apply reachable_wf in Hs.
  split; [|split].
  - apply (fired_said _ _ _ _ _ (onFileAdded path stat)
             (handleFileAdded_spec path stat s Hs)).
  - apply (fired_said _ _ _ _ _ (onFileChanged path stat)
             (handleFileChanged_spec path stat s Hs)).
  - destruct (decide (Forall (λ t, is_Some (bindings (trap_of s t) !! path))
                        (default [] (trapsByFile s !! path)))) as [Hall|Hnot].
    + rewrite Forall_forall in Hall.
      destruct (fired_said _ _ _ _ _ (onFileRemoved path)
                  (handleFileRemoved_spec path s Hs Hall)) as [Hok _].
      split; [done|by left].
    + assert (∃ t, t ∈ default [] (trapsByFile s !! path)
                   ∧ bindings (trap_of s t) !! path = None) as Hex.
      { apply not_Forall_Exists, Exists_exists in Hnot as (t & Ht & Hnone);
          [|intros t; apply _].
        exists t. split; [done|]. by apply eq_None_not_Some. }
      pose proof (handleFileRemoved_throws path s Hex) as Heq.
      unfold said, step, step_m. rewrite Heq. simpl. split.
      * split; [done|]. intros Hall. destruct Hnot. by apply Forall_forall.
      * right. split; [done|]. by rewrite drop_all.
Qed.

Lemma ingestion_throws_iff_witness :
  (step seen_and_in_flight (onFileAdded "a" None)).2 = Ok tt ∧
  (step seen_and_in_flight (onFileChanged "a" None)).2 = Ok tt ∧
  ((step seen_and_in_flight (onFileRemoved "a")).2 = Ok tt
   ↔ ∀ t, t ∈ default [] (trapsByFile seen_and_in_flight !! "a")
          → is_Some (bindings (trap_of seen_and_in_flight t) !! "a")) ∧
  ((step seen_and_in_flight (onFileRemoved "a")).2 = Ok tt
   ∨ ((step seen_and_in_flight (onFileRemoved "a")).2
      = Throw (TypeError "Cannot read property 'isFile' of undefined")
      ∧ said seen_and_in_flight (onFileRemoved "a") = [])).
Proof.
  apply (ingestion_throws_iff seen_and_in_flight "a" None). by eexists.
Defined.

(** The ingestion handlers never write to a trap: the entries, the bound
    paths and the [triggerOnChange] marks of every trap are after the event
    what they were before, whether the handler returns or throws. *)
Theorem ingestion_leaves_traps s path stat :
  traps (step s (onFileAdded path stat)).1 = traps s ∧
  traps (step s (onFileChanged path stat)).1 = traps s ∧
  traps (step s (onFileRemoved path)).1 = traps s.
Proof.
  pose proof (tframe_handleFileAdded (trap_side s) path stat s eq_refl) as Ha.
  pose proof (tframe_handleFileChanged (trap_side s) path stat s eq_refl) as Hc.
  pose proof (tframe_handleFileRemoved (trap_side s) path s eq_refl) as Hr.
  unfold trap_side in *. split; [by injection Ha|]. split; [by injection Hc|].
  by injection Hr.
Qed.

Lemma with_traps_of_fileObjs path test c s :
  (∀ t F, preserves (λ s, (files s, fileObjs s, nextFile s) = F) (test t)) →
  fileObjs (with_traps_of path test c s).1 = fileObjs s.
Proof. intros Ht. by apply with_traps_of_files_eq. Qed.

Lemma handleFileChanged_record s path stat :
  files (step s (onFileChanged path stat)).1 !! path = Some (Some (nextFile s))
  ∧ fileObjs (step s (onFileChanged path stat)).1 !! nextFile s
    = Some (seeded path stat).
Proof.
  unfold step, step_m. rewrite handleFileChanged_eq.
  destruct (with_traps_of_files_eq path (changed_test path) changed
              (_createFile path stat (_removeFile path s).1).1) as (-> & -> & _).
  { intros t F. apply preserves_changed_test. }
  simpl. rewrite !lookup_insert_eq. by destruct stat.
Qed.

Lemma handleFileRemoved_record s path :
  files (step s (onFileRemoved path)).1 !! path = Some (Some (nextFile s))
  ∧ fileObjs (step s (onFileRemoved path)).1 !! nextFile s
    = Some (mkFile path None (Some false) None).
Proof.
  unfold step, step_m. rewrite handleFileRemoved_eq.
  destruct (with_traps_of_files_eq path (removed_test path) removed
              (removed_file_state path s)) as (-> & -> & _).
  { intros t F. apply preserves_removed_test. }
  simpl. rewrite !lookup_insert_eq. by rewrite lookup_total_insert_eq.
Qed.

Lemma handleFileAdded_record s path stat :
  match files s !! path with
  | Some (Some f) =>
      files (step s (onFileAdded path stat)).1 !! path = Some (Some f)
      ∧ fileObjs (step s (onFileAdded path stat)).1 !! f = fileObjs s !! f
  | _ =>
      files (step s (onFileAdded path stat)).1 !! path = Some (Some (nextFile s))
      ∧ fileObjs (step s (onFileAdded path stat)).1 !! nextFile s
        = Some (seeded path stat)
  end.
Proof.
  unfold step, step_m. rewrite handleFileAdded_eq.
  match goal with |- context [with_traps_of _ _ _ ?s1] =>
    destruct (with_traps_of_files_eq path (added_test path) added s1)
      as (Hf & Ho & _)
  end.
  { intros t F. apply preserves_added_test. }
  destruct (files s !! path) as [[f|]|] eqn:E; rewrite ?Hf, ?Ho; simpl.
  - done.
  - rewrite !lookup_insert_eq. by destruct stat.
  - rewrite !lookup_insert_eq. by destruct stat.
Qed.

(** The record an event leaves for its path holds what the event knows:
    [onFileChanged] stores the stat it was given, its [isFile()] and its
    [mtime]; [onFileRemoved] stores [isFile = false] and nothing else;
    [onFileAdded] does as [onFileChanged] when the path has no record, and
    leaves the record and its cells alone when the path has one. *)
Theorem ingestion_preseeds s path stat :
  (∃ f, files (step s (onFileChanged path stat)).1 !! path = Some (Some f)
        ∧ fileObjs (step s (onFileChanged path stat)).1 !! f
          = Some (seeded path stat)) ∧
  (∃ f, files (step s (onFileRemoved path)).1 !! path = Some (Some f)
        ∧ fileObjs (step s (onFileRemoved path)).1 !! f
          = Some (mkFile path None (Some false) None)) ∧
  match files s !! path with
  | Some (Some f) =>
      files (step s (onFileAdded path stat)).1 !! path = Some (Some f)
      ∧ fileObjs (step s (onFileAdded path stat)).1 !! f = fileObjs s !! f
  | _ =>
      ∃ f, files (step s (onFileAdded path stat)).1 !! path = Some (Some f)
           ∧ fileObjs (step s (onFileAdded path stat)).1 !! f
             = Some (seeded path stat)
  end.
Proof.
  split; [|split].
  - exists (nextFile s). apply handleFileChanged_record.
  - exists (nextFile s). apply handleFileRemoved_record.
  - pose proof (handleFileAdded_record s path stat) as H.
    destruct (files s !! path) as [[f|]|]; [done|..]; by exists (nextFile s).
Qed.

(** A path that is removed and then added keeps the record of the removal:
    [onFileAdded] finds a record and creates none, so the cache still holds
    [isFile = false] for the path, whatever stat came with the addition. *)
Theorem removed_then_added_stays_absent s path stat :
  ∃ f, files (run s [onFileRemoved path; onFileAdded path stat]) !! path
       = Some (Some f)
       ∧ fileObjs (run s [onFileRemoved path; onFileAdded path stat]) !! f
         = Some (mkFile path None (Some false) None).
Proof.
  destruct (handleFileRemoved_record s path) as (Hf & Ho).
  exists (nextFile s).
  change (run s [onFileRemoved path; onFileAdded path stat])
    with (step (step s (onFileRemoved path)).1 (onFileAdded path stat)).1.
  pose proof (handleFileAdded_record (step s (onFileRemoved path)).1 path stat)
    as Hadd.
  rewrite Hf in Hadd. destruct Hadd as [Hf' Ho']. by rewrite Hf', Ho'.
Qed.

(** **** Queries *)

(** [_evaluateFileMethod], in one piece. *)
Lemma evaluateFileMethod_eq m path k s :
  _evaluateFileMethod m path k s
  = let s1 := match files s !! path with
              | Some (Some _) => s
              | _ => (_createFile path None s).1
              end in
    let f := match files s !! path with
             | Some (Some f) => f
             | _ => nextFile s
             end in
    (with_nextQuery (S (nextQuery s))
       (with_pending <[nextQuery s := mkQuery f path m k]> s1),
     Ok (nextQuery s)).
Proof.
  unfold _evaluateFileMethod, mbind, M_bind, get_state, modify.
  by destruct (files s !! path) as [[f|]|].
Qed.

(** Two queries on one path, with no event between them, are made on the
    same record: the second finds the record the first found or created.
    A path that had a record keeps it, and no record is created. *)
Theorem queries_share_record s m1 m2 path :
  let s2 := run s [cache_call m1 path; cache_call m2 path] in
  ∃ f,
    files s2 !! path = Some (Some f) ∧
    pending s2 !! nextQuery s = Some (mkQuery f path m1 ThenNothing) ∧
    pending s2 !! S (nextQuery s) = Some (mkQuery f path m2 ThenNothing) ∧
    match files s !! path with
    | Some (Some f0) => f = f0 ∧ fileObjs s2 = fileObjs s ∧ nextFile s2 = nextFile s
    | _ => f = nextFile s ∧ nextFile s2 = S (nextFile s)
           ∧ fileObjs s2 !! f = Some (mkFile path None None None)
    end.
Proof.
  intros s2. subst s2.
  change (run s [cache_call m1 path; cache_call m2 path])
    with (step (step s (cache_call m1 path)).1 (cache_call m2 path)).1.
  unfold step, step_m, void, mbind, M_bind. rewrite !evaluateFileMethod_eq.
  assert (∀ (m : gmap nat Query) n a b, <[S n := b]> (<[n := a]> m) !! n = Some a)
    as Hfst.
  { intros m n a b. rewrite lookup_insert_ne by (intros Hn; lia).
    apply lookup_insert_eq. }
  destruct (files s !! path) as [[f|]|] eqn:E; simpl; rewrite ?E; simpl.
  - exists f. rewrite E, Hfst, lookup_insert_eq. done.
  - exists (nextFile s). rewrite !lookup_insert_eq. simpl.
    rewrite Hfst, !lookup_insert_eq. done.
  - exists (nextFile s). rewrite !lookup_insert_eq. simpl.
    rewrite Hfst, !lookup_insert_eq. done.
Qed.

(** **** Traps *)

Lemma void_fst {A} (m : M A) s : (void m s).1 = (m s).1.
Proof. unfold void, mbind, M_bind. by destruct (m s) as [? [?|?]]. Qed.

Lemma trap_call_fst t m path k s :
  (trap_call t m path k s).1
  = (_evaluateFileMethod m path k
       (set_triggerOnChange t path (_ensureBindingToFile t path s).1).1).1.
Proof.
  unfold trap_call, mbind, M_bind, _ensureBindingToFile, mbind, M_bind, get_state.
  by case_bool_decide.
Qed.

Lemma evaluateFileMethod_keeps m path k s :
  traps (_evaluateFileMethod m path k s).1 = traps s
  ∧ trapsByFile (_evaluateFileMethod m path k s).1 = trapsByFile s
  ∧ log (_evaluateFileMethod m path k s).1 = log s.
Proof.
  rewrite evaluateFileMethod_eq. by destruct (files s !! path) as [[?|]|].
Qed.

Lemma ensureBindingToFile_unbound t path s :
  path ∉ boundFiles (trap_of s t) →
  trap_of (_ensureBindingToFile t path s).1 t
  = mkTrap (bindings (trap_of s t)) ({[path]} ∪ boundFiles (trap_of s t))
      (triggerOnChange (trap_of s t))
  ∧ trapsByFile (_ensureBindingToFile t path s).1 !! path
    = Some (set_add t (default [] (trapsByFile s !! path))).
Proof.
  intros Hb. unfold _ensureBindingToFile, mbind, M_bind, get_state.
  rewrite bool_decide_false by done.
  unfold trap_of. simpl. by rewrite traps_insert_eq, lookup_insert_eq.
Qed.

(** What the call of a content-sensitive trap method leaves of the trap and
    of the index, when the trap was not yet bound to the path. *)
Lemma trap_call_registers t m path k s :
  path ∉ boundFiles (trap_of s t) →
  t ∈ default [] (trapsByFile (trap_call t m path k s).1 !! path) ∧
  path ∈ triggerOnChange (trap_of (trap_call t m path k s).1 t) ∧
  path ∈ boundFiles (trap_of (trap_call t m path k s).1 t) ∧
  bindings (trap_of (trap_call t m path k s).1 t) = bindings (trap_of s t).
Proof.
  intros Hb. rewrite trap_call_fst.
  destruct (evaluateFileMethod_keeps m path k
              (set_triggerOnChange t path (_ensureBindingToFile t path s).1).1)
    as (Ht & Hi & _).
  unfold trap_of at 1 2 3. rewrite Ht, Hi.
  destruct (ensureBindingToFile_unbound t path s Hb) as [HT Hset].
  unfold set_triggerOnChange, update_trap, modify. simpl.
  rewrite traps_insert_eq, HT, Hset. simpl.
  split; [apply elem_of_set_add; by left|]. set_solver.
Qed.

(** The first content-sensitive query of a trap on a path protects the
    trap from the start: if the path changes before the answer comes, the
    trap is notified. *)
Theorem in_flight_trap_fires_on_change s t m path stat :
  reachable s →
  (t < nextTrap s)%nat →
  path ∉ boundFiles (trap_of s t) →
  m ≠ getIsFile →
  Triggered t path changed
  ∈ said (step s (trap_method t m path)).1 (onFileChanged path stat).
Proof.
  intros Hs Hlt Hb Hm.
  pose proof (preserves_step (trap_method t m path) s (reachable_wf s Hs)) as Hwf.
  assert (∃ k, (step s (trap_method t m path)).1 = (trap_call t m path k s).1)
    as [k Hk].
  { unfold step, step_m, mbind at 1, M_bind at 1, get_state.
    rewrite bool_decide_true by done.
    destruct m; [done|..]; eexists; rewrite void_fst; reflexivity. }
  fold (step s (trap_method t m path)) in Hwf.
  destruct (trap_call_registers t m path k s Hb) as (Hin & Htr & _).
  rewrite <- Hk in Hin, Htr.
  apply (fired_said _ _ _ _ _ (onFileChanged path stat)
           (handleFileChanged_spec path stat _ Hwf)).
  repeat split; [done|]. unfold changed_rule. by rewrite bool_decide_true.
Qed.

Lemma in_flight_trap_fires_on_change_witness :
  Triggered 0 "a" changed
  ∈ said (step (run init [do_createTrap]) (trap_method 0 getBuffer "a")).1
      (onFileChanged "a" None).
Proof.
  apply (in_flight_trap_fires_on_change (run init [do_createTrap]) 0 getBuffer "a" None).
  - by eexists.
  - vm_compute. lia.
  - vm_compute. set_solver.
  - discriminate.
Defined.

(** **** A trap returns to no set it has left *)

Section bound_once.
Variables (t : nat) (path : string).
Let B := λ s, (t < nextTrap s)%nat ∧ path ∈ boundFiles (trap_of s t)
              ∧ t ∉ default [] (trapsByFile s !! path).


















End bound_once.



(** **** rehydrateTrap *)



(** **** Delivery *)

Section delivered.
Variables (q : nat) (L : list Obs).
Let D := λ s, (q < nextQuery s)%nat ∧ pending s !! q = None ∧ log s = L.

Lemma D_trap_only {A} (m : M A) :
  (∀ x, preserves (λ s, file_side s = x) m) → preserves D m.
Proof.
  apply preserves_file_side. unfold D, file_side. intros s s' Heq.
  by injection Heq as _ _ _ -> -> ->.
Qed.

Lemma D_evaluateFileMethod m p k : preserves D (_evaluateFileMethod m p k).
Proof.
  intros s (Hlt & Hp & Hl). rewrite evaluateFileMethod_eq. cbn zeta.
  destruct (files s !! p) as [[?|]|]; (split; [simpl; lia|split; [|done]]); simpl;
    by rewrite lookup_insert_ne by lia.
Qed.

Lemma D_trap_call t m p k : preserves D (trap_call t m p k).
Proof.
  unfold trap_call.
  apply preserves_bind;
    [apply D_trap_only; intros x; apply frame_ensureBindingToFile|]. intros ?.
  apply preserves_bind; [apply D_trap_only; by intros x s Hs|]. intros ?.
  apply D_evaluateFileMethod.
Qed.

Lemma D_run_then k p v : preserves D (run_then k p v).
Proof.
  destruct k, v; simpl; try exact (preserves_ret _ _);
    try exact (preserves_void _ _ (D_trap_call _ _ _ _)).
  - apply D_trap_only. intros x. apply frame_then_isFile.
  - apply D_trap_only. intros x. apply frame_then_stat.
  - apply preserves_bind;
      [apply D_trap_only; intros x; apply frame_then_readModifiedTime|].
    intros ?. destruct hash; [|apply preserves_ret].
    apply D_trap_only. intros x. apply frame_then_textHash.
Qed.
End delivered.

(** A promise in flight on the record that its path still has is
    delivered: when its file promise settles, with a value or with an
    error, exactly that outcome is handed on and nothing else is said, and
    the promise is in flight no more.  An error leaves the traps and the
    index as they were. *)
Theorem current_promise_is_delivered s q qr o :
  reachable s →
  pending s !! q = Some qr →
  files s !! q_path qr = Some (Some (q_file qr)) →
  resolves_with (q_method qr) o = true →
  said s (do_settle q o) = [Settled q o] ∧
  pending (step s (do_settle q o)).1 !! q = None ∧
  (∀ err, o = Rejected err →
          traps (step s (do_settle q o)).1 = traps s ∧
          trapsByFile (step s (do_settle q o)).1 = trapsByFile s).
Proof.
  intros Hs Hq Hcur Hres. apply reachable_wf in Hs.
  destruct (wf_pending _ Hs _ _ Hq) as (Hlt & Hfile & Hpath).
  destruct qr as [file path m k]. simpl in Hcur, Hres, Hfile, Hpath.
  unfold said.
  pose (s1 := with_log (λ l, l ++ [Settled q o]) (with_pending (delete q) s)).
  assert ((step s (do_settle q o)).1
          = match o with
            | Resolved v => (run_then k path v s1).1
            | Rejected _ => s1
            end) as ->.
  { unfold step, step_m, settle, mbind at 1, M_bind at 1, get_state.
    cbn beta iota. rewrite Hq, Hres.
    unfold mbind, M_bind, modify, _blockStaleFilesFromResolving, get_state, emit, modify.
    simpl. rewrite Hpath, bool_decide_false by (intros Hn; by apply Hn).
    by destruct o. }
  destruct o as [v|err].
  - destruct (D_run_then q (log s ++ [Settled q (Resolved v)]) k path v s1)
      as (_ & Hp & Hl).
    { repeat split; simpl; [done|apply lookup_delete_eq]. }
    rewrite Hl, drop_app_length. split; [done|]. split; [done|]. intros err [=].
  - simpl. rewrite drop_app_length. split; [done|].
    split; [apply lookup_delete_eq|done].
Qed.

Lemma current_promise_is_delivered_witness :
  said stat_in_flight (do_settle 0 (Rejected "ENOENT"))
  = [Settled 0 (Rejected "ENOENT")] ∧
  pending (step stat_in_flight (do_settle 0 (Rejected "ENOENT"))).1 !! 0 = None ∧
  (∀ err, Rejected "ENOENT" = Rejected err →
          traps (step stat_in_flight (do_settle 0 (Rejected "ENOENT"))).1
          = traps stat_in_flight ∧
          trapsByFile (step stat_in_flight (do_settle 0 (Rejected "ENOENT"))).1
          = trapsByFile stat_in_flight).
Proof.
  apply (current_promise_is_delivered stat_in_flight 0
           (mkQuery 0 "a" getStat (ThenStat 0)) (Rejected "ENOENT")).
  - by eexists.
  - reflexivity.
  - reflexivity.
  - reflexivity.
Defined.

(** **** [isFile] in flight *)

(** A change of the path of a promise in flight leaves it suppressed. *)
Lemma changed_suppresses s q qr stat :
  wf s → pending s !! q = Some qr →
  suppressed q qr (step s (onFileChanged (q_path qr) stat)).1.
Proof.
  intros Hs Hq. destruct (wf_pending _ Hs _ _ Hq) as (Hlt & Hfile & Hpath).
  assert (∀ o, Settled q o ∉ log s) as Hlog.
  { intros o Hin. apply (wf_settled _ Hs) in Hin as [_ Hn]. congruence. }
  unfold step, step_m. rewrite handleFileChanged_eq. apply K_with_traps_of.
  - intros t. apply preserves_changed_test.
  - repeat split; simpl; try done; try lia; [auto| |].
    + rewrite lookup_total_insert_ne by lia. done.
    + rewrite lookup_insert_eq. intros [= Heq]. lia.
Qed.

(** [trap.isFile(path)] binds nothing at the call: the trap and the index
    are as before, and the trap joins the set of the path only when the
    answer comes.  So when the path changes while the answer is awaited, a
    trap that was not in the set of the path hears nothing: the change
    does not notify it, and its promise never settles. *)
Theorem isFile_in_flight_is_unprotected s t path stat :
  reachable s →
  (t < nextTrap s)%nat →
  t ∉ default [] (trapsByFile s !! path) →
  let s1 := (step s (trap_method t getIsFile path)).1 in
  traps s1 = traps s ∧ trapsByFile s1 = trapsByFile s ∧
  (∃ file, pending s1 !! nextQuery s
           = Some (mkQuery file path getIsFile (ThenIsFile t))) ∧
  (∀ c, Triggered t path c ∉ said s1 (onFileChanged path stat)) ∧
  (∀ ls o, Settled (nextQuery s) o ∉ log (run s1 (onFileChanged path stat :: ls))).
Proof.
  intros Hs Hlt Hn s1.
  pose proof (preserves_step (trap_method t getIsFile path) s (reachable_wf s Hs))
    as Hwf.
  fold (step s (trap_method t getIsFile path)) in Hwf. fold s1 in Hwf.
  assert (s1 = (_evaluateFileMethod getIsFile path (ThenIsFile t) s).1) as Heq.
  { unfold s1, step, step_m, mbind at 1, M_bind at 1, get_state.
    rewrite bool_decide_true by done. apply void_fst. }
  destruct (evaluateFileMethod_keeps getIsFile path (ThenIsFile t) s)
    as (Htr & Hidx & _).
  rewrite <- Heq in Htr, Hidx.
  assert (∃ file, pending s1 !! nextQuery s
                  = Some (mkQuery file path getIsFile (ThenIsFile t)))
    as [file Hq].
  { rewrite Heq, evaluateFileMethod_eq. cbn zeta. simpl.
    rewrite lookup_insert_eq. by eexists. }
  split; [done|]. split; [done|]. split; [by exists file|]. split.
  - intros c Hin.
    apply (fired_said _ _ _ _ _ (onFileChanged path stat)
             (handleFileChanged_spec path stat _ Hwf)) in Hin
      as (_ & _ & Hin & _).
    rewrite Hidx in Hin. by apply Hn.
  - intros ls o. simpl.
    apply (K_run (nextQuery s) _ _ ls
             (changed_suppresses s1 (nextQuery s) _ stat Hwf Hq)).
Qed.

Lemma isFile_in_flight_is_unprotected_witness :
  traps (step (run init [do_createTrap]) (trap_method 0 getIsFile "a")).1
  = traps (run init [do_createTrap]) ∧
  trapsByFile (step (run init [do_createTrap]) (trap_method 0 getIsFile "a")).1
  = trapsByFile (run init [do_createTrap]) ∧
  (∃ file, pending (step (run init [do_createTrap]) (trap_method 0 getIsFile "a")).1
             !! nextQuery (run init [do_createTrap])
           = Some (mkQuery file "a" getIsFile (ThenIsFile 0))) ∧
  (∀ c, Triggered 0 "a" c
        ∉ said (step (run init [do_createTrap]) (trap_method 0 getIsFile "a")).1
            (onFileChanged "a" None)) ∧
  (∀ ls o, Settled (nextQuery (run init [do_createTrap])) o
           ∉ log (run (step (run init [do_createTrap]) (trap_method 0 getIsFile "a")).1
                    (onFileChanged "a" None :: ls))).
Proof.
  apply (isFile_in_flight_is_unprotected (run init [do_createTrap]) 0 "a" None).
  - by eexists.
  - vm_compute. lia.
  - vm_compute. apply not_elem_of_nil.
Defined.

(** **** The batch of an event *)



Lemma saw_file_index : trapsByFile saw_file = {["a" := [0]]}.
Proof. vm_compute. reflexivity. Qed.

Lemma saw_file_recorded : recorded_everywhere saw_file 0.
Proof.
  intros p. rewrite saw_file_index. destruct (decide (p = "a")) as [->|Hne].
  - intros _. vm_compute. by eexists.
  - rewrite lookup_singleton_ne by done. by intros ?%not_elem_of_nil.
Qed.

Lemma recorded_trap_fires_at_most_once_witness :
  (length (notifications 0
             (drop (length (log saw_file))
                (log (run saw_file [onFileRemoved "a"; onFileAdded "a" None;
                                    onFileChanged "a" None]))))
   ≤ 1)%nat.
Proof.
  apply (recorded_trap_fires_at_most_once saw_file 0
           [onFileRemoved "a"; onFileAdded "a" None; onFileChanged "a" None]).
  - by eexists.
  - apply saw_file_recorded.
  - repeat constructor.
Defined.

(** **** Answers *)

Lemma settle_current_eq s q file path m k o :
  wf s →
  pending s !! q = Some (mkQuery file path m k) →
  files s !! path = Some (Some file) →
  resolves_with m o = true →
  (step s (do_settle q o)).1
  = match o with
    | Resolved v =>
        (run_then k path v
           (with_log (λ l, l ++ [Settled q o]) (with_pending (delete q) s))).1
    | Rejected _ => with_log (λ l, l ++ [Settled q o]) (with_pending (delete q) s)
    end.
Proof.
  intros Hs Hq Hcur Hres.
  destruct (wf_pending _ Hs _ _ Hq) as (Hlt & Hfile & Hpath). simpl in Hpath.
  unfold step, step_m, settle, mbind at 1, M_bind at 1, get_state.
  cbn beta iota. rewrite Hq, Hres.
  unfold mbind, M_bind, modify, _blockStaleFilesFromResolving, get_state, emit, modify.
  simpl. rewrite Hpath, bool_decide_false by (intros Hn; by apply Hn).
  by destruct o.
Qed.

Lemma getFileBindings_entry s t p :
  ∃ s', _getFileBindings t p s = (s', Ok (entry_of s t p))
        ∧ bindings (trap_of s' t) !! p = Some (entry_of s t p).
Proof.
  unfold _getFileBindings, entry_of, mbind at 1, M_bind at 1, get_state.
  destruct (bindings (trap_of s t) !! p) as [b|] eqn:E; [by exists s|].
  set (f := λ T, mkTrap (<[p := mkBindings None None None]> (bindings T))
                        (boundFiles T) (triggerOnChange T)).
  unfold mbind at 1, M_bind at 1.
  change (update_trap t f s) with ((update_trap t f s).1, Ok tt : Res unit).
  cbn beta iota. unfold mbind at 1, M_bind at 1.
  assert (bindings (trap_of (update_trap t f s).1 t) !! p
          = Some (mkBindings None None None)) as Hb1.
  { unfold update_trap, modify, trap_of. simpl. rewrite traps_insert_eq.
    simpl. apply lookup_insert_eq. }
  assert (bindings (trap_of (_ensureBindingToFile t p (update_trap t f s).1).1 t)
          = bindings (trap_of (update_trap t f s).1 t)) as Hb2.
  { unfold _ensureBindingToFile, mbind, M_bind, get_state.
    case_bool_decide; [done|]. unfold update_trap at 1, modify, trap_of at 1.
    simpl. by rewrite traps_insert_eq. }
  destruct (_ensureBindingToFile t p (update_trap t f s).1) as [s2 [[]|e]] eqn:E2.
  - exists s2. simpl in *. by rewrite Hb2.
  - exfalso. revert E2. unfold _ensureBindingToFile, mbind, M_bind, get_state.
    by case_bool_decide.
Qed.

Lemma then_isFile_entry s t p v :
  bindings (trap_of (then_isFile t p v s).1 t) !! p
  = Some (if isFile (entry_of s t p) is None
          then set_isFile v (entry_of s t p) else entry_of s t p).
Proof.
  unfold then_isFile, mbind, M_bind.
  destruct (getFileBindings_entry s t p) as (s' & -> & Hb).
  case_bool_decide as Hn.
  - rewrite Hn. by apply entry_set_binding.
  - simpl. by destruct (isFile (entry_of s t p)).
Qed.

Lemma then_stat_entry s t p st :
  bindings (trap_of (then_stat t p st s).1 t) !! p
  = Some (if modifiedTime (entry_of s t p) is None
          then set_modifiedTime (stat_mtime st) (set_isFile true (entry_of s t p))
          else set_isFile true (entry_of s t p)).
Proof.
  unfold then_stat, mbind, M_bind.
  destruct (getFileBindings_entry s t p) as (s' & -> & Hb).
  rewrite set_binding_eq. cbn beta iota.
  pose proof (entry_set_binding _ _ _ (set_isFile true) _ Hb) as Hb1.
  case_bool_decide as Hn.
  - rewrite Hn. by apply entry_set_binding.
  - simpl. by destruct (modifiedTime (entry_of s t p)).
Qed.

Lemma then_readModifiedTime_entry s t p ms :
  bindings (trap_of (then_readModifiedTime t p ms s).1 t) !! p
  = Some (set_modifiedTime ms (set_isFile true (entry_of s t p))).
Proof.
  unfold then_readModifiedTime, mbind, M_bind.
  destruct (getFileBindings_entry s t p) as (s' & -> & Hb).
  rewrite set_binding_eq. cbn beta iota.
  pose proof (entry_set_binding _ _ _ (set_isFile true) _ Hb) as Hb1.
  by apply entry_set_binding.
Qed.

Lemma trap_call_bindings t m path k s t' :
  bindings (trap_of (trap_call t m path k s).1 t') = bindings (trap_of s t').
Proof.
  rewrite trap_call_fst.
  destruct (evaluateFileMethod_keeps m path k
              (set_triggerOnChange t path (_ensureBindingToFile t path s).1).1)
    as (Ht & _).
  unfold trap_of at 1. rewrite Ht.
  unfold set_triggerOnChange, update_trap, modify. simpl.
  rewrite trap_of_insert. case_decide as Ht'; simpl.
  - subst t'. unfold _ensureBindingToFile, mbind, M_bind, get_state.
    case_bool_decide; [done|]. unfold trap_of at 1. simpl.
    by rewrite traps_insert_eq.
  - unfold _ensureBindingToFile, mbind, M_bind, get_state.
    case_bool_decide; [done|]. unfold trap_of at 1. simpl.
    by rewrite trap_of_insert, decide_False.
Qed.

Lemma trap_call_nextQuery t m path k s :
  ∃ s0, (trap_call t m path k s).1 = (_evaluateFileMethod m path k s0).1
        ∧ nextQuery s0 = nextQuery s.
Proof.
  eexists. split; [apply trap_call_fst|].
  pose proof (frame_ensureBindingToFile (file_side s) t path s eq_refl) as H.
  unfold file_side in H. simpl. by injection H.
Qed.

Lemma evaluateFileMethod_registers m path k s :
  ∃ f, pending (_evaluateFileMethod m path k s).1 !! nextQuery s
       = Some (mkQuery f path m k)
       ∧ files (_evaluateFileMethod m path k s).1 !! path = Some (Some f).
Proof.
  rewrite evaluateFileMethod_eq. cbn zeta.
  destruct (files s !! path) as [[f|]|] eqn:E; simpl.
  - exists f. by rewrite lookup_insert_eq.
  - exists (nextFile s). by rewrite !lookup_insert_eq.
  - exists (nextFile s). by rewrite !lookup_insert_eq.
Qed.

(** What a method of a trap leaves when it is called. *)
Lemma trap_method_call s t m path :
  (t < nextTrap s)%nat →
  ∃ f,
    pending (step s (trap_method t m path)).1 !! nextQuery s
    = Some (mkQuery f path m (then_of t m)) ∧
    files (step s (trap_method t m path)).1 !! path = Some (Some f) ∧
    bindings (trap_of (step s (trap_method t m path)).1 t)
    = bindings (trap_of s t).
Proof.
  intros Hlt.
  assert ((step s (trap_method t m path)).1
          = match m with
            | getIsFile => (_evaluateFileMethod m path (then_of t m) s).1
            | _ => (trap_call t m path (then_of t m) s).1
            end) as ->.
  { unfold step, step_m, mbind at 1, M_bind at 1, get_state.
    rewrite bool_decide_true by done. destruct m; apply void_fst. }
  assert (∃ f,
    pending (trap_call t m path (then_of t m) s).1 !! nextQuery s
    = Some (mkQuery f path m (then_of t m)) ∧
    files (trap_call t m path (then_of t m) s).1 !! path = Some (Some f) ∧
    bindings (trap_of (trap_call t m path (then_of t m) s).1 t)
    = bindings (trap_of s t)) as Hcall.
  { pose proof (trap_call_bindings t m path (then_of t m) s t) as Hb.
    destruct (trap_call_nextQuery t m path (then_of t m) s) as (s0 & Heq & Hnq).
    destruct (evaluateFileMethod_registers m path (then_of t m) s0) as (f & Hq & Hf).
    rewrite <- Heq, Hnq in Hq. rewrite <- Heq in Hf. by exists f. }
  destruct m; try exact Hcall.
  destruct (evaluateFileMethod_registers getIsFile path (ThenIsFile t) s)
    as (f & ? & ?).
  exists f. split; [done|]. split; [done|].
  destruct (evaluateFileMethod_keeps getIsFile path (ThenIsFile t) s) as (Ht & _).
  unfold trap_of. simpl then_of. by rewrite Ht.
Qed.

(** A query through a trap that is answered before anything else happens
    is recorded in the entry of the trap for the path.  [isFile] records
    its answer unless an [isFile] is recorded; [stat] records [isFile =
    true], and the time of the stat unless a time is recorded;
    [readModifiedTime] records [isFile = true] and its answer, over what
    was recorded.  Nothing else of the entry changes. *)
Theorem answers_are_recorded s t path :
  reachable s →
  (t < nextTrap s)%nat →
  (∀ v,
     bindings (trap_of (run s [trap_method t getIsFile path;
                               do_settle (nextQuery s) (Resolved (VBool v))]) t)
       !! path
     = Some (if isFile (entry_of s t path) is None
             then set_isFile v (entry_of s t path) else entry_of s t path)) ∧
  (∀ st,
     bindings (trap_of (run s [trap_method t getStat path;
                               do_settle (nextQuery s) (Resolved (VStat st))]) t)
       !! path
     = Some (if modifiedTime (entry_of s t path) is None
             then set_modifiedTime (stat_mtime st)
                    (set_isFile true (entry_of s t path))
             else set_isFile true (entry_of s t path))) ∧
  (∀ ms,
     bindings (trap_of (run s [trap_method t getModifiedTime path;
                               do_settle (nextQuery s) (Resolved (VTime ms))]) t)
       !! path
     = Some (set_modifiedTime ms (set_isFile true (entry_of s t path)))).
Proof.
  intros Hs Hlt. apply reachable_wf in Hs.
  assert (∀ m v,
    resolves_with m (Resolved v) = true →
    ∃ s1,
      run s [trap_method t m path; do_settle (nextQuery s) (Resolved v)]
      = (run_then (then_of t m) path v s1).1
      ∧ entry_of s1 t path = entry_of s t path) as Hrun.
  { intros m v Hres.
    change (run s [trap_method t m path; do_settle (nextQuery s) (Resolved v)])
      with (step (step s (trap_method t m path)).1
              (do_settle (nextQuery s) (Resolved v))).1.
    destruct (trap_method_call s t m path Hlt) as (f & Hq & Hf & Hb).
    pose proof (preserves_step (trap_method t m path) s Hs) as Hwf.
    fold (step s (trap_method t m path)) in Hwf.
    rewrite (settle_current_eq _ _ _ _ _ _ _ Hwf Hq Hf Hres).
    eexists. split; [reflexivity|].
    change (entry_of (step s (trap_method t m path)).1 t path = entry_of s t path).
    unfold entry_of. by rewrite Hb. }
  split; [|split].
  - intros v. destruct (Hrun getIsFile (VBool v) eq_refl) as (s1 & -> & <-).
    apply then_isFile_entry.
  - intros st. destruct (Hrun getStat (VStat st) eq_refl) as (s1 & -> & <-).
    apply then_stat_entry.
  - intros ms. destruct (Hrun getModifiedTime (VTime ms) eq_refl) as (s1 & -> & <-).
    simpl run_then. unfold mbind, M_bind.
    rewrite (surjective_pairing (then_readModifiedTime t path ms s1)).
    assert ((then_readModifiedTime t path ms s1).2 = Ok tt) as ->.
    { unfold then_readModifiedTime, mbind, M_bind.
      by destruct (getFileBindings_entry s1 t path) as (s' & -> & _). }
    apply then_readModifiedTime_entry.
Qed.

Lemma answers_are_recorded_witness :
  (∀ v,
     bindings (trap_of (run saw_file [trap_method 0 getIsFile "a";
                                      do_settle (nextQuery saw_file)
                                        (Resolved (VBool v))]) 0)
       !! "a"
     = Some (if isFile (entry_of saw_file 0 "a") is None
             then set_isFile v (entry_of saw_file 0 "a")
             else entry_of saw_file 0 "a")) ∧
  (∀ st,
     bindings (trap_of (run saw_file [trap_method 0 getStat "a";
                                      do_settle (nextQuery saw_file)
                                        (Resolved (VStat st))]) 0)
       !! "a"
     = Some (if modifiedTime (entry_of saw_file 0 "a") is None
             then set_modifiedTime (stat_mtime st)
                    (set_isFile true (entry_of saw_file 0 "a"))
             else set_isFile true (entry_of saw_file 0 "a"))) ∧
  (∀ ms,
     bindings (trap_of (run saw_file [trap_method 0 getModifiedTime "a";
                                      do_settle (nextQuery saw_file)
                                        (Resolved (VTime ms))]) 0)
       !! "a"
     = Some (set_modifiedTime ms (set_isFile true (entry_of saw_file 0 "a")))).
Proof.
  apply (answers_are_recorded saw_file 0 "a").
  - by eexists.
  - vm_compute. lia.
Defined.

(** The rules of [onFileAdded] and [onFileRemoved], as the code has them.
    [onFileAdded] returns, and notifies a trap in the set of the path if
    and only if the entry of the trap for the path holds [isFile = false].
    When every trap in the set of the path has an entry for the path,
    [onFileRemoved] returns, and notifies a trap in the set if and only if
    its entry for the path holds [isFile = true]. *)
Theorem added_and_removed_rules s path stat t :
  reachable s →
  t ∈ default [] (trapsByFile s !! path) →
  ((step s (onFileAdded path stat)).2 = Ok tt ∧
   ((∃ p c, Triggered t p c ∈ said s (onFileAdded path stat))
    ↔ ∃ b, bindings (trap_of s t) !! path = Some b ∧ isFile b = Some false)) ∧
  ((∀ t', t' ∈ default [] (trapsByFile s !! path)
          → is_Some (bindings (trap_of s t') !! path)) →
   (step s (onFileRemoved path)).2 = Ok tt ∧
   ((∃ p c, Triggered t p c ∈ said s (onFileRemoved path))
    ↔ ∃ b, bindings (trap_of s t) !! path = Some b ∧ isFile b = Some true)).
Proof.
  intros Hs Ht. split.
  - by apply onFileAdded_fires_iff.
  - intros Hall. by apply onFileRemoved_fires_iff_when_recorded.
Qed.

Lemma added_and_removed_rules_witness :
  ((step saw_file (onFileAdded "a" None)).2 = Ok tt ∧
   ((∃ p c, Triggered 0 p c ∈ said saw_file (onFileAdded "a" None))
    ↔ ∃ b, bindings (trap_of saw_file 0) !! "a" = Some b ∧ isFile b = Some false)) ∧
  ((∀ t', t' ∈ default [] (trapsByFile saw_file !! "a")
          → is_Some (bindings (trap_of saw_file t') !! "a")) →
   (step saw_file (onFileRemoved "a")).2 = Ok tt ∧
   ((∃ p c, Triggered 0 p c ∈ said saw_file (onFileRemoved "a"))
    ↔ ∃ b, bindings (trap_of saw_file 0) !! "a" = Some b ∧ isFile b = Some true)).
Proof.
  apply (added_and_removed_rules saw_file "a" None 0).
  - by eexists.
  - vm_compute. apply elem_of_cons. by left.
Defined.

End FsCacheMoreFacts.


(* ===================================================================== *)
(** ** More of diff.js *)
(* ===================================================================== *)

Section GraphDiffMoreFacts.
Import GraphDiff.

(** [forEach] visits each key once, so a list it fills repeats no key. *)
Lemma forEach_push_sublist (m : snapshot) test :
  sublist (forEach_push m test) (map_to_list m).*1.
Proof.
  unfold forEach_push. induction (map_to_list m) as [|[k v] l IH]; simpl; [done|].
  destruct (test v k); [by apply sublist_skip|by apply sublist_cons].
Qed.

Lemma NoDup_forEach_push (m : snapshot) test : NoDup (forEach_push m test).
Proof.
  apply (sublist_NoDup _ _ (NoDup_fst_map_to_list m)), forEach_push_sublist.
Qed.

Lemma forEach_push_nil (m : snapshot) test :
  (∀ key v, m !! key = Some v → test v key = false) → forEach_push m test = [].
Proof.
  intros H. apply elem_of_nil_inv. intros key.
  rewrite elem_of_forEach_push. intros (v & Hv & Ht). rewrite (H _ _ Hv) in Ht.
  discriminate.
Qed.

(** The three lists of a diff, as the code has them.
    [getNewNodesFromDiff] lists, each once, the keys that [to] has and
    [from] has not; [getPrunedNodesFromDiff] lists, each once, the keys
    that [from] has and [to] has not, so the pruned nodes of a diff are the
    new nodes of the diff read backwards; [getChangedNodes] lists, each
    once, the keys that both snapshots have, whose value in [from] is
    truthy and differs from the value in [to]. *)
Theorem diff_lists_as_coded (d : Diff) :
  NoDup (getNewNodesFromDiff d) ∧
  NoDup (getPrunedNodesFromDiff d) ∧
  NoDup (getChangedNodes d) ∧
  (∀ key, key ∈ getNewNodesFromDiff d
          ↔ is_Some (to d !! key) ∧ from d !! key = None) ∧
  (∀ key, key ∈ getPrunedNodesFromDiff d
          ↔ is_Some (from d !! key) ∧ to d !! key = None) ∧
  getPrunedNodesFromDiff d = getNewNodesFromDiff (mkDiff (to d) (from d)) ∧
  ∀ key,
    key ∈ getChangedNodes d ↔
    ∃ toValue fromValue,
      to d !! key = Some toValue ∧ from d !! key = Some fromValue ∧
      truthy fromValue = true ∧ toValue ≠ fromValue.
Proof.
  split; [apply NoDup_forEach_push|]. split; [apply NoDup_forEach_push|].
  split; [apply NoDup_forEach_push|].
  split; [apply elem_of_getNewNodesFromDiff|].
  split; [apply elem_of_getPrunedNodesFromDiff|]. split; [reflexivity|].
  apply elem_of_getChangedNodes.
Qed.

(** No key is reported twice: the new, the pruned and the changed nodes of
    a diff have no key in common. *)
Theorem diff_lists_are_disjoint (d : Diff) key :
  ¬ (key ∈ getNewNodesFromDiff d ∧ key ∈ getPrunedNodesFromDiff d) ∧
  ¬ (key ∈ getNewNodesFromDiff d ∧ key ∈ getChangedNodes d) ∧
  ¬ (key ∈ getPrunedNodesFromDiff d ∧ key ∈ getChangedNodes d).
Proof.
  rewrite elem_of_getNewNodesFromDiff, elem_of_getPrunedNodesFromDiff,
    elem_of_getChangedNodes.
  split; [|split].
  - intros [[_ Hn] [[v Hv] _]]. congruence.
  - intros [[_ Hn] (tv & fv & _ & Hv & _)]. congruence.
  - intros [[_ Hn] (tv & fv & Hv & _)]. congruence.
Qed.

(** The diff of a snapshot with itself reports nothing. *)
Theorem diff_of_equal_snapshots_is_empty (m : snapshot) :
  getNewNodesFromDiff (mkDiff m m) = [] ∧
  getPrunedNodesFromDiff (mkDiff m m) = [] ∧
  getChangedNodes (mkDiff m m) = [].
Proof.
  split; [|split]; apply forEach_push_nil; intros key v Hv; simpl in *.
  - unfold has. by rewrite Hv, bool_decide_true.
  - unfold has. by rewrite Hv, bool_decide_true.
  - unfold get. rewrite Hv. simpl.
    rewrite (proj2 (is_eq v v) eq_refl). apply andb_false_r.
Qed.

(** Merging two diffs that follow one another ([d1] ends where [d2]
    starts) invents nothing: a node new in the merged diff is new in one
    of the two, a node pruned in it is pruned in one of the two, and a node
    changed in it is changed in one of the two or was pruned by the first
    and added again by the second. *)
Theorem mergeDiffs_reports_no_more (d1 d2 : Diff) key :
  to d1 = from d2 →
  (key ∈ getNewNodesFromDiff (mergeDiffs d1 d2) →
   key ∈ getNewNodesFromDiff d1 ∨ key ∈ getNewNodesFromDiff d2) ∧
  (key ∈ getPrunedNodesFromDiff (mergeDiffs d1 d2) →
   key ∈ getPrunedNodesFromDiff d1 ∨ key ∈ getPrunedNodesFromDiff d2) ∧
  (key ∈ getChangedNodes (mergeDiffs d1 d2) →
   key ∈ getChangedNodes d1 ∨ key ∈ getChangedNodes d2 ∨
   (key ∈ getPrunedNodesFromDiff d1 ∧ key ∈ getNewNodesFromDiff d2)).
Proof.
  intros Hadj.
  rewrite !elem_of_getNewNodesFromDiff, !elem_of_getPrunedNodesFromDiff,
    !elem_of_getChangedNodes.
  simpl. rewrite Hadj. split; [|split].
  - intros [Hto Hfrom]. destruct (from d2 !! key) as [mv|] eqn:E; eauto.
  - intros [Hfrom Hto]. destruct (from d2 !! key) as [mv|] eqn:E; eauto.
  - intros (tv & fv & Hto & Hfrom & Htr & Hne).
    destruct (from d2 !! key) as [mv|] eqn:E.
    + destruct (is_ mv fv) eqn:Hmv.
      * apply is_eq in Hmv as ->. right. left. by exists tv, fv.
      * apply is_neq in Hmv. left. by exists mv, fv.
    + right. right. eauto.
Qed.

Lemma mergeDiffs_reports_no_more_witness :
  (("b" ∈ getNewNodesFromDiff
            (mergeDiffs (mkDiff {["a" := JNum 1]} {["a" := JNum 2]})
               (mkDiff {["a" := JNum 2]} (<["b" := JNum 3]> {["a" := JNum 2]}))) →
    "b" ∈ getNewNodesFromDiff (mkDiff {["a" := JNum 1]} {["a" := JNum 2]})
    ∨ "b" ∈ getNewNodesFromDiff
              (mkDiff {["a" := JNum 2]} (<["b" := JNum 3]> {["a" := JNum 2]}))) ∧
   ("b" ∈ getPrunedNodesFromDiff
            (mergeDiffs (mkDiff {["a" := JNum 1]} {["a" := JNum 2]})
               (mkDiff {["a" := JNum 2]} (<["b" := JNum 3]> {["a" := JNum 2]}))) →
    "b" ∈ getPrunedNodesFromDiff (mkDiff {["a" := JNum 1]} {["a" := JNum 2]})
    ∨ "b" ∈ getPrunedNodesFromDiff
              (mkDiff {["a" := JNum 2]} (<["b" := JNum 3]> {["a" := JNum 2]}))) ∧
   ("b" ∈ getChangedNodes
            (mergeDiffs (mkDiff {["a" := JNum 1]} {["a" := JNum 2]})
               (mkDiff {["a" := JNum 2]} (<["b" := JNum 3]> {["a" := JNum 2]}))) →
    "b" ∈ getChangedNodes (mkDiff {["a" := JNum 1]} {["a" := JNum 2]})
    ∨ "b" ∈ getChangedNodes
              (mkDiff {["a" := JNum 2]} (<["b" := JNum 3]> {["a" := JNum 2]}))
    ∨ ("b" ∈ getPrunedNodesFromDiff (mkDiff {["a" := JNum 1]} {["a" := JNum 2]})
       ∧ "b" ∈ getNewNodesFromDiff
                 (mkDiff {["a" := JNum 2]} (<["b" := JNum 3]> {["a" := JNum 2]}))))).
Proof.
  apply (mergeDiffs_reports_no_more
           (mkDiff {["a" := JNum 1]} {["a" := JNum 2]})
           (mkDiff {["a" := JNum 2]} (<["b" := JNum 3]> {["a" := JNum 2]})) "b").
  reflexivity.
Defined.

End GraphDiffMoreFacts.

(* ===================================================================== *)
(** ** Properties of cloneWithoutUnderscoreProps *)
(* ===================================================================== *)

Section AstCloneFacts.
Import AstClone.

Local Abbreviation clone := cloneWithoutUnderscoreProps.

Lemma index_key_startsWith i : startsWith (index_key i) "_" = false.
Proof. unfold index_key, DecimalString.NilZero.string_of_uint. by destruct (Nat.to_uint i). Qed.

Lemma index_key_inj i j : index_key i = index_key j → i = j.
Proof.
  unfold index_key. intros Heq. apply DecimalNat.Unsigned.to_uint_inj.
  assert (∀ n, Nat.to_uint n ≠ Decimal.Nil) as Hnn.
  { intros n. rewrite <- (DecimalNat.Unsigned.of_to n), DecimalNat.Unsigned.to_of. apply DecimalFacts.unorm_nonnil. }
  pose proof (DecimalString.NilZero.usu _ (Hnn i)) as Hi.
  pose proof (DecimalString.NilZero.usu _ (Hnn j)) as Hj.
  rewrite Heq in Hi. congruence.
Qed.

Lemma index_key_length i : index_key i ≠ "length".
Proof.
  unfold index_key, DecimalString.NilZero.string_of_uint.
  by destruct (Nat.to_uint i).
Qed.

Lemma String_eqb_eq' (a b : string) : String.eqb a b = bool_decide (a = b).
Proof.
  destruct (String.eqb_spec a b); [by rewrite bool_decide_true|by rewrite bool_decide_false].
Qed.

(** **** Properties and accumulators *)

Lemma prop_get_None key props : prop_get key props = None ↔ key ∉ props.*1.
Proof.
  induction props as [|[k v] props IH]; simpl.
  - split; [intros _; apply not_elem_of_nil|done].
  - rewrite String_eqb_eq'. case_bool_decide as Hk.
    + subst. split; [done|]. intros Hn. destruct Hn. apply list_elem_of_here.
    + rewrite IH, not_elem_of_cons. split; [by intros ?; split; [congruence|]|by intros [_ ?]].
Qed.

Lemma prop_get_Some key props v :
  prop_get key props = Some v → (key, v) ∈ props.
Proof.
  induction props as [|[k w] props IH]; simpl; [done|].
  rewrite String_eqb_eq'. case_bool_decide as Hk.
  - intros [= ->]. subst. apply list_elem_of_here.
  - intros H. apply list_elem_of_further. by apply IH.
Qed.

Lemma prop_get_fmap (f : ast → ast) key props :
  prop_get key (map (λ kv, (kv.1, f kv.2)) props) = f <$> prop_get key props.
Proof.
  induction props as [|[k v] props IH]; simpl; [done|].
  by destruct (String.eqb k key).
Qed.

Lemma prop_set_fresh key value acc :
  key ∉ acc.*1 → prop_set key value acc = acc ++ [(key, value)].
Proof.
  induction acc as [|[k v] acc IH]; simpl; [done|].
  intros [Hk Hn]%not_elem_of_cons. rewrite String_eqb_eq', bool_decide_false by done.
  by rewrite IH.
Qed.

Lemma prop_set_present key value acc :
  key ∈ acc.*1 → (prop_set key value acc).*1 = acc.*1.
Proof.
  induction acc as [|[k v] acc IH]; simpl; [by intros ?%not_elem_of_nil|].
  rewrite String_eqb_eq'. case_bool_decide as Hk; [done|].
  intros [?|Hin]%elem_of_cons; [by subst|]. rewrite fmap_cons. f_equal. by apply IH.
Qed.

Lemma prop_set_NoDup key value acc :
  NoDup acc.*1 → NoDup (prop_set key value acc).*1.
Proof.
  intros Hnd. destruct (decide (key ∈ acc.*1)) as [Hin|Hnin].
  - by rewrite prop_set_present.
  - rewrite prop_set_fresh, fmap_app by done.
    apply NoDup_app. split; [done|]. split; [|apply NoDup_singleton].
    intros x Hx ->%list_elem_of_singleton. done.
Qed.

Lemma prop_set_Forall (P : string * ast → Prop) key value acc :
  Forall P acc → P (key, value) → (∀ k v, P (k, v) → k = key → P (k, value)) →
  Forall P (prop_set key value acc).
Proof.
  intros Hacc HP Hrep. induction Hacc as [|[k v] acc Hkv Hacc IH]; simpl.
  - by repeat constructor.
  - rewrite String_eqb_eq'. case_bool_decide as Hk.
    + subst. by constructor.
    + by constructor.
Qed.

(** The loop, over entries with keys of their own: what passes the test
    is appended, in order. *)
Lemma foldl_assign_distinct acc (l : list (string * ast)) :
  NoDup (acc.*1 ++ l.*1) →
  foldl (λ acc kv, assign acc kv.1 kv.2) acc l
  = acc ++ filter (λ kv, startsWith kv.1 "_" = false) l.
Proof.
  revert acc. induction l as [|[k v] l IH]; intros acc Hnd; simpl.
  - by rewrite app_nil_r.
  - apply NoDup_app in Hnd as (Hacc & Hdisj & Hl). simpl in Hl.
    apply NoDup_cons in Hl as [Hk Hl]. unfold assign at 2. simpl.
    assert (k ∉ acc.*1) as Hfresh.
    { intros Hin. apply (Hdisj _ Hin). apply list_elem_of_here. }
    rewrite filter_cons. simpl. destruct (startsWith k "_") eqn:Hs; simpl.
    + apply IH. apply NoDup_app.
      split; [done|]. split; [|done]. intros x Hx Hx'.
      apply (Hdisj _ Hx). by apply list_elem_of_further.
    + rewrite prop_set_fresh by done.
      rewrite IH.
      * by rewrite <- app_assoc.
      * rewrite fmap_app. simpl. rewrite <- app_assoc. simpl.
        apply NoDup_app. split; [done|]. split.
        -- intros x Hx Hx'. apply (Hdisj _ Hx). done.
        -- by apply NoDup_cons.
Qed.

Lemma filter_all {A} (P : A → Prop) `{∀ x, Decision (P x)} (l : list A) :
  Forall P l → filter P l = l.
Proof.
  induction 1 as [|x l Hx Hl IH]; [done|].
  by rewrite filter_cons, decide_True, IH.
Qed.

Lemma chars_NStr s x : x ∈ chars s → ∃ c, x = NStr c.
Proof.
  induction s as [|c s IH]; simpl; [by intros ?%not_elem_of_nil|].
  intros [->|Hin]%elem_of_cons; [by eexists|by apply IH].
Qed.

(** **** The function as the source writes it *)

Lemma clone_NArr items : clone (NArr items) = NArr (map cloned_value items).
Proof. reflexivity. Qed.

Lemma clone_NObj props :
  clone (NObj props)
  = NObj (foldl (λ acc kv, assign acc kv.1 kv.2) []
            (forEach_entries (NObj (map (λ kv, (kv.1, cloned_value kv.2)) props)))).
Proof. reflexivity. Qed.

Lemma cloned_value_prim v : isObject v = false → cloned_value v = v.
Proof. unfold cloned_value. by intros ->. Qed.

Lemma isLength_cloned_value o : isLength (cloned_value <$> o) = isLength o.
Proof. destruct o as [[| | | | | |]|]; done. Qed.

Lemma forEach_entries_cloned props :
  forEach_entries (NObj (map (λ kv, (kv.1, cloned_value kv.2)) props))
  = (λ kv, (kv.1, cloned_value kv.2)) <$> forEach_entries (NObj props).
Proof.
  simpl. rewrite prop_get_fmap, isLength_cloned_value.
  destruct (isLength (prop_get "length" props)) as [len|]; [|done].
  rewrite <- list_fmap_compose. apply list_fmap_ext. intros i j _. simpl.
  rewrite prop_get_fmap. by destruct (prop_get (index_key j) props).
Qed.

Lemma index_entries_keys (l : list ast) :
  (imap (λ i x, (index_key i, x)) l).*1 = index_key <$> seq 0 (length l).
Proof.
  rewrite fmap_imap. apply (imap_seq_0 l index_key).
Qed.

Lemma index_entries_values (l : list ast) :
  (imap (λ i x, (index_key i, x)) l).*2 = l.
Proof.
  rewrite fmap_imap. rewrite (imap_const id). apply list_fmap_id.
Qed.

Lemma NoDup_index_keys n : NoDup (index_key <$> seq 0 n).
Proof.
  apply NoDup_fmap_2_strong; [|apply NoDup_seq].
  intros i j _ _. apply index_key_inj.
Qed.

(** The loop over the entries of an array or of a string: every entry is
    assigned, at its index. *)
Lemma foldl_assign_indexed (l : list ast) :
  foldl (λ acc kv, assign acc kv.1 kv.2) [] (imap (λ i x, (index_key i, x)) l)
  = imap (λ i x, (index_key i, x)) l.
Proof.
  rewrite foldl_assign_distinct.
  - simpl. apply filter_all. apply Forall_forall.
    intros kv (i & x & -> & _)%elem_of_lookup_imap. apply index_key_startsWith.
  - simpl. rewrite index_entries_keys. apply NoDup_index_keys.
Qed.

(** [cloneWithoutUnderscoreProps] satisfies the equation that the source
    gives for it: an empty accumulator, an array for an array; then, for
    each entry of [forEach] whose key does not start with an underscore,
    the clone of the value when the value is an object and the value
    itself when not, assigned under the key. *)
Lemma cloneWithoutUnderscoreProps_eq (node : ast) :
  clone node
  = finish (isArray node)
      (foldl (λ accumulator kv,
                if negb (startsWith kv.1 "_") then
                  if isObject kv.2
                  then prop_set kv.1 (clone kv.2) accumulator
                  else prop_set kv.1 kv.2 accumulator
                else accumulator)
         [] (forEach_entries node)).
Proof.
  assert (∀ l : list (string * ast),
    foldl (λ accumulator kv,
             if negb (startsWith kv.1 "_") then
               if isObject kv.2
               then prop_set kv.1 (clone kv.2) accumulator
               else prop_set kv.1 kv.2 accumulator
             else accumulator) [] l
    = foldl (λ acc kv, assign acc kv.1 kv.2) []
        ((λ kv, (kv.1, cloned_value kv.2)) <$> l)) as Hfold.
  { intros l. rewrite foldl_fmap. generalize (@nil (string * ast)).
    induction l as [|[k v] l IH]; intros acc; simpl; [done|].
    rewrite IH. f_equal. unfold assign, cloned_value.
    by destruct (startsWith k "_"), (isObject v). }
  rewrite Hfold. destruct node as [| | | |s|items|props]; try done.
  - assert ((λ kv, (kv.1, cloned_value kv.2)) <$> forEach_entries (NStr s)
            = forEach_entries (NStr s)) as ->; [|done].
    simpl forEach_entries.
    transitivity (id <$> imap (λ i x, (index_key i, x)) (chars s));
      [|by rewrite list_fmap_id].
    apply list_fmap_ext. intros j [k v] Hkv.
    apply list_elem_of_lookup_2, elem_of_lookup_imap in Hkv
      as (i & x & [= -> ->] & Hx).
    apply list_elem_of_lookup_2, chars_NStr in Hx as [c ->]. done.
  - rewrite clone_NArr. unfold finish. simpl isArray. cbv iota. f_equal.
    simpl forEach_entries.
    assert ((λ kv, (kv.1, cloned_value kv.2)) <$> imap (λ i x, (index_key i, x)) items
            = imap (λ i x, (index_key i, x)) (cloned_value <$> items)) as ->.
    { by rewrite fmap_imap, imap_fmap. }
    by rewrite foldl_assign_indexed, index_entries_values.
  - rewrite clone_NObj, forEach_entries_cloned. done.
Qed.

(** **** The result has no underscore property *)

Lemma clean_NObj props :
  clean (NObj props) = true
  ↔ Forall (λ kv, startsWith kv.1 "_" = false ∧ clean kv.2 = true) props.
Proof.
  simpl. rewrite forallb_forall, Forall_forall. split; intros H kv Hkv.
  - apply list_elem_of_In, H, andb_true_iff in Hkv as [Hk Hv].
    by apply negb_true_iff in Hk.
  - apply list_elem_of_In, H in Hkv as [Hk Hv]. by rewrite Hk, Hv.
Qed.

Lemma clean_NArr items : clean (NArr items) = true ↔ Forall (λ v, clean v = true) items.
Proof.
  simpl. rewrite forallb_forall, Forall_forall. split; intros H v Hv.
  - by apply list_elem_of_In, H in Hv.
  - by apply list_elem_of_In, H in Hv.
Qed.

Lemma foldl_assign_clean acc (l : list (string * ast)) :
  Forall (λ kv, startsWith kv.1 "_" = false ∧ clean kv.2 = true) acc →
  Forall (λ kv, clean kv.2 = true) l →
  Forall (λ kv, startsWith kv.1 "_" = false ∧ clean kv.2 = true)
    (foldl (λ acc kv, assign acc kv.1 kv.2) acc l).
Proof.
  intros Hacc Hl. revert acc Hacc.
  induction Hl as [|[k v] l Hv Hl IH]; intros acc Hacc; simpl; [done|].
  apply IH. unfold assign. destruct (startsWith k "_") eqn:Hs; simpl; [done|].
  apply prop_set_Forall; [done|done|]. simpl. intros k' v' [Hk' _] _. done.
Qed.

Lemma forEach_entries_Forall (P : ast → Prop) v :
  P NUndefined → (∀ s, P (NStr s)) →
  match v with
  | NArr items => Forall P items
  | NObj props => Forall (λ kv, P kv.2) props
  | _ => True
  end →
  Forall (λ kv, P kv.2) (forEach_entries v).
Proof.
  intros Hu Hs Hv. destruct v as [| | | |s|items|props]; simpl; try done.
  - apply Forall_forall. intros kv (i & x & -> & Hx)%elem_of_lookup_imap. simpl.
    apply list_elem_of_lookup_2, chars_NStr in Hx as [c ->]. apply Hs.
  - apply Forall_forall. intros kv (i & x & -> & Hx)%elem_of_lookup_imap. simpl.
    rewrite Forall_forall in Hv. apply Hv. by apply list_elem_of_lookup_2 in Hx.
  - destruct (isLength (prop_get "length" props)) as [len|]; [|done].
    apply Forall_forall. intros kv (i & -> & _)%list_elem_of_fmap. simpl.
    destruct (prop_get (index_key i) props) as [x|] eqn:E; simpl; [|done].
    apply prop_get_Some in E. rewrite Forall_forall in Hv. by apply (Hv _ E).
Qed.

(** The clone has no property, at any depth, whose name starts with an
    underscore, whatever the node is. *)
Theorem clone_has_no_underscore_props (node : ast) :
  isObject (clone node) = true ∧ clean (clone node) = true.
Proof.
  split; [by destruct node|].
  induction node as [| | | |s|items IH|props IH] using ast_nested_ind; try done.
  - apply clean_NObj. apply foldl_assign_clean; [done|].
    by apply (forEach_entries_Forall (λ v, clean v = true) (NStr s)).
  - rewrite clone_NArr. apply clean_NArr. apply Forall_fmap.
    eapply Forall_impl; [exact IH|]. intros v Hv. unfold cloned_value. simpl.
    by destruct v.
  - rewrite clone_NObj. apply clean_NObj. apply foldl_assign_clean; [done|].
    apply (forEach_entries_Forall (λ v, clean v = true) (NObj _)); [done|done|].
    apply Forall_fmap. eapply Forall_impl; [exact IH|]. intros [k v] Hv.
    unfold cloned_value. simpl in *. by destruct v.
Qed.

(** **** What the function leaves as it is *)

Lemma foldr_and_Forall {A} (Q : A → Prop) l :
  foldr (λ x P, Q x ∧ P) True l ↔ Forall Q l.
Proof.
  induction l as [|x l IH]; simpl; [by split|]. rewrite IH. split.
  - intros [? ?]. by constructor.
  - by intros [? ?]%Forall_cons.
Qed.

Lemma plain_NArr items : plain (NArr items) ↔ Forall plain items.
Proof. apply (foldr_and_Forall plain). Qed.

Lemma plain_NObj props :
  plain (NObj props)
  ↔ NoDup props.*1 ∧ isLength (prop_get "length" props) = None ∧
    Forall (λ kv, startsWith kv.1 "_" = false ∧ plain kv.2) props.
Proof.
  simpl.
  by rewrite (foldr_and_Forall (λ kv, startsWith kv.1 "_" = false ∧ plain kv.2)).
Qed.

Lemma distinct_keys_NArr items : distinct_keys (NArr items) ↔ Forall distinct_keys items.
Proof. apply (foldr_and_Forall distinct_keys). Qed.

Lemma distinct_keys_NObj props :
  distinct_keys (NObj props)
  ↔ NoDup props.*1 ∧ Forall (λ kv, distinct_keys kv.2) props.
Proof.
  simpl. by rewrite (foldr_and_Forall (λ kv, distinct_keys kv.2)).
Qed.

(** The loop over the entries of an object whose names differ. *)
Lemma foldl_assign_props (props : list (string * ast)) :
  NoDup props.*1 →
  foldl (λ acc kv, assign acc kv.1 kv.2) [] props
  = filter (λ kv, startsWith kv.1 "_" = false) props.
Proof. intros Hnd. by rewrite foldl_assign_distinct. Qed.

(** The loop over the entries of an object that is read as an array. *)
Lemma foldl_assign_array_like (f : nat → ast) len :
  foldl (λ acc kv, assign acc kv.1 kv.2) [] ((λ i, (index_key i, f i)) <$> seq 0 len)
  = (λ i, (index_key i, f i)) <$> seq 0 len.
Proof.
  rewrite foldl_assign_distinct.
  - simpl. apply filter_all. apply Forall_forall.
    intros kv (i & -> & _)%list_elem_of_fmap. apply index_key_startsWith.
  - simpl. rewrite <- list_fmap_compose. apply NoDup_index_keys.
Qed.

Lemma clone_plain (node : ast) :
  isObject node = true → plain node → clone node = node.
Proof.
  intros Hobj Hplain.
  induction node as [| | | |s|items IH|props IH] using ast_nested_ind; try done.
  - rewrite clone_NArr. f_equal. apply plain_NArr in Hplain.
    transitivity (id <$> items); [|apply list_fmap_id].
    apply list_fmap_ext. intros i x Hx. apply list_elem_of_lookup_2 in Hx.
    rewrite Forall_forall in IH, Hplain. unfold cloned_value.
    destruct (isObject x) eqn:E; [|done]. apply IH; [done|done|by apply Hplain].
  - apply plain_NObj in Hplain as (Hnd & Hlen & Hall).
    assert (map (λ kv, (kv.1, cloned_value kv.2)) props = props) as Hsame.
    { transitivity (id <$> props); [|apply list_fmap_id].
      apply list_fmap_ext. intros i [k x] Hx. apply list_elem_of_lookup_2 in Hx.
      rewrite Forall_forall in IH, Hall. simpl. f_equal. unfold cloned_value.
      destruct (isObject x) eqn:E; [|done].
      apply (IH _ Hx); [done|]. by apply (Hall _ Hx). }
    rewrite clone_NObj, Hsame. simpl forEach_entries. rewrite Hlen.
    rewrite foldl_assign_props by done. f_equal. apply filter_all.
    eapply Forall_impl; [exact Hall|]. by intros kv [? _].
Qed.

Lemma prop_get_filter key (l : list (string * ast)) :
  startsWith key "_" = false →
  prop_get key (filter (λ kv, startsWith kv.1 "_" = false) l) = prop_get key l.
Proof.
  intros Hkey. induction l as [|[k v] l IH]; [done|].
  rewrite filter_cons. simpl. destruct (startsWith k "_") eqn:Hk; simpl.
  - rewrite String_eqb_eq', bool_decide_false; [done|]. congruence.
  - by rewrite IH.
Qed.

Lemma clone_NObj_array_like props len :
  isLength (prop_get "length" props) = Some len →
  clone (NObj props)
  = NObj ((λ i, (index_key i,
                 cloned_value (default NUndefined (prop_get (index_key i) props))))
            <$> seq 0 len).
Proof.
  intros Hlen. rewrite clone_NObj, forEach_entries_cloned.
  simpl forEach_entries. rewrite Hlen, <- list_fmap_compose.
  apply (f_equal NObj).
  apply (foldl_assign_array_like
           (λ i, cloned_value (default NUndefined (prop_get (index_key i) props)))).
Qed.

(** An object that has a [length] that [isLength] accepts is read as an
    array: its clone has the properties ["0"] to [length - 1], with
    [undefined] where the object has none of that name, and no other
    property; what the object has under other names is lost. *)
Theorem array_like_object_is_read_as_array props len :
  isLength (prop_get "length" props) = Some len →
  clone (NObj props)
  = NObj ((λ i, (index_key i,
                 cloned_value (default NUndefined (prop_get (index_key i) props))))
            <$> seq 0 len) ∧
  ∀ key, prop_get key (match clone (NObj props) with NObj ps => ps | _ => [] end)
         ≠ None → ∃ i, (i < len)%nat ∧ key = index_key i.
Proof.
  intros Hlen. rewrite (clone_NObj_array_like _ _ Hlen). split; [done|].
  intros key Hkey. destruct (prop_get key _) as [x|] eqn:E; [|done].
  apply prop_get_Some, list_elem_of_fmap in E as (i & [= -> _] & Hi).
  exists i. split; [|done]. apply elem_of_seq in Hi. lia.
Qed.

Lemma array_like_object_is_read_as_array_witness :
  clone (NObj [("type", NStr "Identifier"); ("length", NNum 1)])
  = NObj ((λ i, (index_key i,
                 cloned_value
                   (default NUndefined
                      (prop_get (index_key i)
                         [("type", NStr "Identifier"); ("length", NNum 1)]))))
            <$> seq 0 1) ∧
  ∀ key, prop_get key
           (match clone (NObj [("type", NStr "Identifier"); ("length", NNum 1)]) with
            | NObj ps => ps
            | _ => []
            end) ≠ None → ∃ i, (i < 1)%nat ∧ key = index_key i.
Proof.
  apply (array_like_object_is_read_as_array
           [("type", NStr "Identifier"); ("length", NNum 1)] 1).
  reflexivity.
Defined.

(** The clone of an object as JavaScript has it is plain. *)
Lemma plain_clone (node : ast) : distinct_keys node → plain (clone node).
Proof.
  assert (∀ l : list ast, plain (NObj (imap (λ i x, (index_key i, x)) l))
                          ↔ Forall plain l) as Hindexed.
  { intros l. rewrite plain_NObj, index_entries_keys. split.
    - intros (_ & _ & Hall). rewrite Forall_forall in Hall. apply Forall_forall.
      intros x (i & Hx)%list_elem_of_lookup_1.
      by apply (Hall (index_key i, x)), elem_of_lookup_imap; eauto.
    - intros Hall. split; [apply NoDup_index_keys|]. split.
      + assert (prop_get "length" (imap (λ i x, (index_key i, x)) l) = None) as ->;
          [|done].
        apply prop_get_None. rewrite index_entries_keys.
        intros (i & Hi & _)%list_elem_of_fmap. by apply (index_key_length i).
      + apply Forall_forall. intros kv (i & x & -> & Hx)%elem_of_lookup_imap.
        split; [apply index_key_startsWith|]. simpl.
        rewrite Forall_forall in Hall. apply list_elem_of_lookup_2 in Hx. by apply Hall. }
  induction node as [| | | |s|items IH|props IH] using ast_nested_ind; intros Hd;
    try (by repeat constructor).
  - change (clone (NStr s))
      with (NObj (foldl (λ acc kv, assign acc kv.1 kv.2) []
                    (imap (λ i x, (index_key i, x)) (chars s)))).
    rewrite foldl_assign_indexed. apply Hindexed. apply Forall_forall.
    by intros x [c ->]%chars_NStr.
  - rewrite clone_NArr. apply plain_NArr, Forall_fmap.
    apply distinct_keys_NArr in Hd.
    apply Forall_forall. intros x Hx. rewrite Forall_forall in IH, Hd.
    unfold cloned_value. simpl. destruct (isObject x) eqn:E.
    + by apply IH, Hd.
    + by destruct x.
  - apply distinct_keys_NObj in Hd as [Hnd Hd].
    assert (Forall (λ kv, plain kv.2) (map (λ kv, (kv.1, cloned_value kv.2)) props))
      as Hcloned.
    { apply Forall_fmap, Forall_forall. intros [k x] Hx.
      rewrite Forall_forall in IH, Hd. unfold cloned_value. simpl.
      destruct (isObject x) eqn:E.
      - by apply (IH _ Hx), (Hd _ Hx).
      - by destruct x. }
    destruct (isLength (prop_get "length" props)) as [len|] eqn:Hlen.
    + rewrite (clone_NObj_array_like _ _ Hlen).
      apply plain_NObj. rewrite <- list_fmap_compose. split; [apply NoDup_index_keys|].
      split.
      * match goal with |- isLength ?o = None => assert (o = None) as ->; [|done] end.
        apply prop_get_None. rewrite <- list_fmap_compose.
        intros (i & Hi & _)%list_elem_of_fmap. by apply (index_key_length i).
      * apply Forall_forall. intros kv (i & -> & _)%list_elem_of_fmap.
        split; [apply index_key_startsWith|]. simpl.
        destruct (prop_get (index_key i) props) as [x|] eqn:E; simpl; [|done].
        apply prop_get_Some in E. rewrite Forall_forall in Hcloned.
        apply (Hcloned (index_key i, cloned_value x)), list_elem_of_fmap.
        by exists (index_key i, x).
    + rewrite clone_NObj, forEach_entries_cloned. simpl forEach_entries.
      rewrite Hlen, foldl_assign_props
        by (rewrite <- list_fmap_compose; exact Hnd).
      apply plain_NObj. split; [|split].
      * apply (sublist_NoDup _ ((map (λ kv, (kv.1, cloned_value kv.2)) props).*1)).
        -- rewrite <- list_fmap_compose. exact Hnd.
        -- apply fmap_sublist, sublist_filter.
      * rewrite prop_get_filter by done.
        by rewrite prop_get_fmap, isLength_cloned_value.
      * apply Forall_forall. intros kv [Hk Hin]%list_elem_of_filter.
        split; [done|]. rewrite Forall_forall in Hcloned. by apply Hcloned.
Qed.

(** A tree without underscore properties, and without an object that is
    read as an array, is cloned as it is: the function removes the
    underscore properties and does nothing else. *)
Theorem clone_of_plain_is_equal (node : ast) :
  isObject node = true → plain node → clone node = node.
Proof. apply clone_plain. Qed.

Lemma clone_of_plain_is_equal_witness :
  clone (NObj [("type", NStr "Program"); ("body", NArr [NObj [("start", NNum 0)]])])
  = NObj [("type", NStr "Program"); ("body", NArr [NObj [("start", NNum 0)]])].
Proof.
  apply (clone_of_plain_is_equal
           (NObj [("type", NStr "Program"); ("body", NArr [NObj [("start", NNum 0)]])])).
  - reflexivity.
  - simpl.
    repeat first [ done | apply NoDup_nil_2 | apply not_elem_of_nil
                   | apply NoDup_cons; split | apply not_elem_of_cons; split | split ].
Defined.

(** Cloning twice is cloning once, for a tree whose objects are as
    JavaScript has them (no two properties of one name). *)
Theorem clone_is_idempotent (node : ast) :
  distinct_keys node → clone (clone node) = clone node.
Proof.
  intros Hd. apply clone_plain; [by destruct node|by apply plain_clone].
Qed.

Lemma clone_is_idempotent_witness :
  clone (clone (NObj [("_private", NNum 1); ("loc", NObj [("_raw", NNull)])]))
  = clone (NObj [("_private", NNum 1); ("loc", NObj [("_raw", NNull)])]).
Proof.
  apply (clone_is_idempotent
           (NObj [("_private", NNum 1); ("loc", NObj [("_raw", NNull)])])).
  simpl.
  repeat first [ done | apply NoDup_nil_2 | apply not_elem_of_nil
                 | apply NoDup_cons; split | apply not_elem_of_cons; split | split ].
Defined.

End AstCloneFacts.

(* ===================================================================== *)
(** ** Properties of the postcss dependency analysers *)
(* ===================================================================== *)

Section JsStringFacts.
Import JsString.

Lemma startsWith_iff s target : startsWith s target = true ↔ ∃ rest, s = target ++ rest.
Proof.
  revert s. induction target as [|t target IH]; intros s; simpl.
  - split; [intros _; by exists s|done].
  - destruct s as [|c s]; [split; [done|by intros [? ?]]|].
    rewrite andb_true_iff, Ascii.eqb_eq, IH. split.
    + intros [-> [rest ->]]. by exists rest.
    + intros [rest [= -> ->]]. split; [done|by exists rest].
Qed.

Lemma startsWith_app target rest : startsWith (target ++ rest) target = true.
Proof. apply startsWith_iff. by exists rest. Qed.

Lemma slice_from s (n : nat) : slice s (Z.of_nat n) None = drop n s.
Proof.
  unfold slice. rewrite (proj2 (Z.ltb_ge _ _)) by lia.
  destruct (decide (n ≤ length s)%nat) as [Hle|Hgt].
  - rewrite Z.min_l by lia. rewrite Nat2Z.id. apply take_ge.
    rewrite length_drop. lia.
  - rewrite Z.min_r by lia. rewrite Nat2Z.id, Z.sub_diag.
    by rewrite (drop_ge s n), (drop_ge s (length s)) by lia.
Qed.

Lemma slice_to s (n : nat) : slice s 0 (Some (Z.of_nat n)) = take n s.
Proof.
  unfold slice. cbv zeta. change (0 <? 0)%Z with false. cbv iota.
  rewrite (proj2 (Z.ltb_ge _ _)) by lia.
  rewrite (Z.min_l 0) by lia. change (Z.to_nat 0) with 0%nat.
  rewrite drop_0, Z.sub_0_r.
  destruct (decide (n ≤ length s)%nat) as [Hle|Hgt].
  - by rewrite Z.min_l, Nat2Z.id by lia.
  - rewrite Z.min_r, Nat2Z.id by lia. rewrite !take_ge by lia. done.
Qed.

(** [slice(0, -1)] drops the last code unit. *)
Lemma slice_to_minus_one s : slice s 0 (Some (-1)%Z) = take (length s - 1) s.
Proof.
  unfold slice. cbv zeta. change (0 <? 0)%Z with false.
  change (-1 <? 0)%Z with true. cbv iota.
  rewrite (Z.min_l 0) by lia. change (Z.to_nat 0) with 0%nat.
  rewrite drop_0, Z.sub_0_r. f_equal. lia.
Qed.

Lemma indexOf_absent s token : token ∉ s → indexOf s token = (-1)%Z.
Proof.
  induction s as [|c s IH]; simpl; [done|].
  intros [Hc Hs]%not_elem_of_cons.
  rewrite (proj2 (Ascii.eqb_neq c token)) by done. by rewrite IH.
Qed.

Lemma indexOf_first s token rest :
  token ∉ s → indexOf (s ++ token :: rest) token = Z.of_nat (length s).
Proof.
  induction s as [|c s IH]; simpl.
  - intros _. by rewrite Ascii.eqb_refl.
  - intros [Hc Hs]%not_elem_of_cons.
    rewrite (proj2 (Ascii.eqb_neq c token)) by done. rewrite IH by done.
    rewrite (proj2 (Z.ltb_ge _ _)) by lia. lia.
Qed.

End JsStringFacts.

Section ImportRuleFacts.
Import JsString Postcss PostcssAstDependencies.

Local Abbreviation getIdentifier := getDependencyIdentifierFromImportRule.

Lemma indexOf_cases s token :
  ((token ∉ s) ∧ indexOf s token = (-1)%Z)
  ∨ ∃ identifier rest,
      s = identifier ++ token :: rest ∧ (token ∉ identifier)
      ∧ indexOf s token = Z.of_nat (length identifier).
Proof.
  induction s as [|c s IH].
  - left. split; [apply not_elem_of_nil|done].
  - destruct (decide (c = token)) as [->|Hne].
    + right. exists [], s. split; [done|]. split; [apply not_elem_of_nil|].
      simpl. by rewrite Ascii.eqb_refl.
    + destruct IH as [[Hnin Hidx]|(identifier & rest & -> & Hnin & Hidx)].
      * left. split; [by apply not_elem_of_cons|].
        by apply indexOf_absent, not_elem_of_cons.
      * right. exists (c :: identifier), rest. split; [done|].
        assert (token ∉ c :: identifier) as Hn.
        { apply not_elem_of_cons. split; [congruence|done]. }
        split; [done|]. by apply (indexOf_first (c :: identifier)).
Qed.

Lemma quote_cases q :
  q = quote ∨ q = dquote →
  startsWith (q :: []) (str "url(") = false ∧
  (bool_decide (Some q = Some quote) = true
   ∨ (bool_decide (Some q = Some quote) = false
      ∧ bool_decide (Some q = Some dquote) = true)).
Proof. intros [->| ->]; split; try done; [by left|by right]. Qed.

(** The first test of the function can be left out: what it refuses, the
    test on the first code unit of the text refuses as well. *)
Lemma getIdentifier_eq rule :
  getIdentifier rule = identifier_in (behind_url (trim (params rule))).
Proof.
  unfold getDependencyIdentifierFromImportRule, behind_url.
  generalize (trim (params rule)). intros p.
  change (Z.of_nat (length (str "url("))) with (Z.of_nat 4). rewrite slice_from.
  destruct (startsWith p (str "url(")) eqn:Hurl; simpl negb; cbv iota.
  - rewrite andb_false_l. cbv zeta.
    destruct (drop 4 p) as [|q body] eqn:Hd; [done|]. simpl head.
    unfold identifier_in.
    change (slice (q :: body) 1 None) with (slice (q :: body) (Z.of_nat 1) None).
    rewrite slice_from. simpl drop.
    destruct (decide (q = quote)) as [->|Hq]; [done|].
    rewrite (bool_decide_false (Some q = Some quote)) by congruence.
    destruct (decide (q = dquote)) as [->|Hd']; [done|].
    rewrite (bool_decide_false (Some q = Some dquote)) by congruence.
    by rewrite bool_decide_false by (intros [?|?]; done).
  - rewrite andb_true_l. cbv zeta.
    destruct p as [|q body]; [done|]. simpl head. unfold identifier_in.
    change (slice (q :: body) 1 None) with (slice (q :: body) (Z.of_nat 1) None).
    rewrite slice_from. simpl drop.
    destruct (decide (q = quote)) as [->|Hq]; [done|].
    rewrite (bool_decide_false (Some q = Some quote)) by congruence.
    destruct (decide (q = dquote)) as [->|Hd']; [done|].
    rewrite (bool_decide_false (Some q = Some dquote)) by congruence.
    rewrite bool_decide_false by (intros [?|?]; done).
    by destruct (negb _ && negb _).
Qed.

Lemma compiler_getIdentifier_eq rule :
  CompilerPostcssAstDependencies.getDependencyIdentifierFromImportRule rule
  = identifier_in (behind_url (trim (params rule))).
Proof.
  unfold CompilerPostcssAstDependencies.getDependencyIdentifierFromImportRule,
    CompilerPostcssAstDependencies.strict_equal_boolean_string, behind_url.
  generalize (trim (params rule)). intros p.
  rewrite !andb_false_r. cbv iota zeta.
  change (Z.of_nat (length (str "url("))) with (Z.of_nat 4). rewrite slice_from.
  destruct (if startsWith p (str "url(") then drop 4 p else p) as [|q body];
    [done|].
  simpl head. unfold identifier_in.
  change (slice (q :: body) 1 None) with (slice (q :: body) (Z.of_nat 1) None).
  rewrite slice_from. simpl drop.
  destruct (decide (q = quote)) as [->|Hq]; [done|].
  rewrite (bool_decide_false (Some q = Some quote)) by congruence.
  destruct (decide (q = dquote)) as [->|Hd']; [done|].
  rewrite (bool_decide_false (Some q = Some dquote)) by congruence.
  by rewrite bool_decide_false by (intros [?|?]; done).
Qed.

(** The two versions of [getDependencyIdentifierFromImportRule] return
    the same identifier, and throw, on the same rules: the first test of
    the version of [compiler/], which never refuses a rule ([!params[0]
    === ...] compares a boolean with a string), lets through what the
    test on the first code unit of the text then refuses. *)
Theorem import_rule_versions_agree rule :
  CompilerPostcssAstDependencies.getDependencyIdentifierFromImportRule rule
  = getIdentifier rule.
Proof. by rewrite compiler_getIdentifier_eq, getIdentifier_eq. Qed.

(** A quoted identifier, after an optional [url(]: the function returns
    what stands between the opening quote and the first quote of the same
    kind behind it, when that is not blank; what follows the closing quote
    (the closing parenthesis, a media query) does not matter. *)
Theorem import_identifier_between_quotes rule q identifier rest :
  q = quote ∨ q = dquote →
  q ∉ identifier →
  trim identifier ≠ [] →
  trim (params rule) = q :: identifier ++ q :: rest
  ∨ trim (params rule) = str "url(" ++ q :: identifier ++ q :: rest →
  getIdentifier rule = Returns identifier.
Proof.
  intros Hq Hnin Hblank Hparams. rewrite getIdentifier_eq.
  assert (behind_url (trim (params rule)) = q :: identifier ++ q :: rest) as ->.
  { unfold behind_url. destruct Hparams as [-> | ->].
    - by destruct Hq as [-> | ->].
    - by rewrite startsWith_app. }
  unfold identifier_in. rewrite bool_decide_true by done. cbv zeta.
  rewrite indexOf_first, slice_to, take_app_length by done.
  by rewrite bool_decide_false.
Qed.

(** An opening quote that is never closed: [indexOf] answers [-1], and
    [slice(0, -1)] takes all but the last code unit.  The function does
    not refuse the rule; it returns the text behind the quote without its
    last code unit, when that is not blank. *)
Theorem import_identifier_of_unclosed_quote rule q body :
  q = quote ∨ q = dquote →
  q ∉ body →
  trim (params rule) = q :: body ∨ trim (params rule) = str "url(" ++ q :: body →
  getIdentifier rule
  = if bool_decide (trim (take (length body - 1) body) = [])
    then throwMalformedImport
    else Returns (take (length body - 1) body).
Proof.
  intros Hq Hnin Hparams. rewrite getIdentifier_eq.
  assert (behind_url (trim (params rule)) = q :: body) as ->.
  { unfold behind_url. destruct Hparams as [-> | ->].
    - by destruct Hq as [-> | ->].
    - by rewrite startsWith_app. }
  unfold identifier_in. rewrite bool_decide_true by done. cbv zeta.
  by rewrite indexOf_absent, slice_to_minus_one by done.
Qed.

(** Without a quote in front of the identifier, straight away or behind
    [url(], the rule is refused. *)
Theorem import_without_quote_is_malformed rule :
  head (behind_url (trim (params rule))) ≠ Some quote →
  head (behind_url (trim (params rule))) ≠ Some dquote →
  getIdentifier rule = throwMalformedImport.
Proof.
  intros Hq Hdq. rewrite getIdentifier_eq.
  destruct (behind_url (trim (params rule))) as [|q body]; [done|].
  unfold identifier_in. rewrite bool_decide_false; [done|].
  simpl in Hq, Hdq. intros [-> | ->]; done.
Qed.

(** What the function returns is never blank, holds no quote of the kind
    that opened it, and stands in the trimmed parameters right behind the
    opening quote. *)
Theorem import_identifier_returned rule identifier :
  getIdentifier rule = Returns identifier →
  trim identifier ≠ [] ∧
  ∃ q rest,
    (q = quote ∨ q = dquote) ∧ (q ∉ identifier) ∧
    (trim (params rule) = q :: identifier ++ rest
     ∨ trim (params rule) = str "url(" ++ q :: identifier ++ rest).
Proof.
  rewrite getIdentifier_eq.
  assert (∀ p, ∃ pre, (pre = [] ∨ pre = str "url(") ∧ p = pre ++ behind_url p)
    as Hpre.
  { intros p. unfold behind_url. destruct (startsWith p (str "url(")) eqn:E.
    - apply startsWith_iff in E as [rest ->]. exists (str "url("). auto.
    - exists []. auto. }
  destruct (Hpre (trim (params rule))) as (pre & Hpre' & Hp). clear Hpre.
  remember (behind_url (trim (params rule))) as text eqn:Ht. rewrite Hp.
  clear Ht Hp. destruct text as [|q body]; [done|].
  unfold identifier_in. case_bool_decide as Hq; [|done]. cbv zeta.
  case_bool_decide as Hblank; [done|]. intros [= <-]. split; [done|].
  destruct (indexOf_cases body q) as [[Hnin ->]|(x & rest & -> & Hnin & ->)].
  - rewrite slice_to_minus_one. exists q, (drop (length body - 1) body).
    split; [done|]. split.
    + rewrite <- (take_drop (length body - 1) body) in Hnin.
      by apply not_elem_of_app in Hnin as [? _].
    + rewrite take_drop. destruct Hpre' as [-> | ->]; auto.
  - rewrite slice_to, take_app_length. exists q, (q :: rest).
    split; [done|]. split; [done|]. destruct Hpre' as [-> | ->]; auto.
Qed.

Lemma import_identifier_between_quotes_witness :
  getIdentifier import_fineprint = Returns (str "fineprint.css").
Proof.
  apply (import_identifier_between_quotes import_fineprint dquote
           (str "fineprint.css") (str ") print")).
  - by right.
  - apply (bool_decide_unpack _). by vm_compute.
  - by vm_compute.
  - right. by vm_compute.
Defined.

Lemma import_identifier_of_unclosed_quote_witness :
  getIdentifier import_unclosed
  = if bool_decide
         (trim (take (length (str "theme.css") - 1) (str "theme.css")) = [])
    then throwMalformedImport
    else Returns (take (length (str "theme.css") - 1) (str "theme.css")).
Proof.
  apply (import_identifier_of_unclosed_quote import_unclosed quote (str "theme.css")).
  - by left.
  - apply (bool_decide_unpack _). by vm_compute.
  - left. by vm_compute.
Defined.

(** [@import 'theme.css] gives [theme.cs]. *)
Example import_unclosed_identifier :
  getIdentifier import_unclosed = Returns (str "theme.cs").
Proof. by vm_compute. Qed.

Lemma import_without_quote_is_malformed_witness :
  getIdentifier import_unquoted = throwMalformedImport.
Proof.
  apply (import_without_quote_is_malformed import_unquoted); by vm_compute.
Defined.

Lemma import_identifier_returned_witness :
  trim (str "custom.css") ≠ [] ∧
  ∃ q rest,
    (q = quote ∨ q = dquote) ∧ (q ∉ str "custom.css") ∧
    (trim (params import_custom) = q :: str "custom.css" ++ rest
     ∨ trim (params import_custom) = str "url(" ++ q :: str "custom.css" ++ rest).
Proof.
  apply (import_identifier_returned import_custom (str "custom.css")).
  by vm_compute.
Defined.

End ImportRuleFacts.

Section DependencyListFacts.
Import JsString Postcss.

(** A walk runs its callback on the nodes in walk order. *)
Lemma walk_node_each {S} (callback : S → css → Result S) node state :
  walk_node callback node state = each callback (in_walk_order node) state.
Proof.
  revert state.
  induction node as [rule nodes IH|selector nodes IH|decl|text]
    using css_nested_ind; intros state; simpl;
    destruct (callback state _) as [state'|err]; try done.
  - revert state'. induction IH as [|child nodes Hchild _ IHnodes]; intros state';
      simpl; [done|].
    rewrite Hchild. clear Hchild. revert state'.
    induction (in_walk_order child) as [|x l IHl]; intros state'; simpl.
    + apply IHnodes.
    + destruct (callback state' x); [apply IHl|done].
  - revert state'. induction IH as [|child nodes Hchild _ IHnodes]; intros state';
      simpl; [done|].
    rewrite Hchild. clear Hchild. revert state'.
    induction (in_walk_order child) as [|x l IHl]; intros state'; simpl.
    + apply IHnodes.
    + destruct (callback state' x); [apply IHl|done].
Qed.

Lemma each_app {S A} (callback : S → A → Result S) l1 l2 state :
  each callback (l1 ++ l2) state
  = match each callback l1 state with
    | Returns state' => each callback l2 state'
    | Throws err => Throws err
    end.
Proof.
  revert state. induction l1 as [|x l1 IH]; intros state; simpl; [done|].
  destruct (callback state x); [apply IH|done].
Qed.

Lemma walk_each {S} (callback : S → css → Result S) nodes state :
  walk callback nodes state = each callback (flat_map in_walk_order nodes) state.
Proof.
  revert state. induction nodes as [|node nodes IH]; intros state; simpl; [done|].
  rewrite walk_node_each, each_app.
  destruct (each callback (in_walk_order node) state); [apply IH|done].
Qed.

Lemma walkAtRules_each {S} name_ (callback : S → AtRule → Result S) ast state :
  walkAtRules name_ callback ast state = each callback (at_rules name_ ast) state.
Proof.
  unfold walkAtRules, at_rules. rewrite walk_each.
  generalize (flat_map in_walk_order ast). intros l. revert state.
  induction l as [|x l IH]; intros state; simpl; [done|].
  destruct x as [rule nodes| | |]; simpl; try apply IH.
  case_bool_decide; simpl; [|apply IH].
  destruct (callback state rule); [apply IH|done].
Qed.

Lemma walkDecls_each {S} (callback : S → Declaration → Result S) ast state :
  walkDecls callback ast state = each callback (declarations ast) state.
Proof.
  unfold walkDecls, declarations. rewrite walk_each.
  generalize (flat_map in_walk_order ast). intros l. revert state.
  induction l as [|x l IH]; intros state; simpl; [done|].
  destruct x as [| |decl|]; simpl; try apply IH.
  destruct (callback state decl); [apply IH|done].
Qed.

Import PostcssAstDependencies.

Local Abbreviation getIdentifier := getDependencyIdentifierFromImportRule.
Local Abbreviation malformed :=
  (mkCssSyntaxError (str "Malformed @import cannot resolve identifier")).

Lemma addDependency_sources dependencies id :
  source <$> addDependency dependencies id
  = if decide (id ∈ source <$> dependencies) then source <$> dependencies
    else (source <$> dependencies) ++ [id].
Proof.
  unfold addDependency.
  destruct (existsb _ dependencies) eqn:E.
  - rewrite decide_True; [done|].
    apply existsb_exists in E as (dep & Hdep & Heq).
    apply bool_decide_eq_true in Heq as <-.
    apply list_elem_of_fmap. exists dep. split; [done|]. by apply list_elem_of_In.
  - rewrite decide_False; [by rewrite fmap_app|].
    intros (dep & -> & Hdep)%list_elem_of_fmap.
    assert (existsb (λ dep0, bool_decide (source dep0 = source dep)) dependencies
            = true) as E'; [|congruence].
    apply existsb_exists. exists dep. split; [by apply list_elem_of_In|].
    by apply bool_decide_eq_true.
Qed.

(** What a run of [addDependency] over identifiers leaves: the sources it
    started with, then the new identifiers, each once and in the order of
    their first appearance. *)
Lemma foldl_addDependency dependencies ids :
  ∃ new,
    source <$> foldl addDependency dependencies ids
    = (source <$> dependencies) ++ new ∧
    sublist new ids ∧
    (NoDup (source <$> dependencies) →
     NoDup (source <$> foldl addDependency dependencies ids)) ∧
    ∀ id, id ∈ source <$> foldl addDependency dependencies ids
          ↔ id ∈ source <$> dependencies ∨ id ∈ ids.
Proof.
  revert dependencies. induction ids as [|x ids IH]; intros dependencies; simpl.
  - exists []. rewrite app_nil_r. split; [done|]. split; [done|]. split; [done|].
    intros id. split; [auto|]. by intros [?|?%not_elem_of_nil].
  - destruct (IH (addDependency dependencies x)) as (new & Heq & Hsub & Hnd & Hin).
    rewrite addDependency_sources in Heq, Hnd, Hin.
    destruct (decide (x ∈ source <$> dependencies)) as [Hx|Hx].
    + exists new. split; [done|]. split; [by apply sublist_cons|].
      split; [done|]. intros id. rewrite Hin, elem_of_cons.
      split; [tauto|]. intros [?|[->|?]]; auto.
    + exists (x :: new). split; [by rewrite Heq, <- app_assoc|].
      split; [by apply sublist_skip|]. split.
      * intros Hnd0. apply Hnd, NoDup_app. split; [done|].
        split; [|apply NoDup_singleton].
        by intros y Hy ->%list_elem_of_singleton.
      * intros id. rewrite Hin, elem_of_app, list_elem_of_singleton, elem_of_cons.
        tauto.
Qed.

(** The order of first appearance: an identifier stands in the list
    behind exactly the identifiers that appear before its first
    appearance. *)
Lemma foldl_addDependency_first dependencies before id after :
  id ∉ before → id ∉ source <$> dependencies →
  ∃ d1 d2,
    source <$> foldl addDependency dependencies (before ++ id :: after)
    = (source <$> dependencies) ++ d1 ++ id :: d2 ∧
    ∀ y, y ∈ d1 ↔ y ∈ before ∧ y ∉ source <$> dependencies.
Proof.
  revert dependencies. induction before as [|a before IH]; intros dependencies.
  - intros _ Hid. simpl.
    destruct (foldl_addDependency (addDependency dependencies id) after)
      as (new & Heq & _).
    rewrite addDependency_sources, decide_False in Heq by done.
    exists [], new. rewrite Heq, <- app_assoc. split; [done|].
    intros y. split; [by intros ?%not_elem_of_nil|by intros [?%not_elem_of_nil _]].
  - intros [Hne Hid]%not_elem_of_cons Hdeps. simpl.
    destruct (decide (a ∈ source <$> dependencies)) as [Ha|Ha].
    + destruct (IH (addDependency dependencies a)) as (d1 & d2 & Heq & Hd1);
        [done|by rewrite addDependency_sources, decide_True|].
      rewrite addDependency_sources, decide_True in Heq, Hd1 by done.
      exists d1, d2. split; [done|]. intros y. rewrite Hd1, elem_of_cons.
      split; [tauto|]. intros [[->|?] ?]; [done|tauto].
    + destruct (IH (addDependency dependencies a)) as (d1 & d2 & Heq & Hd1);
        [done| |].
      { rewrite addDependency_sources, decide_False by done.
        apply not_elem_of_app. split; [done|].
        by intros ->%list_elem_of_singleton. }
      rewrite addDependency_sources, decide_False in Heq, Hd1 by done.
      exists (a :: d1), d2. rewrite Heq, <- app_assoc. split; [done|].
      intros y. rewrite !elem_of_cons, Hd1, not_elem_of_app, list_elem_of_singleton.
      destruct (decide (y = a)) as [->|Hy]; [tauto|]. tauto.
Qed.

(** A run of a callback that accumulates identifiers. *)
Lemma each_accumulate (get : AtRule → Result jsstring) rules dependencies :
  (∃ ids,
     Forall2 (λ rule id, get rule = Returns id) rules ids ∧
     each (λ dependencies rule,
             match get rule with
             | Returns id => Returns (addDependency dependencies id)
             | Throws err => Throws err
             end) rules dependencies
     = Returns (foldl addDependency dependencies ids))
  ∨ (∃ rule err,
       rule ∈ rules ∧ get rule = Throws err ∧
       each (λ dependencies rule,
               match get rule with
               | Returns id => Returns (addDependency dependencies id)
               | Throws err => Throws err
               end) rules dependencies
       = Throws err).
Proof.
  revert dependencies. induction rules as [|rule rules IH]; intros dependencies.
  - left. exists []. by split; [constructor|].
  - simpl. destruct (get rule) as [id|err] eqn:E.
    + destruct (IH (addDependency dependencies id))
        as [(ids & Hids & ->)|(rule' & err & Hin & Hthrow & ->)].
      * left. exists (id :: ids). by split; [constructor|].
      * right. exists rule', err. split; [by apply list_elem_of_further|done].
    + right. exists rule, err. split; [apply list_elem_of_here|done].
Qed.

Lemma getIdentifier_throws rule err :
  getIdentifier rule = Throws err → err = malformed.
Proof.
  rewrite getIdentifier_eq. unfold identifier_in.
  destruct (behind_url _) as [|q body]; [by intros [= <-]|].
  repeat case_bool_decide; by intros [= <-].
Qed.

Lemma Forall2_returned (get : AtRule → Result jsstring) rules ids id :
  Forall2 (λ rule id, get rule = Returns id) rules ids →
  id ∈ ids ↔ ∃ rule, rule ∈ rules ∧ get rule = Returns id.
Proof.
  induction 1 as [|rule id' rules ids Hget _ IH].
  - split; [by intros ?%not_elem_of_nil|by intros (? & ?%not_elem_of_nil & _)].
  - rewrite elem_of_cons, IH. split.
    + intros [->|(r & Hr & Hg)].
      * exists rule. split; [apply list_elem_of_here|done].
      * exists r. split; [by apply list_elem_of_further|done].
    + intros (r & [->|Hr]%elem_of_cons & Hg).
      * left. congruence.
      * right. by exists r.
Qed.

(** [postcssAstDependencies] resolves when every [@import] of the tree,
    at any depth, gives an identifier, and then with those identifiers,
    each once, in the order of their first appearance in a walk of the
    tree; it rejects when some [@import] is malformed, with the error of
    the first. *)
Theorem postcssAstDependencies_lists_imports_once ast :
  match postcssAstDependencies ast with
  | Resolved dependencies =>
      ∃ ids,
        Forall2 (λ rule id, getIdentifier rule = Returns id)
          (at_rules (str "import") ast) ids ∧
        NoDup (source <$> dependencies) ∧
        (∀ id, id ∈ source <$> dependencies ↔ id ∈ ids) ∧
        ∀ before id after,
          ids = before ++ id :: after → id ∉ before →
          ∃ d1 d2, source <$> dependencies = d1 ++ id :: d2
                   ∧ ∀ y, y ∈ d1 ↔ y ∈ before
  | Rejected err =>
      err = malformed ∧
      ∃ rule, rule ∈ at_rules (str "import") ast
              ∧ getIdentifier rule = throwMalformedImport
  end.
Proof.
  unfold postcssAstDependencies. rewrite walkAtRules_each.
  unfold accumulateDependencyIdentifiers.
  destruct (each_accumulate getIdentifier (at_rules (str "import") ast) [])
    as [(ids & Hids & ->)|(rule & err & Hin & Hthrow & ->)].
  - exists ids. split; [done|].
    destruct (foldl_addDependency [] ids) as (new & Heq & Hsub & Hnd & Hmem).
    split; [apply Hnd; constructor|]. split.
    + intros id. rewrite Hmem. split; [|auto]. by intros [?%not_elem_of_nil|?].
    + intros before id after -> Hid.
      destruct (foldl_addDependency_first [] before id after Hid)
        as (d1 & d2 & Heq' & Hd1); [apply not_elem_of_nil|].
      exists d1, d2. split; [done|]. intros y. rewrite Hd1.
      split; [tauto|]. intros ?. split; [done|apply not_elem_of_nil].
  - pose proof (getIdentifier_throws _ _ Hthrow) as ->. split; [done|].
    by exists rule.
Qed.

Lemma findUrlsInNode_eq node accum :
  CompilerPostcssAstDependencies.findUrlsInNode node accum
  = accum ++ CompilerPostcssAstDependencies.urls_in node.
Proof.
  revert accum.
  induction node as [url|nodes IH|] using CompilerPostcssAstDependencies.vnode_nested_ind;
    intros accum; simpl; [done| |by rewrite app_nil_r].
  revert accum. induction IH as [|node nodes Hnode _ IHnodes]; intros accum; simpl.
  - by rewrite app_nil_r.
  - by rewrite Hnode, IHnodes, app_assoc.
Qed.

(** [findUrlsInNode] appends to the array, and appends the urls below the
    node in the order of the tree, a url as often as it stands there; so
    [getDependencyIdentifiersFromDeclarationValue] returns the urls of the
    parsed value in that order. *)
Theorem findUrlsInNode_appends_in_order
    (parseValues : jsstring → CompilerPostcssAstDependencies.vnode) node accum string :
  CompilerPostcssAstDependencies.findUrlsInNode node accum
  = accum ++ CompilerPostcssAstDependencies.urls_in node ∧
  CompilerPostcssAstDependencies.getDependencyIdentifiersFromDeclarationValue
    parseValues string
  = CompilerPostcssAstDependencies.urls_in (parseValues string).
Proof.
  split; [apply findUrlsInNode_eq|].
  unfold CompilerPostcssAstDependencies.getDependencyIdentifiersFromDeclarationValue.
  by rewrite findUrlsInNode_eq.
Qed.

Lemma each_ext {S A} (f g : S → A → Result S) l state :
  (∀ state x, f state x = g state x) → each f l state = each g l state.
Proof.
  intros Hfg. revert state. induction l as [|x l IH]; intros state; simpl; [done|].
  rewrite Hfg. destruct (g state x); [apply IH|done].
Qed.

Lemma each_add_all {A} (test : A → bool) (ids_of : A → list jsstring) l dependencies :
  each (λ dependencies x,
          if test x then Returns (foldl addDependency dependencies (ids_of x))
          else Returns dependencies) l dependencies
  = Returns (foldl addDependency dependencies
               (flat_map (λ x, if test x then ids_of x else []) l)).
Proof.
  revert dependencies. induction l as [|x l IH]; intros dependencies; simpl; [done|].
  destruct (test x); simpl; [|apply IH]. by rewrite IH, foldl_app.
Qed.

(** The version of [compiler/] returns the list of the version of [src/],
    followed by the urls of the declarations that were not yet in the
    list, each once; it throws where the other rejects.  The urls are
    those that the tokenizer finds in the value of a declaration whose
    value holds [url(]. *)
Theorem compiler_postcssAstDependencies_extends
    (parseValues : jsstring → CompilerPostcssAstDependencies.vnode) ast :
  match CompilerPostcssAstDependencies.postcssAstDependencies parseValues ast with
  | Returns dependencies =>
      ∃ imported new,
        postcssAstDependencies ast = Resolved imported ∧
        source <$> dependencies = (source <$> imported) ++ new ∧
        NoDup (source <$> dependencies) ∧
        ∀ id,
          id ∈ new ↔
          (id ∉ source <$> imported) ∧
          ∃ decl, decl ∈ declarations ast ∧
                  includes (value decl) (str "url(") = true ∧
                  id ∈ CompilerPostcssAstDependencies.urls_in
                         (parseValues (value decl))
  | Throws err => postcssAstDependencies ast = Rejected err
  end.
Proof.
  unfold CompilerPostcssAstDependencies.postcssAstDependencies,
    postcssAstDependencies.
  rewrite !walkAtRules_each.
  rewrite (each_ext
             (CompilerPostcssAstDependencies.accumulateDependencyIdentifiers)
             accumulateDependencyIdentifiers).
  2:{ intros deps rule.
      unfold CompilerPostcssAstDependencies.accumulateDependencyIdentifiers,
        accumulateDependencyIdentifiers.
      by rewrite compiler_getIdentifier_eq, getIdentifier_eq. }
  unfold accumulateDependencyIdentifiers.
  destruct (each_accumulate getIdentifier (at_rules (str "import") ast) [])
    as [(ids & Hids & ->)|(rule & err & Hin & Hthrow & ->)]; [|done].
  rewrite walkDecls_each.
  rewrite (each_add_all (λ decl, includes (value decl) (str "url("))
             (λ decl, CompilerPostcssAstDependencies.getDependencyIdentifiersFromDeclarationValue
                        parseValues (value decl))).
  set (imported := foldl addDependency [] ids).
  set (urls := flat_map _ (declarations ast)).
  destruct (foldl_addDependency imported urls) as (new & Heq & Hsub & Hnd & Hmem).
  exists imported, new. split; [done|]. split; [done|]. split.
  { apply Hnd. destruct (foldl_addDependency [] ids) as (_ & _ & _ & Hnd0 & _).
    apply Hnd0. constructor. }
  assert (NoDup ((source <$> imported) ++ new)) as Hnd'.
  { rewrite <- Heq. apply Hnd.
    destruct (foldl_addDependency [] ids) as (_ & _ & _ & Hnd0 & _).
    apply Hnd0. constructor. }
  apply NoDup_app in Hnd' as (_ & Hdisj & _).
  assert (∀ id, id ∈ urls ↔
            ∃ decl, decl ∈ declarations ast ∧
                    includes (value decl) (str "url(") = true ∧
                    id ∈ CompilerPostcssAstDependencies.urls_in
                           (parseValues (value decl))) as Hurls.
  { intros id. unfold urls. rewrite list_elem_of_In, in_flat_map. split.
    - intros (decl & Hdecl & Hid). exists decl.
      split; [by apply list_elem_of_In|].
      destruct (includes (value decl) (str "url(")); [|by destruct Hid].
      split; [done|]. apply list_elem_of_In in Hid.
      unfold CompilerPostcssAstDependencies.getDependencyIdentifiersFromDeclarationValue
        in Hid.
      by rewrite findUrlsInNode_eq in Hid.
    - intros (decl & Hdecl & Hinc & Hid). exists decl.
      split; [by apply list_elem_of_In|]. rewrite Hinc. apply list_elem_of_In.
      unfold CompilerPostcssAstDependencies.getDependencyIdentifiersFromDeclarationValue.
      by rewrite findUrlsInNode_eq. }
  intros id. rewrite <- Hurls. split.
  - intros Hid. split; [intros Hin; by apply (Hdisj id)|].
    assert (id ∈ source <$> foldl addDependency imported urls) as Hin.
    { rewrite Heq. apply elem_of_app. by right. }
    apply Hmem in Hin as [Hin|?]; [by destruct (Hdisj id Hin)|done].
  - intros [Hnin Hid].
    assert (id ∈ source <$> foldl addDependency imported urls) as Hin.
    { apply Hmem. by right. }
    rewrite Heq in Hin. by apply elem_of_app in Hin as [?|?].
Qed.

End DependencyListFacts.
